(** * Receive-side bandwidth estimation of aiortc ([aiortc/rate.py])

    A shallow embedding of the components of [rate.py] and the
    properties its specification states about them:

    - [InterArrival]: grouping of packets into timestamp groups (integers
      modulo 2^32, rationals for the timestamp scale);
    - [OveruseDetector]: the adaptive threshold comparator (real numbers);
    - [OveruseEstimator]: the two-state Kalman filter (real numbers);
    - [RateCounter]: the ring of 1 ms buckets (integers, rationals for the
      final division);
    - [RemoteBitrateEstimator]: the facade that routes each packet through
      the four.

    Python floats are modelled by exact numbers: rationals where the code
    only multiplies, divides and rounds, reals where it also takes square
    roots and powers.  Where the noise update of the estimator leaves the
    range of floats is followed separately ([update_noise_estimate_float]).
    A Python exception is an explicit [Raise] outcome. *)

From Stdlib Require Import ZArith QArith Reals Lra Lia List Bool Psatz.
Import ListNotations.

Open Scope Z_scope.

(** ** Outcomes of Python calls *)

Inductive PyError : Set :=
| TypeError            (* arithmetic or comparison on [None] *)
| AttributeError       (* attribute read on [None] *)
| ZeroDivisionError
| IndexError
| ValueError           (* [math.sqrt] of a negative number *)
| OverflowError.       (* [pow] or [**] beyond the largest float *)

Inductive Result (A : Type) : Type :=
| Ok (a : A)
| Raise (e : PyError)
| NoFuel.              (* a loop that outlived its iteration budget *)

Arguments Ok {A} a.
Arguments Raise {A} e.
Arguments NoFuel {A}.

Definition bind {A B : Type} (r : Result A) (k : A -> Result B) : Result B :=
  match r with
  | Ok a => k a
  | Raise e => Raise e
  | NoFuel => NoFuel
  end.

Declare Scope py_scope.
Delimit Scope py_scope with py.
Notation "x <- r ;; k" := (bind r (fun x => k))
  (at level 61, r at next level, right associativity) : py_scope.
Open Scope py_scope.

(** Use of an optional value as a number: [None] raises [TypeError]. *)
Definition num {A : Type} (o : option A) : Result A :=
  match o with
  | Some a => Ok a
  | None => Raise TypeError
  end.

(** Python's [round] on one argument, for an exact rational: the nearest
    integer, a tie going to the even neighbour. *)
Definition py_round (q : Q) : Z :=
  let n := Qnum q in
  let d := Zpos (Qden q) in
  let fl := n / d in
  let r2 := 2 * (n mod d) in
  if r2 <? d then fl
  else if d <? r2 then fl + 1
  else if Z.even fl then fl else fl + 1.

(** ** Helpers of [aiortc.utils] *)

(** Modelled from the spec: [aiortc/utils.py] is not among the sources; the
    specification describes [uint32_add] as the sum taken modulo 2^32
    ("(current.last_timestamp - previous.last_timestamp) mod 2^32"). *)
Definition uint32_add (a b : Z) : Z := (a + b) mod 2 ^ 32.

(** Modelled from the spec: [aiortc/utils.py] is not among the sources; the
    specification's design notes define the modular greater-than as
    "modular_gt(a,b) := (a - b) mod 2^32 < 2^31". *)
Definition uint32_gt (a b : Z) : bool := (a - b) mod 2 ^ 32 <? 2 ^ 31.

(** ** Constants *)

Definition BURST_DELTA_THRESHOLD_MS : Z := 5.
Definition MAX_ADAPT_OFFSET_MS : Z := 15.
Definition MIN_NUM_DELTAS : Z := 60.
Definition DELTA_COUNTER_MAX : Z := 1000.
Definition MIN_FRAME_PERIOD_HISTORY_LENGTH : nat := 60.
Definition INTER_ARRIVAL_SHIFT : Z := 26.
Definition TIMESTAMP_GROUP_LENGTH_MS : Z := 5.
Definition TIMESTAMP_TO_MS : Q := (1000 / inject_Z (Z.shiftl 1 INTER_ARRIVAL_SHIFT))%Q.

Inductive BandwidthUsage : Set := NORMAL | UNDERUSING | OVERUSING.

(** ** InterArrival *)

Module InterArrival.

Record TimestampGroup : Set := mkGroup {
  arrival_time : option Z;
  first_timestamp : option Z;
  last_timestamp : option Z;
  size : Z
}.

(** [TimestampGroup.__init__(timestamp=None)] *)
Definition TimestampGroup_init (timestamp : option Z) : TimestampGroup :=
  {| arrival_time := None;
     first_timestamp := timestamp;
     last_timestamp := timestamp;
     size := 0 |}.

Record InterArrivalDelta : Set := mkDelta {
  delta_timestamp : Z;
  delta_arrival_time : Z;
  delta_size : Z
}.

Record t : Type := mkInterArrival {
  group_length : Z;
  timestamp_to_ms : Q;
  current_group : option TimestampGroup;
  previous_group : option TimestampGroup
}.

(** [InterArrival.__init__] *)
Definition init (group_length : Z) (timestamp_to_ms : Q) : t :=
  {| group_length := group_length;
     timestamp_to_ms := timestamp_to_ms;
     current_group := None;
     previous_group := None |}.

(** Read of [self.current_group.<attr>]: [None] has no attributes. *)
Definition current (self : t) : Result TimestampGroup :=
  match current_group self with
  | Some g => Ok g
  | None => Raise AttributeError
  end.

Definition set_groups (self : t) (cur prev : option TimestampGroup) : t :=
  {| group_length := group_length self;
     timestamp_to_ms := timestamp_to_ms self;
     current_group := cur;
     previous_group := prev |}.

Definition packet_out_of_order (self : t) (timestamp : Z) : Result bool :=
  g <- current self ;;
  first <- num (first_timestamp g) ;;
  let timestamp_delta := uint32_add timestamp (- first) in
  Ok (2 ^ 31 <=? timestamp_delta).

Definition belongs_to_burst (self : t) (timestamp arrival : Z) : Result bool :=
  g <- current self ;;
  last <- num (last_timestamp g) ;;
  let timestamp_delta := uint32_add timestamp (- last) in
  let timestamp_delta_ms :=
    py_round (timestamp_to_ms self * inject_Z timestamp_delta) in
  cur_arrival <- num (arrival_time g) ;;
  let arrival_time_delta := arrival - cur_arrival in
  Ok ((timestamp_delta_ms =? 0)
      || ((arrival_time_delta - timestamp_delta_ms <? 0)
          && (arrival_time_delta <=? BURST_DELTA_THRESHOLD_MS))).

Definition new_timestamp_group (self : t) (timestamp arrival : Z) : Result bool :=
  burst <- belongs_to_burst self timestamp arrival ;;
  if burst then Ok false
  else
    g <- current self ;;
    first <- num (first_timestamp g) ;;
    let timestamp_delta := uint32_add timestamp (- first) in
    Ok (group_length self <? timestamp_delta).

(** The two statements that end [compute_deltas] on every path but the
    out-of-order one. *)
Definition account (self : t) (arrival packet_size : Z)
    (deltas : option InterArrivalDelta) : Result (t * option InterArrivalDelta) :=
  g <- current self ;;
  let g' := {| arrival_time := Some arrival;
               first_timestamp := first_timestamp g;
               last_timestamp := last_timestamp g;
               size := size g + packet_size |} in
  Ok (set_groups self (Some g') (previous_group self), deltas).

Definition make_delta (cur prev : TimestampGroup) : Result InterArrivalDelta :=
  cur_last <- num (last_timestamp cur) ;;
  prev_last <- num (last_timestamp prev) ;;
  cur_arrival <- num (arrival_time cur) ;;
  prev_arrival <- num (arrival_time prev) ;;
  Ok {| delta_timestamp := uint32_add cur_last (- prev_last);
        delta_arrival_time := cur_arrival - prev_arrival;
        delta_size := size cur - size prev |}.

Definition compute_deltas (self : t) (timestamp arrival packet_size : Z)
    : Result (t * option InterArrivalDelta) :=
  match current_group self with
  | None =>
      account
        (set_groups self (Some (TimestampGroup_init (Some timestamp)))
                    (previous_group self))
        arrival packet_size None
  | Some cur =>
      out_of_order <- packet_out_of_order self timestamp ;;
      if out_of_order then Ok (self, None)
      else
        new_group <- new_timestamp_group self timestamp arrival ;;
        if new_group then
          deltas <- match previous_group self with
                    | Some prev => d <- make_delta cur prev ;; Ok (Some d)
                    | None => Ok None
                    end ;;
          account
            (set_groups self (Some (TimestampGroup_init (Some timestamp)))
                        (Some cur))
            arrival packet_size deltas
        else
          last <- num (last_timestamp cur) ;;
          if uint32_gt timestamp last then
            account
              (set_groups self
                 (Some {| arrival_time := arrival_time cur;
                          first_timestamp := first_timestamp cur;
                          last_timestamp := Some timestamp;
                          size := size cur |})
                 (previous_group self))
              arrival packet_size None
          else account self arrival packet_size None
  end.

(** A packet as [compute_deltas] receives it. *)
Record Packet : Set := mkPacket {
  p_timestamp : Z;
  p_arrival : Z;
  p_size : Z
}.

(** Successive calls of [compute_deltas]; the deltas emitted so far are
    collected, oldest first. *)
Fixpoint feed (self : t) (packets : list Packet)
    : Result (t * list InterArrivalDelta) :=
  match packets with
  | [] => Ok (self, [])
  | p :: rest =>
      r <- compute_deltas self (p_timestamp p) (p_arrival p) (p_size p) ;;
      r' <- feed (fst r) rest ;;
      Ok (fst r', match snd r with
                  | Some d => d :: snd r'
                  | None => snd r'
                  end)
  end.

(** The deltas that a run of calls returns. *)
Definition emitted (self : t) (packets : list Packet)
    : Result (list InterArrivalDelta) :=
  r <- feed self packets ;; Ok (snd r).

(** The instance that [RemoteBitrateEstimator.__init__] builds. *)
Definition abs_send_time_filter : t :=
  init (Z.shiftl TIMESTAMP_GROUP_LENGTH_MS INTER_ARRIVAL_SHIFT / 1000)
       TIMESTAMP_TO_MS.

(** The burst condition as the specification words it: the timestamp delta
    rounds to zero, or "the inter-timestamp delta in ms is strictly less than
    the arrival delta" and the arrival delta is at most 5 ms. *)
Definition burst_as_worded (to_ms : Q) (last cur_arrival timestamp arrival : Z)
    : bool :=
  let timestamp_delta_ms :=
    py_round (to_ms * inject_Z ((timestamp - last) mod 2 ^ 32)) in
  let arrival_time_delta := arrival - cur_arrival in
  (timestamp_delta_ms =? 0)
  || ((timestamp_delta_ms <? arrival_time_delta)
      && (arrival_time_delta <=? BURST_DELTA_THRESHOLD_MS)).

(** Every group that a filter holds has its three optional attributes set. *)
Definition group_complete (g : TimestampGroup) : Prop :=
  arrival_time g <> None /\ first_timestamp g <> None /\ last_timestamp g <> None.

Definition groups_complete (self : t) : Prop :=
  (forall g, current_group self = Some g -> group_complete g) /\
  (forall g, previous_group self = Some g -> group_complete g).

(** The same filter and packets seen through a sender clock that is ahead
    by [c] units, every timestamp being reduced to 32 bits. *)
Definition shift_timestamp (c : Z) (timestamp : option Z) : option Z :=
  option_map (fun x => (x + c) mod 2 ^ 32) timestamp.

Definition shift_group (c : Z) (g : TimestampGroup) : TimestampGroup :=
  {| arrival_time := arrival_time g;
     first_timestamp := shift_timestamp c (first_timestamp g);
     last_timestamp := shift_timestamp c (last_timestamp g);
     size := size g |}.

Definition shift_filter (c : Z) (self : t) : t :=
  set_groups self (option_map (shift_group c) (current_group self))
             (option_map (shift_group c) (previous_group self)).

Definition shift_packet (c : Z) (p : Packet) : Packet :=
  {| p_timestamp := (p_timestamp p + c) mod 2 ^ 32;
     p_arrival := p_arrival p;
     p_size := p_size p |}.

(** Sample filters: the filter of [RemoteBitrateEstimator] after one packet
    with timestamp 0 that arrived at 0 ms, and a filter whose timestamps
    are milliseconds, with groups of 5 ms. *)
Definition after_first_packet : t :=
  {| group_length := 335544;
     timestamp_to_ms := TIMESTAMP_TO_MS;
     current_group := Some {| arrival_time := Some 0;
                              first_timestamp := Some 0;
                              last_timestamp := Some 0;
                              size := 1 |};
     previous_group := None |}.

Definition millisecond_filter : t := init 5 1.

(** The filter of [RemoteBitrateEstimator] after a packet of 1200 bytes sent
    and received at 0 ms and one of 1000 bytes sent and received 6 ms
    later. *)
Definition two_groups : t :=
  {| group_length := 335544;
     timestamp_to_ms := TIMESTAMP_TO_MS;
     current_group := Some {| arrival_time := Some 6;
                              first_timestamp := Some 402654;
                              last_timestamp := Some 402654;
                              size := 1000 |};
     previous_group := Some {| arrival_time := Some 0;
                               first_timestamp := Some 0;
                               last_timestamp := Some 0;
                               size := 1200 |} |}.

End InterArrival.

(** ** Real-number primitives of the float code *)

Definition Rltb (x y : R) : bool := if Rlt_dec x y then true else false.
Definition Rleb (x y : R) : bool := if Rle_dec x y then true else false.

(** True division: a zero divisor raises. *)
Definition py_div (x y : R) : Result R :=
  if Req_dec_T y 0 then Raise ZeroDivisionError else Ok (x / y)%R.

(** [math.sqrt]: a negative argument raises. *)
Definition py_sqrt (x : R) : Result R :=
  if Rlt_dec x 0 then Raise ValueError else Ok (sqrt x).

(** ** The range of Python floats

    The detector and the estimator below read floats as real numbers.  To
    see where that reading ends, the definitions here keep exact results
    but follow them out of the range of doubles: a finite operation whose
    exact result reaches 2^1024 in magnitude gives an infinity (for [pow]
    and [**] Python raises [OverflowError] instead), and infinities and
    NaN combine as IEEE 754 prescribes.  Rounding, underflow and the sign
    of zero are not modelled. *)

Inductive Float : Type :=
| Finite (r : R)
| PosInf
| NegInf
| NaN.

(** 2^1024, the first power of two beyond every double. *)
Definition FLOAT_LIMIT : R := IZR (2 ^ 1024).

(** The float that a finite operation returns for the exact result [r]. *)
Definition in_range (r : R) : Float :=
  if Rle_dec FLOAT_LIMIT r then PosInf
  else if Rle_dec r (- FLOAT_LIMIT) then NegInf
  else Finite r.

Definition fneg (a : Float) : Float :=
  match a with
  | Finite x => Finite (- x)
  | PosInf => NegInf
  | NegInf => PosInf
  | NaN => NaN
  end.

Definition fadd (a b : Float) : Float :=
  match a, b with
  | NaN, _ | _, NaN => NaN
  | Finite x, Finite y => in_range (x + y)
  | PosInf, NegInf | NegInf, PosInf => NaN
  | PosInf, _ | _, PosInf => PosInf
  | NegInf, _ | _, NegInf => NegInf
  end.

Definition fsub (a b : Float) : Float := fadd a (fneg b).

(** An infinity times the finite [x]: NaN for 0, else an infinity whose
    sign is the product of the signs. *)
Definition inf_times (negative : bool) (x : R) : Float :=
  if Req_dec_T x 0 then NaN
  else if Rlt_dec 0 x then (if negative then NegInf else PosInf)
  else (if negative then PosInf else NegInf).

Definition fmul (a b : Float) : Float :=
  match a, b with
  | NaN, _ | _, NaN => NaN
  | Finite x, Finite y => in_range (x * y)
  | PosInf, Finite x | Finite x, PosInf => inf_times false x
  | NegInf, Finite x | Finite x, NegInf => inf_times true x
  | PosInf, PosInf | NegInf, NegInf => PosInf
  | PosInf, NegInf | NegInf, PosInf => NegInf
  end.

(** Division by a finite positive constant. *)
Definition fdiv_by (a : Float) (d : R) : Float :=
  match a with
  | Finite x => in_range (x / d)
  | other => other
  end.

(** [a < b] and [a <= b]: false as soon as one side is NaN. *)
Definition flt (a b : Float) : bool :=
  match a, b with
  | NaN, _ | _, NaN => false
  | Finite x, Finite y => Rltb x y
  | _, NegInf => false
  | NegInf, _ => true
  | PosInf, _ => false
  | Finite _, PosInf => true
  end.

Definition fle (a b : Float) : bool :=
  match a, b with
  | NaN, _ | _, NaN => false
  | Finite x, Finite y => Rleb x y
  | NegInf, _ => true
  | _, PosInf => true
  | _, NegInf => false
  | PosInf, _ => false
  end.

(** [pow(x, y)] for a positive finite base: a finite exponent whose result
    leaves the range raises. *)
Definition float_pow (x : R) (y : Float) : Result Float :=
  match y with
  | Finite e =>
      if Rle_dec FLOAT_LIMIT (Rpower x e) then Raise OverflowError
      else Ok (Finite (Rpower x e))
  | PosInf =>
      Ok (if Rltb x 1 then Finite 0 else if Rltb 1 x then PosInf else Finite 1)
  | NegInf =>
      Ok (if Rltb x 1 then PosInf else if Rltb 1 x then Finite 0 else Finite 1)
  | NaN => Ok (if Req_dec_T x 1 then Finite 1 else NaN)
  end.

(** [a ** 2] *)
Definition float_square (a : Float) : Result Float :=
  match a with
  | Finite x =>
      if Rle_dec FLOAT_LIMIT (x * x) then Raise OverflowError
      else Ok (Finite (x * x))
  | PosInf | NegInf => Ok PosInf
  | NaN => Ok NaN
  end.

(** ** OveruseDetector *)

Module OveruseDetector.

Local Open Scope R_scope.

Record t : Type := mkDetector {
  hypothesis : BandwidthUsage;
  last_update_ms : option R;
  k_up : R;
  k_down : R;
  overuse_counter : Z;
  overuse_time : option R;
  overuse_time_threshold : R;
  previous_offset : R;
  threshold : R
}.

(** [OveruseDetector.__init__] *)
Definition init : t :=
  {| hypothesis := NORMAL;
     last_update_ms := None;
     k_up := 87 / 10000;
     k_down := 39 / 1000;
     overuse_counter := 0;
     overuse_time := None;
     overuse_time_threshold := 10;
     previous_offset := 0;
     threshold := 125 / 10 |}.

Definition set_threshold (self : t) (last : option R) (th : R) : t :=
  {| hypothesis := hypothesis self;
     last_update_ms := last;
     k_up := k_up self;
     k_down := k_down self;
     overuse_counter := overuse_counter self;
     overuse_time := overuse_time self;
     overuse_time_threshold := overuse_time_threshold self;
     previous_offset := previous_offset self;
     threshold := th |}.

Definition set_overuse (self : t) (counter : Z) (time : option R)
    (hyp : BandwidthUsage) : t :=
  {| hypothesis := hyp;
     last_update_ms := last_update_ms self;
     k_up := k_up self;
     k_down := k_down self;
     overuse_counter := counter;
     overuse_time := time;
     overuse_time_threshold := overuse_time_threshold self;
     previous_offset := previous_offset self;
     threshold := threshold self |}.

Definition set_previous_offset (self : t) (offset : R) : t :=
  {| hypothesis := hypothesis self;
     last_update_ms := last_update_ms self;
     k_up := k_up self;
     k_down := k_down self;
     overuse_counter := overuse_counter self;
     overuse_time := overuse_time self;
     overuse_time_threshold := overuse_time_threshold self;
     previous_offset := offset;
     threshold := threshold self |}.

Definition update_threshold (self : t) (modified_offset now_ms : R) : t :=
  (* if self.last_update_ms is None: self.last_update_ms = now_ms *)
  let last := match last_update_ms self with
              | None => now_ms
              | Some l => l
              end in
  if Rltb (threshold self + IZR MAX_ADAPT_OFFSET_MS) (Rabs modified_offset) then
    set_threshold self (Some now_ms) (threshold self)
  else
    let k := if Rltb (Rabs modified_offset) (threshold self)
             then k_down self else k_up self in
    let time_delta_ms := Rmin (now_ms - last) 100 in
    let th := threshold self
              + k * (Rabs modified_offset - threshold self) * time_delta_ms in
    let th := Rmax 6 (Rmin th 600) in
    set_threshold self (Some now_ms) th.

Definition detect (self : t) (offset timestamp_delta_ms : R) (num_of_deltas : Z)
    (now_ms : R) : t * BandwidthUsage :=
  if (num_of_deltas <? 2)%Z then (self, NORMAL)
  else
    let T := IZR (Z.min num_of_deltas MIN_NUM_DELTAS) * offset in
    let self1 :=
      if Rltb (threshold self) T then
        let time := match overuse_time self with
                    | None => timestamp_delta_ms / 2
                    | Some ot => ot + timestamp_delta_ms
                    end in
        let counter := (overuse_counter self + 1)%Z in
        if Rltb (overuse_time_threshold self) time
           && (1 <? counter)%Z
           && Rleb (previous_offset self) offset
        then set_overuse self 0 (Some 0) OVERUSING
        else set_overuse self counter (Some time) (hypothesis self)
      else if Rltb T (- threshold self) then
        set_overuse self 0 None UNDERUSING
      else
        set_overuse self 0 None NORMAL in
    let self2 := set_previous_offset self1 offset in
    let self3 := update_threshold self2 T now_ms in
    (self3, hypothesis self3).

Definition state (self : t) : BandwidthUsage := hypothesis self.

(** The calls that change a detector. *)
Inductive Call : Type :=
| Detect (offset timestamp_delta_ms : R) (num_of_deltas : Z) (now_ms : R)
| UpdateThreshold (modified_offset now_ms : R).

Definition step (self : t) (c : Call) : t :=
  match c with
  | Detect offset ts n now => fst (detect self offset ts n now)
  | UpdateThreshold mo now => update_threshold self mo now
  end.

Definition run (self : t) (calls : list Call) : t := fold_left step calls self.

(** What the calls keep of the fields that [__init__] sets: the gains and
    the time threshold are constants, the counter of overuse samples is not
    negative and is 0 while no overuse time is recorded. *)
Definition steady (self : t) : Prop :=
  k_up self = 87 / 10000 /\
  k_down self = 39 / 1000 /\
  overuse_time_threshold self = 10 /\
  (0 <= overuse_counter self)%Z /\
  (overuse_time self = None -> overuse_counter self = 0%Z).

(** A sample detector: one overuse sample of 20 ms is on record, taken at
    100 ms with offset 1. *)
Definition one_overuse : t :=
  {| hypothesis := NORMAL;
     last_update_ms := Some 100;
     k_up := 87 / 10000;
     k_down := 39 / 1000;
     overuse_counter := 1;
     overuse_time := Some 10;
     overuse_time_threshold := 10;
     previous_offset := 1;
     threshold := 125 / 10 |}.

(** A sample detector: the state in which the first [detect] of a new
    detector calls [update_threshold], after an overuse sample of 10 ms with
    offset 20; [last_update_ms] is still unset. *)
Definition before_first_update : t :=
  {| hypothesis := NORMAL;
     last_update_ms := None;
     k_up := 87 / 10000;
     k_down := 39 / 1000;
     overuse_counter := 1;
     overuse_time := Some 5;
     overuse_time_threshold := 10;
     previous_offset := 20;
     threshold := 125 / 10 |}.

(** The clamp of [update_threshold], as a property of a detector. *)
Definition threshold_bounded (self : t) : Prop := 6 <= threshold self <= 600.

End OveruseDetector.

(** ** OveruseEstimator *)

Module OveruseEstimator.

Local Open Scope R_scope.

(** The nested list [[e00, e01], [e10, e11]]. *)
Record Mat2 : Type := mkMat2 { m00 : R; m01 : R; m10 : R; m11 : R }.

Record t : Type := mkEstimator {
  E : Mat2;
  num_of_deltas : Z;
  offset : R;
  previous_offset : R;
  slope : R;
  ts_delta_hist : list R;
  avg_noise : R;
  var_noise : R;
  process_noise : R * R
}.

(** [OveruseEstimator.__init__] *)
Definition init : t :=
  {| E := {| m00 := 100; m01 := 0; m10 := 0; m11 := 1 / 10 |};
     num_of_deltas := 0;
     offset := 0;
     previous_offset := 0;
     slope := 1 / 64;
     ts_delta_hist := [];
     avg_noise := 0;
     var_noise := 50;
     process_noise := (1 / 10 ^ 13, 1 / 10 ^ 3) |}.

Definition update_min_frame_period (self : t) (ts_delta : R) : t * R :=
  let hist :=
    if (MIN_FRAME_PERIOD_HISTORY_LENGTH <=? length (ts_delta_hist self))%nat
    then tl (ts_delta_hist self)          (* pop(0) *)
    else ts_delta_hist self in
  let min_frame_period :=
    fold_left (fun m old_ts_delta => Rmin old_ts_delta m) hist ts_delta in
  ({| E := E self;
      num_of_deltas := num_of_deltas self;
      offset := offset self;
      previous_offset := previous_offset self;
      slope := slope self;
      ts_delta_hist := hist ++ [ts_delta];
      avg_noise := avg_noise self;
      var_noise := var_noise self;
      process_noise := process_noise self |},
   min_frame_period).

Definition set_noise (self : t) (avg var : R) : t :=
  {| E := E self;
     num_of_deltas := num_of_deltas self;
     offset := offset self;
     previous_offset := previous_offset self;
     slope := slope self;
     ts_delta_hist := ts_delta_hist self;
     avg_noise := avg;
     var_noise := var;
     process_noise := process_noise self |}.

(** [update_noise_estimate] in exact arithmetic: [pow] is the real power,
    which is defined for every exponent.  What the floats of the source do
    when it is not is in [update_noise_estimate_float] below. *)
Definition update_noise_estimate (self : t) (residual ts_delta : R) : t :=
  let alpha := if (10 * 30 <? num_of_deltas self)%Z then 2 / 1000 else 1 / 100 in
  let beta := Rpower (1 - alpha) (ts_delta * 30 / 1000) in
  let avg := beta * avg_noise self + (1 - beta) * residual in
  let var := beta * var_noise self + (1 - beta) * (avg - residual) ^ 2 in
  set_noise self avg (if Rltb var 1 then 1 else var).

(** [update_noise_estimate] with the range of floats: the values that the
    call gives [self.avg_noise] and [self.var_noise], from a filter whose
    fields are finite. *)
Definition update_noise_estimate_float (self : t) (residual ts_delta : R)
    : Result (Float * Float) :=
  let alpha := if (10 * 30 <? num_of_deltas self)%Z then 2 / 1000 else 1 / 100 in
  beta <- float_pow (1 - alpha) (fdiv_by (in_range (ts_delta * 30)) 1000) ;;
  let avg := fadd (fmul beta (Finite (avg_noise self)))
                  (fmul (fsub (Finite 1) beta) (Finite residual)) in
  square <- float_square (fsub avg (Finite residual)) ;;
  let var := fadd (fmul beta (Finite (var_noise self)))
                  (fmul (fsub (Finite 1) beta) square) in
  Ok (avg, if flt var (Finite 1) then Finite 1 else var).

(** The state of [update] when it reaches the Kalman gain: the filter after
    the covariance inflation and the noise update, the measurement vector
    [h = [fs_delta, 1.0]], the product [Eh] and the residual. *)
Record Innovation : Type := mkInnovation {
  filter : t;
  h0 : R;
  h1 : R;
  Eh0 : R;
  Eh1 : R;
  residual : R
}.

(** The first statements of [update] after the frame period: the delta
    counter and the inflation of the covariance by the process noise, once
    more on [E[1][1]] when the hypothesis contradicts the trend of the
    offset. *)
Definition inflate (self : t) (current_hypothesis : BandwidthUsage) : t :=
  let n := Z.min (num_of_deltas self + 1) DELTA_COUNTER_MAX in
  let e00 := m00 (E self) + fst (process_noise self) in
  let e11 := m11 (E self) + snd (process_noise self) in
  let e11 :=
    match current_hypothesis with
    | OVERUSING =>
        if Rltb (offset self) (previous_offset self)
        then e11 + 10 * snd (process_noise self) else e11
    | UNDERUSING =>
        if Rltb (previous_offset self) (offset self)
        then e11 + 10 * snd (process_noise self) else e11
    | NORMAL => e11
    end in
  {| E := {| m00 := e00; m01 := m01 (E self); m10 := m10 (E self); m11 := e11 |};
     num_of_deltas := n;
     offset := offset self;
     previous_offset := previous_offset self;
     slope := slope self;
     ts_delta_hist := ts_delta_hist self;
     avg_noise := avg_noise self;
     var_noise := var_noise self;
     process_noise := process_noise self |}.

(** The block under [# update noise estimate]. *)
Definition clamp_noise (self : t) (current_hypothesis : BandwidthUsage)
    (residual min_frame_period : R) : Result t :=
  match current_hypothesis with
  | NORMAL =>
      root <- py_sqrt (var_noise self) ;;
      let max_residual := 3 * root in
      if Rltb (Rabs residual) max_residual then
        Ok (update_noise_estimate self residual min_frame_period)
      else
        Ok (update_noise_estimate self
              (if Rltb residual 0 then - max_residual else max_residual)
              min_frame_period)
  | _ => Ok self
  end.

Definition innovation (self : t) (time_delta_ms timestamp_delta_ms size_delta : R)
    (current_hypothesis : BandwidthUsage) : Result Innovation :=
  let '(self, min_frame_period) :=
    update_min_frame_period self timestamp_delta_ms in
  let t_ts_delta := time_delta_ms - timestamp_delta_ms in
  let fs_delta := size_delta in
  (* update Kalman filter *)
  let self := inflate self current_hypothesis in
  let h0 := fs_delta in
  let h1 := 1 in
  let Eh0 := m00 (E self) * h0 + m01 (E self) * h1 in
  let Eh1 := m10 (E self) * h0 + m11 (E self) * h1 in
  (* update noise estimate *)
  let residual := t_ts_delta - slope self * h0 - offset self in
  self <- clamp_noise self current_hypothesis residual min_frame_period ;;
  Ok {| filter := self; h0 := h0; h1 := h1; Eh0 := Eh0; Eh1 := Eh1;
        residual := residual |}.

(** The noise estimate that a call of [update] leaves, with the range of
    floats: the statements of [update] down to the block under
    [# update noise estimate], whose calls go to
    [update_noise_estimate_float]. *)
Definition clamp_noise_float (self : t) (current_hypothesis : BandwidthUsage)
    (residual min_frame_period : R) : Result (Float * Float) :=
  match current_hypothesis with
  | NORMAL =>
      root <- py_sqrt (var_noise self) ;;
      let max_residual := 3 * root in
      if Rltb (Rabs residual) max_residual then
        update_noise_estimate_float self residual min_frame_period
      else
        update_noise_estimate_float self
          (if Rltb residual 0 then - max_residual else max_residual)
          min_frame_period
  | _ => Ok (Finite (avg_noise self), Finite (var_noise self))
  end.

Definition noise_after_update_float (self : t)
    (time_delta_ms timestamp_delta_ms size_delta : R)
    (current_hypothesis : BandwidthUsage) : Result (Float * Float) :=
  let '(self, min_frame_period) :=
    update_min_frame_period self timestamp_delta_ms in
  let t_ts_delta := time_delta_ms - timestamp_delta_ms in
  let fs_delta := size_delta in
  let self := inflate self current_hypothesis in
  let h0 := fs_delta in
  let residual := t_ts_delta - slope self * h0 - offset self in
  clamp_noise_float self current_hypothesis residual min_frame_period.

(** [denom = self.var_noise + h[0] * Eh[0] + h[1] * Eh[1]] *)
Definition denom (i : Innovation) : R :=
  var_noise (filter i) + h0 i * Eh0 i + h1 i * Eh1 i.

Definition update (self : t) (time_delta_ms timestamp_delta_ms size_delta : R)
    (current_hypothesis : BandwidthUsage) (now_ms : R) : Result t :=
  i <- innovation self time_delta_ms timestamp_delta_ms size_delta
         current_hypothesis ;;
  let self := filter i in
  K0 <- py_div (Eh0 i) (denom i) ;;
  K1 <- py_div (Eh1 i) (denom i) ;;
  let IKh00 := 1 - K0 * h0 i in
  let IKh01 := - K0 * h1 i in
  let IKh10 := - K1 * h0 i in
  let IKh11 := 1 - K1 * h1 i in
  let e00 := m00 (E self) in
  let e01 := m01 (E self) in
  (* update state: the right-hand sides read E[1][0] and E[1][1] before
     their own assignment *)
  let n00 := e00 * IKh00 + m10 (E self) * IKh01 in
  let n01 := e01 * IKh00 + m11 (E self) * IKh01 in
  let n10 := e00 * IKh10 + m10 (E self) * IKh11 in
  let n11 := e01 * IKh10 + m11 (E self) * IKh11 in
  Ok {| E := {| m00 := n00; m01 := n01; m10 := n10; m11 := n11 |};
        num_of_deltas := num_of_deltas self;
        offset := offset self + K1 * residual i;
        previous_offset := offset self;
        slope := slope self + K0 * residual i;
        ts_delta_hist := ts_delta_hist self;
        avg_noise := avg_noise self;
        var_noise := var_noise self;
        process_noise := process_noise self |}.

(** The arguments of one call of [update]. *)
Record Args : Type := mkArgs {
  a_time_delta_ms : R;
  a_timestamp_delta_ms : R;
  a_size_delta : R;
  a_hypothesis : BandwidthUsage;
  a_now_ms : R
}.

Definition call (self : t) (a : Args) : Result t :=
  update self (a_time_delta_ms a) (a_timestamp_delta_ms a) (a_size_delta a)
         (a_hypothesis a) (a_now_ms a).

Fixpoint run (self : t) (calls : list Args) : Result t :=
  match calls with
  | [] => Ok self
  | a :: rest => self' <- call self a ;; run self' rest
  end.

Definition symmetric (m : Mat2) : Prop := m01 m = m10 m.

(** Positive semi-definite: the quadratic form [x^T m x] is never negative. *)
Definition positive_semidefinite (m : Mat2) : Prop :=
  forall x y : R,
    0 <= x * (m00 m * x + m01 m * y) + y * (m10 m * x + m11 m * y).

(** The last [n] elements of a list, all of it when it is shorter. *)
Definition last_entries {A : Type} (n : nat) (l : list A) : list A :=
  skipn (length l - n) l.

(** What [update] keeps true of a filter: the covariance is symmetric with
    non-negative diagonal and determinant, the noise variance is at least 1
    and the process noise is not negative. *)
Definition invariant (self : t) : Prop :=
  m01 (E self) = m10 (E self) /\
  0 <= m00 (E self) /\
  0 <= m11 (E self) /\
  m01 (E self) * m10 (E self) <= m00 (E self) * m11 (E self) /\
  1 <= var_noise self /\
  0 <= fst (process_noise self) /\
  0 <= snd (process_noise self).

End OveruseEstimator.

(** ** RateCounter *)

Module RateCounter.

Record RateBucket : Set := mkBucket { count : Z; value : Z }.

Record t : Type := mkCounter {
  scale : Z;
  window_size : Z;
  buckets : list RateBucket;
  origin_index : Z;
  origin_ms : option Z;
  total : RateBucket
}.

(** [list[i]]: indices from [-len] to [len - 1] are valid, a negative one
    counts from the end. *)
Definition py_index {A : Type} (l : list A) (i : Z) : Result A :=
  let len := Z.of_nat (length l) in
  let j := if i <? 0 then len + i else i in
  if (0 <=? j) && (j <? len) then
    match nth_error l (Z.to_nat j) with
    | Some a => Ok a
    | None => Raise IndexError
    end
  else Raise IndexError.

(** The list with the element at a valid index replaced: what mutating the
    object [list[i]] in place does to the list. *)
Fixpoint replace_nth {A : Type} (l : list A) (n : nat) (a : A) : list A :=
  match l, n with
  | [], _ => []
  | _ :: rest, O => a :: rest
  | x :: rest, S n' => x :: replace_nth rest n' a
  end.

Definition py_replace {A : Type} (l : list A) (i : Z) (a : A) : list A :=
  let len := Z.of_nat (length l) in
  let j := if i <? 0 then len + i else i in
  replace_nth l (Z.to_nat j) a.

(** [a % b] on integers: a zero modulus raises. *)
Definition py_mod (a b : Z) : Result Z :=
  if b =? 0 then Raise ZeroDivisionError else Ok (a mod b).

(** [RateCounter.reset] *)
Definition reset (self : t) : t :=
  {| scale := scale self;
     window_size := window_size self;
     buckets := repeat {| count := 0; value := 0 |} (Z.to_nat (window_size self));
     origin_index := 0;
     origin_ms := None;
     total := {| count := 0; value := 0 |} |}.

(** [RateCounter.__init__] *)
Definition init (window_size scale : Z) : t :=
  reset {| scale := scale;
           window_size := window_size;
           buckets := [];
           origin_index := 0;
           origin_ms := None;
           total := {| count := 0; value := 0 |} |}.

(** One turn of the body of the [while] loop of [_erase_old]. *)
Definition erase_bucket (self : t) (origin : Z) : Result t :=
  bucket <- py_index (buckets self) (origin_index self) ;;
  let total' := {| count := count (total self) - count bucket;
                   value := value (total self) - value bucket |} in
  let buckets' := py_replace (buckets self) (origin_index self)
                             {| count := 0; value := 0 |} in
  index' <- py_mod (origin_index self + 1) (window_size self) ;;
  Ok {| scale := scale self;
        window_size := window_size self;
        buckets := buckets';
        origin_index := index';
        origin_ms := Some (origin + 1);
        total := total' |}.

(** The [while] loop of [_erase_old], with a budget of iterations. *)
Fixpoint erase_loop (fuel : nat) (self : t) (new_origin_ms : Z) : Result t :=
  origin <- num (origin_ms self) ;;
  if origin <? new_origin_ms then
    match fuel with
    | O => NoFuel
    | S fuel' =>
        self' <- erase_bucket self origin ;;
        erase_loop fuel' self' new_origin_ms
    end
  else Ok self.

(** [RateCounter._erase_old]: the loop adds one to [_origin_ms] each turn,
    so the distance to [new_origin_ms] is a sufficient budget. *)
Definition _erase_old (self : t) (now_ms : Z) : Result t :=
  let new_origin_ms := now_ms - window_size self + 1 in
  origin <- num (origin_ms self) ;;
  erase_loop (Z.to_nat (new_origin_ms - origin)) self new_origin_ms.

Definition add (self : t) (v now_ms : Z) : Result t :=
  self <- match origin_ms self with
          | None =>
              Ok {| scale := scale self;
                    window_size := window_size self;
                    buckets := buckets self;
                    origin_index := origin_index self;
                    origin_ms := Some now_ms;
                    total := total self |}
          | Some _ => _erase_old self now_ms
          end ;;
  origin <- num (origin_ms self) ;;
  index <- py_mod (origin_index self + now_ms - origin) (window_size self) ;;
  bucket <- py_index (buckets self) index ;;
  let bucket' := {| count := count bucket + 1; value := value bucket + v |} in
  Ok {| scale := scale self;
        window_size := window_size self;
        buckets := py_replace (buckets self) index bucket';
        origin_index := origin_index self;
        origin_ms := origin_ms self;
        total := {| count := count (total self) + 1;
                    value := value (total self) + v |} |}.

(** [RateCounter.rate]: the counter after the call and the returned value,
    [None] standing for Python's [None]. *)
Definition rate (self : t) (now_ms : Z) : Result (t * option Z) :=
  match origin_ms self with
  | Some _ =>
      self <- _erase_old self now_ms ;;
      origin <- num (origin_ms self) ;;
      let active_window_size := now_ms - origin + 1 in
      if (0 <? count (total self)) && (1 <? active_window_size) then
        Ok (self,
            Some (py_round (inject_Z (scale self * value (total self))
                            / inject_Z active_window_size)))
      else Ok (self, None)
  | None => Ok (self, None)
  end.

(** The value that a call of [rate] returned, when it returned. *)
Definition option_rate (r : Result (t * option Z)) : option (option Z) :=
  match r with
  | Ok (_, v) => Some v
  | _ => None
  end.

(** The shape that [__init__] with a positive window gives a counter and
    that every method keeps. *)
Definition well_formed (self : t) : Prop :=
  0 < window_size self /\
  Z.of_nat (length (buckets self)) = window_size self /\
  0 <= origin_index self < window_size self.

(** The calls that change a counter. *)
Inductive Call : Set :=
| Add (v now_ms : Z)
| Rate (now_ms : Z)
| Reset.

Definition step (self : t) (c : Call) : Result t :=
  match c with
  | Add v now_ms => add self v now_ms
  | Rate now_ms => r <- rate self now_ms ;; Ok (fst r)
  | Reset => Ok (reset self)
  end.

Fixpoint run (self : t) (calls : list Call) : Result t :=
  match calls with
  | [] => Ok self
  | c :: rest => self' <- step self c ;; run self' rest
  end.

(** The sums over the ring that [_total] is meant to track. *)
Definition sum_count (l : list RateBucket) : Z :=
  fold_right (fun b acc => count b + acc) 0 l.

Definition sum_value (l : list RateBucket) : Z :=
  fold_right (fun b acc => value b + acc) 0 l.

Definition totals_match (self : t) : Prop :=
  count (total self) = sum_count (buckets self) /\
  value (total self) = sum_value (buckets self).

(** Counters that have only been given values that are not negative. *)
Definition nonneg_bucket (b : RateBucket) : Prop := 0 <= count b /\ 0 <= value b.

Definition nonneg_call (c : Call) : Prop :=
  match c with
  | Add v _ => 0 <= v
  | _ => True
  end.

(** What a call keeps of the configuration. *)
Definition same_config (a b : t) : Prop :=
  scale a = scale b /\ window_size a = window_size b.

(** A sample counter: [RateCounter(10, 8000)] after [add(100, 5)] and
    [add(50, 7)]. *)
Definition started_counter : t :=
  let empty := {| count := 0; value := 0 |} in
  {| scale := 8000;
     window_size := 10;
     buckets := [ {| count := 1; value := 100 |}; empty;
                  {| count := 1; value := 50 |}; empty; empty;
                  empty; empty; empty; empty; empty ];
     origin_index := 0;
     origin_ms := Some 5;
     total := {| count := 2; value := 150 |} |}.

End RateCounter.

(** ** RemoteBitrateEstimator *)

Module RemoteBitrateEstimator.

(** [int(x)] on a float: truncation towards zero. *)
Definition py_int (q : Q) : Z := Z.quot (Qnum q) (Zpos (Qden q)).

Record t : Type := mkRemote {
  incoming_bitrate : RateCounter.t;
  incoming_bitrate_initialized : bool;
  inter_arrival : InterArrival.t;
  estimator : OveruseEstimator.t;
  detector : OveruseDetector.t;
  ssrcs : Z -> option Z          (* the dict, by what a lookup returns *)
}.

(** [RemoteBitrateEstimator.__init__] *)
Definition init : t :=
  {| incoming_bitrate := RateCounter.init 1000 8000;
     incoming_bitrate_initialized := true;
     inter_arrival := InterArrival.abs_send_time_filter;
     estimator := OveruseEstimator.init;
     detector := OveruseDetector.init;
     ssrcs := fun _ => None |}.

(** [self.ssrcs[ssrc] = arrival_time_ms] *)
Definition note_ssrc (d : Z -> option Z) (ssrc arrival_time_ms : Z)
    : Z -> option Z :=
  fun k => if k =? ssrc then Some arrival_time_ms else d k.

(** The block under [# update incoming bitrate]. *)
Definition update_incoming_bitrate (counter : RateCounter.t) (initialized : bool)
    (arrival_time_ms payload_size : Z) : Result (RateCounter.t * bool) :=
  r <- RateCounter.rate counter arrival_time_ms ;;
  let counter := fst r in
  let '(counter, initialized) :=
    match snd r with
    | Some _ => (counter, true)
    | None =>
        if initialized then (RateCounter.reset counter, false)
        else (counter, initialized)
    end in
  counter <- RateCounter.add counter payload_size arrival_time_ms ;;
  Ok (counter, initialized).

(** The block under [if deltas is not None]. *)
Definition filter_delta (est : OveruseEstimator.t) (det : OveruseDetector.t)
    (deltas : InterArrival.InterArrivalDelta) (arrival_time_ms : Z)
    : Result (OveruseEstimator.t * OveruseDetector.t) :=
  let timestamp_delta_ms :=
    py_int (inject_Z (InterArrival.delta_timestamp deltas) * TIMESTAMP_TO_MS) in
  est <- OveruseEstimator.update est
           (IZR (InterArrival.delta_arrival_time deltas))
           (IZR timestamp_delta_ms)
           (IZR (InterArrival.delta_size deltas))
           (OveruseDetector.state det)
           (IZR arrival_time_ms) ;;
  let det := fst (OveruseDetector.detect det
                    (OveruseEstimator.offset est)
                    (IZR timestamp_delta_ms)
                    (OveruseEstimator.num_of_deltas est)
                    (IZR arrival_time_ms)) in
  Ok (est, det).

Definition add (self : t) (arrival_time_ms abs_send_time payload_size ssrc : Z)
    : Result t :=
  let timestamp := Z.shiftl abs_send_time 8 in
  (* make note of SSRC *)
  let ssrcs' := note_ssrc (ssrcs self) ssrc arrival_time_ms in
  (* update incoming bitrate *)
  rc <- update_incoming_bitrate (incoming_bitrate self)
          (incoming_bitrate_initialized self) arrival_time_ms payload_size ;;
  (* calculate inter-arrival deltas *)
  ia <- InterArrival.compute_deltas (inter_arrival self) timestamp
          arrival_time_ms payload_size ;;
  ed <- match snd ia with
        | Some deltas =>
            filter_delta (estimator self) (detector self) deltas arrival_time_ms
        | None => Ok (estimator self, detector self)
        end ;;
  Ok {| incoming_bitrate := fst rc;
        incoming_bitrate_initialized := snd rc;
        inter_arrival := fst ia;
        estimator := fst ed;
        detector := snd ed;
        ssrcs := ssrcs' |}.

(** The arguments of one call of [add]. *)
Record Arrival : Set := mkArrival {
  r_arrival_time_ms : Z;
  r_abs_send_time : Z;
  r_payload_size : Z;
  r_ssrc : Z
}.

Fixpoint run (self : t) (arrivals : list Arrival) : Result t :=
  match arrivals with
  | [] => Ok self
  | a :: rest =>
      self' <- add self (r_arrival_time_ms a) (r_abs_send_time a)
                 (r_payload_size a) (r_ssrc a) ;;
      run self' rest
  end.

(** The packet that [add] hands to the inter-arrival filter. *)
Definition packet_of (a : Arrival) : InterArrival.Packet :=
  {| InterArrival.p_timestamp := Z.shiftl (r_abs_send_time a) 8;
     InterArrival.p_arrival := r_arrival_time_ms a;
     InterArrival.p_size := r_payload_size a |}.

(** A sample estimator: new components around an inter-arrival filter that
    has seen one packet with timestamp 0. *)
Definition after_first_arrival : t :=
  {| incoming_bitrate := RateCounter.init 1000 8000;
     incoming_bitrate_initialized := false;
     inter_arrival := InterArrival.after_first_packet;
     estimator := OveruseEstimator.init;
     detector := OveruseDetector.init;
     ssrcs := fun _ => None |}.

(** What every call of [add] keeps true of the components. *)
Definition sound (self : t) : Prop :=
  RateCounter.well_formed (incoming_bitrate self) /\
  InterArrival.groups_complete (inter_arrival self) /\
  OveruseEstimator.invariant (estimator self) /\
  OveruseDetector.threshold_bounded (detector self).

End RemoteBitrateEstimator.

(** * Properties *)

(** ** InterArrival *)

Section InterArrivalFacts.

Import InterArrival.

Lemma uint32_add_opp (a b : Z) : uint32_add a (- b) = (a - b) mod 2 ^ 32.
Proof. reflexivity. Qed.

Lemma uint32_add_range (a b : Z) : 0 <= uint32_add a b < 2 ^ 32.
Proof. unfold uint32_add. apply Z.mod_pos_bound. lia. Qed.

(** The first packet opens a group that starts and ends at its timestamp. *)
Lemma compute_deltas_first (self : t) (timestamp arrival packet_size : Z) :
  current_group self = None ->
  compute_deltas self timestamp arrival packet_size =
  Ok (set_groups self
        (Some {| arrival_time := Some arrival;
                 first_timestamp := Some timestamp;
                 last_timestamp := Some timestamp;
                 size := 0 + packet_size |})
        (previous_group self),
      None).
Proof.
  intros Hcur. unfold compute_deltas. rewrite Hcur. reflexivity.
Qed.

Lemma complete_fields (g : TimestampGroup) :
  group_complete g ->
  exists a f l, arrival_time g = Some a /\ first_timestamp g = Some f /\
                last_timestamp g = Some l.
Proof.
  intros (Ha & Hf & Hl).
  destruct (arrival_time g) as [a|]; [|congruence].
  destruct (first_timestamp g) as [f|]; [|congruence].
  destruct (last_timestamp g) as [l|]; [|congruence].
  now exists a, f, l.
Qed.

Lemma belongs_to_burst_ok (self : t) (g : TimestampGroup) (timestamp arrival : Z) :
  current_group self = Some g -> group_complete g ->
  exists b, belongs_to_burst self timestamp arrival = Ok b.
Proof.
  intros Hcur Hg. destruct (complete_fields g Hg) as (a & f & l & Ha & Hf & Hl).
  unfold belongs_to_burst, current. rewrite Hcur. cbn [bind].
  rewrite Hl. cbn [num bind]. rewrite Ha. cbn [num bind]. eauto.
Qed.

Lemma new_timestamp_group_ok (self : t) (g : TimestampGroup) (timestamp arrival : Z) :
  current_group self = Some g -> group_complete g ->
  exists b, new_timestamp_group self timestamp arrival = Ok b.
Proof.
  intros Hcur Hg. unfold new_timestamp_group.
  destruct (belongs_to_burst_ok self g timestamp arrival Hcur Hg) as [b ->].
  cbn [bind]. destruct b; [eauto|].
  destruct (complete_fields g Hg) as (a & f & l & Ha & Hf & Hl).
  unfold current. rewrite Hcur. cbn [bind]. rewrite Hf. cbn [num bind]. eauto.
Qed.

Lemma account_complete (self : t) (g : TimestampGroup) (arrival packet_size : Z)
    (deltas : option InterArrivalDelta) :
  current_group self = Some g ->
  first_timestamp g <> None -> last_timestamp g <> None ->
  (forall p, previous_group self = Some p -> group_complete p) ->
  exists self', account self arrival packet_size deltas = Ok (self', deltas) /\
                groups_complete self'.
Proof.
  intros Hcur Hf Hl Hprev. unfold account, current. rewrite Hcur. cbn [bind].
  eexists. split; [reflexivity|]. split; cbn.
  - intros g' [= <-]. repeat split; cbn; congruence.
  - exact Hprev.
Qed.

(** Runs the closing [account] of a call whose current group is known. *)
Ltac account_step :=
  match goal with
  | |- context [account ?s ?a ?p ?d] =>
      let H := fresh "Hacc" in
      assert (H : exists s', account s a p d = Ok (s', d) /\ groups_complete s');
      [ eapply account_complete;
        [ first [ eassumption | reflexivity ]
        | cbn; congruence
        | cbn; congruence
        | ]
      | destruct H as (? & -> & ?); eauto ]
  end.

(** A call on a filter whose groups are complete succeeds and leaves the
    groups complete. *)
Lemma compute_deltas_complete (self : t) (timestamp arrival packet_size : Z) :
  groups_complete self ->
  exists self' deltas,
    compute_deltas self timestamp arrival packet_size = Ok (self', deltas) /\
    groups_complete self'.
Proof.
  intros [Hc Hp]. unfold compute_deltas.
  destruct (current_group self) as [cur|] eqn:Hcur.
  - specialize (Hc cur eq_refl).
    destruct (complete_fields cur Hc) as (a & f & l & Ha & Hf & Hl).
    unfold packet_out_of_order, current. rewrite Hcur. cbn [bind].
    rewrite Hf. cbn [num bind].
    destruct (2 ^ 31 <=? uint32_add timestamp (- f)).
    { exists self, None. split; [reflexivity|]. split; [|exact Hp].
      intros g Hg. rewrite Hcur in Hg. now injection Hg as <-. }
    destruct (new_timestamp_group_ok self cur timestamp arrival Hcur Hc) as [b ->].
    cbn [bind]. destruct b.
    + assert (Hd : exists d, match previous_group self with
                             | Some prev => d <- make_delta cur prev ;; Ok (Some d)
                             | None => Ok None
                             end = Ok d).
      { destruct (previous_group self) as [prev|] eqn:Hprev; [|eauto].
        destruct (complete_fields prev (Hp prev eq_refl))
          as (a' & f' & l' & Ha' & Hf' & Hl').
        unfold make_delta. rewrite Hl, Hl', Ha, Ha'. cbn [num bind]. eauto. }
      destruct Hd as [d ->]. cbn [bind].
      account_step. cbn. intros p [= <-]. exact Hc.
    + rewrite Hl. cbn [num bind]. destruct (uint32_gt timestamp l).
      * account_step. exact Hp.
      * account_step. exact Hp.
  - account_step. exact Hp.
Qed.

Lemma init_complete (gl : Z) (k : Q) : groups_complete (init gl k).
Proof. split; intros g Hg; discriminate Hg. Qed.

Lemma feed_complete (packets : list Packet) :
  forall self, groups_complete self ->
  exists self' ds, feed self packets = Ok (self', ds) /\ groups_complete self'.
Proof.
  induction packets as [|p rest IH]; intros self Hinv.
  - exists self, []. now split.
  - destruct (compute_deltas_complete self (p_timestamp p) (p_arrival p)
                (p_size p) Hinv) as (s1 & d & Hstep & Hinv1).
    destruct (IH s1 Hinv1) as (s2 & ds & Hrest & Hinv2).
    cbn [feed]. rewrite Hstep. cbn [bind fst snd]. rewrite Hrest.
    cbn [bind fst snd]. eauto.
Qed.

(** C9: after any sequence of calls of [compute_deltas] on a new filter, a
    current group, when there is one, has [arrival_time], [first_timestamp]
    and [last_timestamp] set, so [belongs_to_burst], [new_timestamp_group]
    and the next [compute_deltas] read no [None] and raise nothing. *)
Theorem current_group_reads_are_set (gl : Z) (k : Q) (packets : list Packet) :
  exists self ds,
    feed (init gl k) packets = Ok (self, ds) /\
    (forall g, current_group self = Some g ->
       (exists a f l, arrival_time g = Some a /\ first_timestamp g = Some f /\
                      last_timestamp g = Some l) /\
       (forall timestamp arrival,
          (exists b, belongs_to_burst self timestamp arrival = Ok b) /\
          (exists b, new_timestamp_group self timestamp arrival = Ok b))) /\
    (forall timestamp arrival packet_size,
       exists r, compute_deltas self timestamp arrival packet_size = Ok r).
Proof.
  destruct (feed_complete packets (init gl k) (init_complete gl k))
    as (self & ds & Hfeed & Hinv).
  exists self, ds. split; [exact Hfeed|]. split.
  - intros g Hg. pose proof (proj1 Hinv g Hg) as Hc. split.
    + now apply complete_fields.
    + intros ts a. split.
      * now apply belongs_to_burst_ok with g.
      * now apply new_timestamp_group_ok with g.
  - intros ts a sz.
    destruct (compute_deltas_complete self ts a sz Hinv) as (s' & d & -> & _).
    eauto.
Qed.

(** The value of [belongs_to_burst] when the attributes it reads are set. *)
Lemma belongs_to_burst_value (self : t) (g : TimestampGroup)
    (last cur_arrival timestamp arrival : Z) :
  current_group self = Some g ->
  last_timestamp g = Some last ->
  arrival_time g = Some cur_arrival ->
  belongs_to_burst self timestamp arrival =
  let timestamp_delta_ms :=
    py_round (timestamp_to_ms self * inject_Z ((timestamp - last) mod 2 ^ 32)) in
  let arrival_time_delta := arrival - cur_arrival in
  Ok ((timestamp_delta_ms =? 0)
      || ((arrival_time_delta - timestamp_delta_ms <? 0)
          && (arrival_time_delta <=? BURST_DELTA_THRESHOLD_MS))).
Proof.
  intros Hcur Hlast Harr.
  unfold belongs_to_burst, current. rewrite Hcur. cbn [bind].
  rewrite Hlast. cbn [num bind]. rewrite Harr. cbn [num bind].
  rewrite uint32_add_opp. reflexivity.
Qed.

(** C3: a packet whose timestamp is 2^31 or more behind the first timestamp
    of the current group, modulo 2^32, is dropped: [compute_deltas] returns
    no delta and the filter it leaves is the filter it found.  A timestamp
    of [first_timestamp + 2^31] is such a packet. *)
Theorem out_of_order_packet_ignored (self : t) (g : TimestampGroup) (first : Z) :
  current_group self = Some g ->
  first_timestamp g = Some first ->
  (forall timestamp arrival packet_size,
     2 ^ 31 <= (timestamp - first) mod 2 ^ 32 ->
     packet_out_of_order self timestamp = Ok true /\
     compute_deltas self timestamp arrival packet_size = Ok (self, None)) /\
  (forall arrival packet_size,
     compute_deltas self (first + 2 ^ 31) arrival packet_size = Ok (self, None) /\
     compute_deltas self ((first + 2 ^ 31) mod 2 ^ 32) arrival packet_size
     = Ok (self, None)).
Proof.
  intros Hcur Hfirst.
  assert (Hgen : forall timestamp arrival packet_size,
             2 ^ 31 <= (timestamp - first) mod 2 ^ 32 ->
             packet_out_of_order self timestamp = Ok true /\
             compute_deltas self timestamp arrival packet_size = Ok (self, None)).
  { intros ts a sz Hlate.
    assert (Hooo : packet_out_of_order self ts = Ok true).
    { unfold packet_out_of_order, current. rewrite Hcur. cbn [bind].
      rewrite Hfirst. cbn [num bind]. rewrite uint32_add_opp.
      f_equal. now apply Z.leb_le. }
    split; [exact Hooo|].
    unfold compute_deltas. rewrite Hcur, Hooo. reflexivity. }
  split; [exact Hgen|].
  intros a sz. split; apply Hgen.
  - replace (first + 2 ^ 31 - first) with (2 ^ 31) by lia.
    rewrite Z.mod_small; lia.
  - rewrite Zminus_mod_idemp_l.
    replace (first + 2 ^ 31 - first) with (2 ^ 31) by lia.
    rewrite Z.mod_small; lia.
Qed.

Lemma out_of_order_packet_ignored_witness :
  compute_deltas after_first_packet (2 ^ 31) 7 100 = Ok (after_first_packet, None).
Proof.
  apply (proj2 (out_of_order_packet_ignored after_first_packet
                  {| arrival_time := Some 0; first_timestamp := Some 0;
                     last_timestamp := Some 0; size := 1 |} 0
                  eq_refl eq_refl) 7 100).
Defined.

(** The wording of C1 against the code: 10 ms after the current group in
    send time and 2 ms after it in arrival time, the packet is neither the
    first one nor out of order, [belongs_to_burst] answers [True], and the
    worded condition, which wants the timestamp delta below the arrival
    delta, is false. *)
Lemma burst_wording_counterexample :
  feed abs_send_time_filter [mkPacket 0 0 1] = Ok (after_first_packet, []) /\
  packet_out_of_order after_first_packet 671089 = Ok false /\
  belongs_to_burst after_first_packet 671089 2 = Ok true /\
  burst_as_worded TIMESTAMP_TO_MS 0 0 671089 2 = false.
Proof. repeat split; vm_compute; reflexivity. Qed.

(** C1, amended: with a current group whose last timestamp and arrival time
    are set, [belongs_to_burst] answers [True] exactly when the timestamp
    delta rounds to 0 ms, or the arrival delta is strictly less than the
    timestamp delta in ms and at most 5 ms. *)
Theorem belongs_to_burst_iff (self : t) (g : TimestampGroup)
    (last cur_arrival timestamp arrival : Z) :
  current_group self = Some g ->
  last_timestamp g = Some last ->
  arrival_time g = Some cur_arrival ->
  let timestamp_delta_ms :=
    py_round (timestamp_to_ms self * inject_Z ((timestamp - last) mod 2 ^ 32)) in
  let arrival_time_delta := arrival - cur_arrival in
  exists b,
    belongs_to_burst self timestamp arrival = Ok b /\
    (b = true <->
     timestamp_delta_ms = 0 \/
     (arrival_time_delta < timestamp_delta_ms /\
      arrival_time_delta <= BURST_DELTA_THRESHOLD_MS)).
Proof.
  intros Hcur Hlast Harr ms delta.
  rewrite (belongs_to_burst_value self g last cur_arrival) by assumption.
  cbv zeta. fold ms. fold delta.
  eexists. split; [reflexivity|].
  rewrite orb_true_iff, andb_true_iff, Z.eqb_eq, Z.ltb_lt, Z.leb_le.
  intuition lia.
Qed.

Lemma belongs_to_burst_iff_witness :
  exists b,
    belongs_to_burst after_first_packet 671089 2 = Ok b /\
    (b = true <->
     py_round (TIMESTAMP_TO_MS * inject_Z ((671089 - 0) mod 2 ^ 32)) = 0 \/
     (2 - 0 < py_round (TIMESTAMP_TO_MS * inject_Z ((671089 - 0) mod 2 ^ 32)) /\
      2 - 0 <= BURST_DELTA_THRESHOLD_MS)).
Proof.
  exact (belongs_to_burst_iff after_first_packet
           {| arrival_time := Some 0; first_timestamp := Some 0;
              last_timestamp := Some 0; size := 1 |} 0 0 671089 2
           eq_refl eq_refl eq_refl).
Defined.

(** A packet that is in order, is no burst and lies more than a group
    length after the first timestamp closes the current group. *)
Lemma compute_deltas_new_group (self : t) (cur : TimestampGroup)
    (first last cur_arrival timestamp arrival packet_size : Z) :
  current_group self = Some cur ->
  first_timestamp cur = Some first ->
  last_timestamp cur = Some last ->
  arrival_time cur = Some cur_arrival ->
  group_length self < (timestamp - first) mod 2 ^ 32 < 2 ^ 31 ->
  py_round (timestamp_to_ms self * inject_Z ((timestamp - last) mod 2 ^ 32)) <> 0 ->
  py_round (timestamp_to_ms self * inject_Z ((timestamp - last) mod 2 ^ 32))
  <= arrival - cur_arrival ->
  compute_deltas self timestamp arrival packet_size =
  let self' :=
    set_groups self
      (Some {| arrival_time := Some arrival;
               first_timestamp := Some timestamp;
               last_timestamp := Some timestamp;
               size := 0 + packet_size |})
      (Some cur) in
  match previous_group self with
  | Some prev => d <- make_delta cur prev ;; Ok (self', Some d)
  | None => Ok (self', None)
  end.
Proof.
  intros Hcur Hfirst Hlast Harr [Hlen Horder] Hms Hcaught.
  assert (Hburst : belongs_to_burst self timestamp arrival = Ok false).
  { rewrite (belongs_to_burst_value self cur last cur_arrival) by assumption.
    cbv zeta. f_equal.
    apply orb_false_iff. split; [now apply Z.eqb_neq|].
    apply andb_false_iff. left. apply Z.ltb_ge. lia. }
  unfold compute_deltas. rewrite Hcur.
  unfold packet_out_of_order, new_timestamp_group, current.
  rewrite Hcur, Hburst. cbn [bind]. rewrite Hfirst. cbn [num bind].
  rewrite uint32_add_opp.
  replace (2 ^ 31 <=? (timestamp - first) mod 2 ^ 32) with false
    by (symmetry; apply Z.leb_gt; lia).
  replace (group_length self <? (timestamp - first) mod 2 ^ 32) with true
    by (symmetry; apply Z.ltb_lt; lia).
  cbn [bind]. destruct (previous_group self) as [prev|].
  - cbn [bind]. destruct (make_delta cur prev); reflexivity.
  - reflexivity.
Qed.

(** Without a previous group no call returns a delta. *)
Lemma compute_deltas_no_previous (self : t) (timestamp arrival packet_size : Z) :
  groups_complete self -> previous_group self = None ->
  exists self',
    compute_deltas self timestamp arrival packet_size = Ok (self', None) /\
    groups_complete self'.
Proof.
  intros Hinv Hprev.
  destruct (compute_deltas_complete self timestamp arrival packet_size Hinv)
    as (self' & deltas & Hcall & Hinv').
  exists self'. split; [|exact Hinv'].
  rewrite Hcall. do 2 f_equal.
  revert Hcall. unfold compute_deltas. rewrite Hprev.
  destruct (current_group self) as [cur|] eqn:Hcur.
  - destruct (packet_out_of_order self timestamp) as [[]| |];
      cbn [bind]; try congruence.
    destruct (new_timestamp_group self timestamp arrival) as [[]| |];
      cbn [bind]; try congruence.
    + unfold account, current. cbn. congruence.
    + destruct (num (last_timestamp cur)) as [last| |];
        cbn [bind]; try congruence.
      destruct (uint32_gt timestamp last); unfold account, current;
        cbn [current_group set_groups]; try rewrite Hcur; cbn [bind];
        congruence.
  - unfold account, current. cbn. congruence.
Qed.

(** On the filter of [RemoteBitrateEstimator] a timestamp delta of more
    than a group length is at least 5 ms after rounding, so it never rounds
    to 0 ms. *)
Lemma abs_send_time_delta_ms (d : Z) :
  group_length abs_send_time_filter < d ->
  5 <= py_round (TIMESTAMP_TO_MS * inject_Z d).
Proof.
  intros Hd. change (group_length abs_send_time_filter) with 335544 in Hd.
  change TIMESTAMP_TO_MS with (1000 # 67108864)%Q.
  unfold py_round, Qmult. cbn [Qnum Qden inject_Z].
  change (Z.pos (67108864 * 1)) with 67108864.
  assert (Hfl : 5 <= 1000 * d / 67108864)
    by (apply Z.div_le_lower_bound; lia).
  repeat match goal with
         | |- context [if ?b then _ else _] => destruct b
         end; lia.
Qed.

(** The wording of C2 against the code: three packets sent at 0, 3 and 6 ms
    that arrive when they were sent span 6 ms, and the three calls return no
    delta, on a filter that counts in milliseconds and on the filter of
    [RemoteBitrateEstimator] alike. *)
Lemma three_packets_spanning_6ms_counterexample :
  emitted millisecond_filter
    [mkPacket 0 0 1; mkPacket 3 3 1; mkPacket 6 6 1] = Ok [] /\
  emitted abs_send_time_filter
    [mkPacket 0 0 1; mkPacket 201327 3 1; mkPacket 402654 6 1] = Ok [].
Proof. split; vm_compute; reflexivity. Qed.

(** C2, amended: on a new filter one packet returns no delta; two packets
    return no delta (whether or not they share a group); three packets of
    which each is sent more than a group length after the one before, with
    arrival deltas equal to the timestamp deltas in ms (not 0), return
    exactly one delta, the difference of the first two groups. *)
Theorem deltas_of_first_packets (gl : Z) (k : Q) :
  (forall p1, emitted (init gl k) [p1] = Ok []) /\
  (forall p1 p2, emitted (init gl k) [p1; p2] = Ok []) /\
  (forall p1 p2 p3,
     let d1 := (p_timestamp p2 - p_timestamp p1) mod 2 ^ 32 in
     let d2 := (p_timestamp p3 - p_timestamp p2) mod 2 ^ 32 in
     gl < d1 < 2 ^ 31 ->
     gl < d2 < 2 ^ 31 ->
     py_round (k * inject_Z d1) <> 0 ->
     py_round (k * inject_Z d2) <> 0 ->
     p_arrival p2 - p_arrival p1 = py_round (k * inject_Z d1) ->
     p_arrival p3 - p_arrival p2 = py_round (k * inject_Z d2) ->
     emitted (init gl k) [p1; p2; p3] =
     Ok [ {| delta_timestamp := d1;
             delta_arrival_time := p_arrival p2 - p_arrival p1;
             delta_size := p_size p2 - p_size p1 |} ]).
Proof.
  split; [|split].
  - intros p1. reflexivity.
  - intros p1 p2. unfold emitted. cbn [feed].
    rewrite compute_deltas_first by reflexivity. cbn [bind fst snd].
    match goal with
    | |- context [compute_deltas ?s ?ts ?a ?sz] =>
        destruct (compute_deltas_no_previous s ts a sz) as (s' & -> & _)
    end.
    + split; cbn; intros g [= <-]. repeat split; cbn; congruence.
    + reflexivity.
    + reflexivity.
  - intros p1 p2 p3 d1 d2 Hd1 Hd2 Hms1 Hms2 Ha1 Ha2.
    unfold emitted. cbn [feed].
    rewrite compute_deltas_first by reflexivity. cbn [bind fst snd].
    erewrite compute_deltas_new_group;
      [ | reflexivity | reflexivity | reflexivity | reflexivity
        | exact Hd1 | exact Hms1 | fold d1; cbn [timestamp_to_ms set_groups init]; lia ].
    cbn [previous_group set_groups init bind fst snd].
    erewrite compute_deltas_new_group;
      [ | reflexivity | reflexivity | reflexivity | reflexivity
        | exact Hd2 | exact Hms2 | fold d2; cbn [timestamp_to_ms set_groups init]; lia ].
    cbn. rewrite uint32_add_opp. fold d1. reflexivity.
Qed.

Lemma deltas_of_first_packets_witness :
  emitted abs_send_time_filter
    [mkPacket 0 0 1200; mkPacket 402654 6 1000; mkPacket 805308 12 1100]
  = Ok [ {| delta_timestamp := 402654; delta_arrival_time := 6;
            delta_size := -200 |} ].
Proof.
  apply (proj2 (proj2 (deltas_of_first_packets 335544 TIMESTAMP_TO_MS))
           (mkPacket 0 0 1200) (mkPacket 402654 6 1000) (mkPacket 805308 12 1100));
    vm_compute; try reflexivity; try (split; reflexivity); discriminate.
Defined.

Lemma current_group_reads_are_set_witness :
  exists self ds,
    feed abs_send_time_filter [mkPacket 0 0 1; mkPacket 402654 6 1] = Ok (self, ds) /\
    (forall g, current_group self = Some g ->
       (exists a f l, arrival_time g = Some a /\ first_timestamp g = Some f /\
                      last_timestamp g = Some l) /\
       (forall timestamp arrival,
          (exists b, belongs_to_burst self timestamp arrival = Ok b) /\
          (exists b, new_timestamp_group self timestamp arrival = Ok b))) /\
    (forall timestamp arrival packet_size,
       exists r, compute_deltas self timestamp arrival packet_size = Ok r).
Proof.
  exact (current_group_reads_are_set 335544 TIMESTAMP_TO_MS
           [mkPacket 0 0 1; mkPacket 402654 6 1]).
Defined.

End InterArrivalFacts.

(** ** OveruseDetector *)

Section OveruseDetectorFacts.

Import OveruseDetector.
Local Open Scope R_scope.

Lemma Rltb_true (x y : R) : x < y -> Rltb x y = true.
Proof. intros H. unfold Rltb. destruct (Rlt_dec x y); [reflexivity | contradiction]. Qed.

Lemma Rltb_false (x y : R) : y <= x -> Rltb x y = false.
Proof. intros H. unfold Rltb. destruct (Rlt_dec x y); [lra | reflexivity]. Qed.

(** The clamp [max(6, min(x, 600))]. *)
Lemma clamp_bounds (x : R) : 6 <= Rmax 6 (Rmin x 600) <= 600.
Proof.
  split.
  - apply Rmax_l.
  - apply Rmax_lub; [lra | apply Rmin_r].
Qed.

Lemma clamp_inside (x : R) : 6 <= x <= 600 -> Rmax 6 (Rmin x 600) = x.
Proof.
  intros [Hlo Hhi]. rewrite Rmin_left by exact Hhi. now apply Rmax_right.
Qed.

Lemma init_bounded : threshold_bounded init.
Proof. unfold threshold_bounded, init; cbn. lra. Qed.

Lemma update_threshold_bounded (self : t) (modified_offset now_ms : R) :
  threshold_bounded self ->
  threshold_bounded (update_threshold self modified_offset now_ms).
Proof.
  intros Hb. unfold update_threshold, threshold_bounded.
  destruct (Rltb _ (Rabs modified_offset)); cbn [threshold set_threshold].
  - exact Hb.
  - apply clamp_bounds.
Qed.

Lemma detect_bounded (self : t) (offset timestamp_delta_ms : R)
    (num_of_deltas : Z) (now_ms : R) :
  threshold_bounded self ->
  threshold_bounded (fst (detect self offset timestamp_delta_ms num_of_deltas now_ms)).
Proof.
  intros Hb. unfold detect.
  destruct (num_of_deltas <? 2)%Z; cbn [fst]; [exact Hb|].
  apply update_threshold_bounded. unfold threshold_bounded.
  cbn [threshold set_previous_offset].
  repeat match goal with
         | |- context [if ?b then _ else _] => destruct b
         end; exact Hb.
Qed.

Lemma run_bounded (calls : list Call) :
  forall self, threshold_bounded self -> threshold_bounded (run self calls).
Proof.
  induction calls as [|c rest IH]; intros self Hb; [exact Hb|].
  cbn [run fold_left]. apply IH. destruct c; cbn [step].
  - now apply detect_bounded.
  - now apply update_threshold_bounded.
Qed.

(** C6: whatever calls a new detector has seen, after a further call of
    [detect], with any arguments, its threshold lies in [6, 600]. *)
Theorem detect_threshold_in_range (calls : list Call)
    (offset timestamp_delta_ms : R) (num_of_deltas : Z) (now_ms : R) :
  6 <= threshold (fst (detect (run init calls) offset timestamp_delta_ms
                         num_of_deltas now_ms)) <= 600.
Proof.
  apply detect_bounded, run_bounded, init_bounded.
Qed.

(** C5: [update_threshold] keeps the threshold, sets [last_update_ms] to
    [now_ms] and changes no other field, on the first call of a detector
    and on any call with [|modified_offset| > threshold + 15].  The first
    call is a call on any detector whose [last_update_ms] is unset and whose
    threshold lies in [[6, 600]], whatever its other fields hold; the first
    [detect] of a new detector that has two deltas makes such a call, and
    returns with the threshold of [__init__] and [last_update_ms = now_ms]. *)
Theorem update_threshold_keeps_threshold :
  (forall self modified_offset now_ms,
     last_update_ms self = None ->
     threshold_bounded self ->
     update_threshold self modified_offset now_ms =
     set_threshold self (Some now_ms) (threshold self)) /\
  (forall self modified_offset now_ms,
     threshold self + 15 < Rabs modified_offset ->
     update_threshold self modified_offset now_ms =
     set_threshold self (Some now_ms) (threshold self)) /\
  (forall offset timestamp_delta_ms num_of_deltas now_ms,
     (2 <= num_of_deltas)%Z ->
     threshold (fst (detect init offset timestamp_delta_ms num_of_deltas now_ms)) =
     threshold init /\
     last_update_ms (fst (detect init offset timestamp_delta_ms num_of_deltas now_ms)) =
     Some now_ms).
Proof.
  assert (Hfirst : forall self mo now,
             last_update_ms self = None ->
             threshold_bounded self ->
             update_threshold self mo now =
             set_threshold self (Some now) (threshold self)).
  { intros self mo now Hlast Hb.
    unfold update_threshold. rewrite Hlast.
    destruct (Rltb _ (Rabs mo)); [reflexivity|].
    f_equal.
    replace (now - now) with 0 by lra.
    rewrite (Rmin_left 0 100) by lra.
    rewrite Rmult_0_r, Rplus_0_r.
    now apply clamp_inside. }
  split; [exact Hfirst|]. split.
  - intros self mo now Hfar. unfold update_threshold.
    rewrite Rltb_true; [reflexivity|]. unfold MAX_ADAPT_OFFSET_MS. exact Hfar.
  - intros offset ts n now Hn. unfold detect.
    destruct (n <? 2)%Z eqn:En; [apply Z.ltb_lt in En; lia|].
    cbv zeta.
    match goal with
    | |- context [update_threshold ?s ?mo now] =>
        set (self2 := s); set (T := mo)
    end.
    assert (H2 : last_update_ms self2 = None /\ threshold self2 = threshold init).
    { subst self2.
      destruct (Rltb (threshold init) _);
        [destruct (_ && _ && _) | destruct (Rltb _ (- threshold init))];
        split; reflexivity. }
    destruct H2 as [Hlast Hth].
    rewrite (Hfirst self2 T now Hlast).
    + cbn [fst set_threshold threshold last_update_ms]. split; [exact Hth | reflexivity].
    + unfold threshold_bounded. rewrite Hth. exact init_bounded.
Qed.

Lemma update_threshold_keeps_threshold_witness :
  update_threshold before_first_update 60 40 =
  set_threshold before_first_update (Some 40) (threshold before_first_update) /\
  update_threshold init 100 40 = set_threshold init (Some 40) (threshold init) /\
  threshold (fst (detect init 20 10 2 40)) = threshold init /\
  last_update_ms (fst (detect init 20 10 2 40)) = Some 40.
Proof.
  destruct update_threshold_keeps_threshold as (Hfirst & Hfar & Hdetect).
  split; [|split].
  - apply Hfirst; [reflexivity|].
    unfold threshold_bounded. cbn [threshold before_first_update]. lra.
  - apply Hfar. cbn [threshold init]. rewrite Rabs_right; lra.
  - apply Hdetect. lia.
Defined.

End OveruseDetectorFacts.

(** ** OveruseEstimator *)

Section OveruseEstimatorFacts.

Import OveruseEstimator.
Local Open Scope R_scope.

(** A symmetric 2x2 matrix with non-negative diagonal and determinant has a
    non-negative quadratic form. *)
Lemma quadratic_form_nonneg (a b c x y : R) :
  0 <= a -> 0 <= c -> b * b <= a * c ->
  0 <= a * (x * x) + 2 * b * (x * y) + c * (y * y).
Proof.
  intros Ha Hc Hdet.
  destruct (Req_dec a 0) as [-> | Hne].
  - assert (Hb : b = 0).
    { pose proof (Rle_0_sqr b) as Hsq. unfold Rsqr in Hsq.
      apply Rsqr_0_uniq. unfold Rsqr. lra. }
    subst b. pose proof (Rle_0_sqr y) as Hy. unfold Rsqr in Hy.
    assert (0 <= c * (y * y)) by (apply Rmult_le_pos; lra).
    lra.
  - assert (Hpos : 0 < a) by lra.
    assert (Hsq : 0 <= a * (a * (x * x) + 2 * b * (x * y) + c * (y * y))).
    { replace (a * (a * (x * x) + 2 * b * (x * y) + c * (y * y)))
        with ((a * x + b * y) * (a * x + b * y) + (a * c - b * b) * (y * y))
        by ring.
      pose proof (Rle_0_sqr (a * x + b * y)) as H1.
      pose proof (Rle_0_sqr y) as H2. unfold Rsqr in H1, H2.
      assert (0 <= (a * c - b * b) * (y * y))
        by (apply Rmult_le_pos; lra).
      lra. }
    apply (Rmult_le_reg_l a); [exact Hpos|]. lra.
Qed.

Lemma minors_positive_semidefinite (m : Mat2) :
  m01 m = m10 m -> 0 <= m00 m -> 0 <= m11 m -> m01 m * m10 m <= m00 m * m11 m ->
  positive_semidefinite m.
Proof.
  intros Hsym H00 H11 Hdet x y. rewrite <- Hsym in *.
  pose proof (quadratic_form_nonneg (m00 m) (m01 m) (m11 m) x y H00 H11 Hdet).
  lra.
Qed.

Lemma init_invariant : invariant init.
Proof. unfold invariant, init; cbn. repeat split; lra. Qed.

Lemma update_noise_estimate_var (self : t) (residual ts_delta : R) :
  1 <= var_noise (update_noise_estimate self residual ts_delta).
Proof.
  unfold update_noise_estimate. cbn [var_noise set_noise].
  unfold Rltb. destruct (Rlt_dec _ 1); lra.
Qed.

Lemma update_noise_estimate_invariant (self : t) (residual ts_delta : R) :
  invariant self -> invariant (update_noise_estimate self residual ts_delta).
Proof.
  intros (Hsym & H00 & H11 & Hdet & _ & Hp0 & Hp1).
  pose proof (update_noise_estimate_var self residual ts_delta) as Hvar.
  unfold invariant. repeat split; try assumption.
Qed.

Lemma update_min_frame_period_invariant (self : t) (ts_delta : R) :
  invariant self -> invariant (fst (update_min_frame_period self ts_delta)).
Proof. intros H. exact H. Qed.

Lemma inflate_invariant (self : t) (hyp : BandwidthUsage) :
  invariant self -> invariant (inflate self hyp).
Proof.
  intros (Hsym & H00 & H11 & Hdet & Hvar & Hp0 & Hp1).
  unfold invariant, inflate.
  cbn [E m00 m01 m10 m11 var_noise process_noise].
  set (e11 := match hyp with NORMAL => _ | UNDERUSING => _ | OVERUSING => _ end).
  assert (He11 : m11 (E self) <= e11).
  { subst e11. destruct hyp; [lra | |];
      match goal with |- context [if ?b then _ else _] => destruct b end; lra. }
  repeat split; try assumption; try lra.
  apply Rle_trans with (m00 (E self) * m11 (E self)); [exact Hdet|].
  apply Rmult_le_compat; lra.
Qed.

Lemma clamp_noise_ok (self : t) (hyp : BandwidthUsage) (residual mfp : R) :
  invariant self ->
  exists self',
    clamp_noise self hyp residual mfp = Ok self' /\
    invariant self' /\ E self' = E self.
Proof.
  intros Hinv. pose proof Hinv as (_ & _ & _ & _ & Hvar & _).
  unfold clamp_noise. destruct hyp; [|eauto|eauto].
  unfold py_sqrt. destruct (Rlt_dec (var_noise self) 0) as [Hneg|_]; [lra|].
  cbn [bind].
  match goal with |- context [if ?b then _ else _] => destruct b end;
    eexists; (split; [reflexivity|]);
    (split; [now apply update_noise_estimate_invariant | reflexivity]).
Qed.

(** [update] reaches the Kalman gain without raising, with [h = [size_delta, 1]],
    [Eh = E h] and a filter that satisfies the invariant. *)
Lemma innovation_ok (self : t) (time_delta_ms timestamp_delta_ms size_delta : R)
    (hyp : BandwidthUsage) :
  invariant self ->
  exists i,
    innovation self time_delta_ms timestamp_delta_ms size_delta hyp = Ok i /\
    invariant (filter i) /\
    h0 i = size_delta /\ h1 i = 1 /\
    Eh0 i = m00 (E (filter i)) * size_delta + m01 (E (filter i)) * 1 /\
    Eh1 i = m10 (E (filter i)) * size_delta + m11 (E (filter i)) * 1.
Proof.
  intros Hinv. unfold innovation.
  pose proof (update_min_frame_period_invariant self timestamp_delta_ms Hinv) as H1.
  destruct (update_min_frame_period self timestamp_delta_ms) as [s1 mfp].
  cbn [fst] in H1.
  pose proof (inflate_invariant s1 hyp H1) as H2.
  destruct (clamp_noise_ok (inflate s1 hyp) hyp
              (time_delta_ms - timestamp_delta_ms
               - slope (inflate s1 hyp) * size_delta - offset (inflate s1 hyp))
              mfp H2) as (s3 & -> & H3 & HE).
  cbn [bind]. eexists. split; [reflexivity|].
  cbn [filter h0 h1 Eh0 Eh1]. rewrite HE.
  split; [exact H3|]. repeat split.
Qed.

(** The algebra of the gain and of [E <- (I - K h^T) E] for a symmetric
    covariance [[a, b], [b, c]], noise variance [v] and [h = [f, 1]]. *)
Lemma kalman_step_algebra (a b c v f : R) :
  0 <= a -> 0 <= c -> b * b <= a * c -> 1 <= v ->
  let u := a * f + b * 1 in
  let w := b * f + c * 1 in
  let d := v + f * u + 1 * w in
  let K0 := u / d in
  let K1 := w / d in
  let n00 := a * (1 - K0 * f) + b * (- K0 * 1) in
  let n01 := b * (1 - K0 * f) + c * (- K0 * 1) in
  let n10 := a * (- K1 * f) + b * (1 - K1 * 1) in
  let n11 := b * (- K1 * f) + c * (1 - K1 * 1) in
  1 <= d /\ n01 = n10 /\ 0 <= n00 /\ 0 <= n11 /\ n01 * n10 <= n00 * n11.
Proof.
  intros Ha Hc Hdet Hv. cbv zeta.
  set (d := v + f * (a * f + b * 1) + 1 * (b * f + c * 1)).
  assert (Hd : 1 <= d).
  { pose proof (quadratic_form_nonneg a b c f 1 Ha Hc Hdet) as Hq.
    unfold d. lra. }
  assert (Hd0 : d <> 0) by lra.
  assert (Hinv : 0 < / d) by (apply Rinv_0_lt_compat; lra).
  assert (Hminor : 0 <= a * c - b * b) by lra.
  assert (Hv' : v = d - f * (a * f + b) - (b * f + c)) by (unfold d; ring).
  assert (Hva : 0 <= v * a) by (apply Rmult_le_pos; lra).
  assert (Hvc : 0 <= v * c) by (apply Rmult_le_pos; lra).
  assert (Hvm : 0 <= (a * c - b * b) * v) by (apply Rmult_le_pos; lra).
  pose proof (Rle_0_sqr f) as Hff. unfold Rsqr in Hff.
  assert (Hfm : 0 <= f * f * (a * c - b * b)) by (apply Rmult_le_pos; lra).
  clearbody d.
  set (K0 := (a * f + b * 1) / d). set (K1 := (b * f + c * 1) / d).
  set (n00 := a * (1 - K0 * f) + b * (- K0 * 1)).
  set (n01 := b * (1 - K0 * f) + c * (- K0 * 1)).
  set (n10 := a * (- K1 * f) + b * (1 - K1 * 1)).
  set (n11 := b * (- K1 * f) + c * (1 - K1 * 1)).
  assert (H00 : n00 = (v * a + (a * c - b * b)) * / d).
  { unfold n00, K0. rewrite Hv'. field. exact Hd0. }
  assert (H11 : n11 = (v * c + f * f * (a * c - b * b)) * / d).
  { unfold n11, K1. rewrite Hv'. field. exact Hd0. }
  assert (H01 : n01 = n10).
  { unfold n01, n10, K0, K1. field. exact Hd0. }
  assert (Hdet' : n00 * n11 - n01 * n10 = (a * c - b * b) * v * / d).
  { rewrite <- H01. unfold n00, n11, n01, K0, K1. rewrite Hv'. field. exact Hd0. }
  repeat split.
  - exact Hd.
  - exact H01.
  - rewrite H00. apply Rmult_le_pos; lra.
  - rewrite H11. apply Rmult_le_pos; lra.
  - assert (0 <= (a * c - b * b) * v * / d) by (apply Rmult_le_pos; lra).
    lra.
Qed.

(** The denominator of the gain of a filter that satisfies the invariant. *)
Lemma denom_lower_bound (i : Innovation) (size_delta : R) :
  invariant (filter i) ->
  h0 i = size_delta -> h1 i = 1 ->
  Eh0 i = m00 (E (filter i)) * size_delta + m01 (E (filter i)) * 1 ->
  Eh1 i = m10 (E (filter i)) * size_delta + m11 (E (filter i)) * 1 ->
  1 <= denom i.
Proof.
  intros (Hsym & H00 & H11 & Hdet & Hvar & _) Hh0 Hh1 HEh0 HEh1.
  unfold denom. rewrite Hh0, Hh1, HEh0, HEh1, <- Hsym.
  rewrite <- Hsym in Hdet.
  exact (proj1 (kalman_step_algebra _ _ _ _ size_delta H00 H11 Hdet Hvar)).
Qed.

(** One call of [update] on a filter that satisfies the invariant returns,
    and the filter it returns satisfies the invariant. *)
Lemma update_invariant (self : t) (time_delta_ms timestamp_delta_ms size_delta : R)
    (hyp : BandwidthUsage) (now_ms : R) :
  invariant self ->
  exists self',
    update self time_delta_ms timestamp_delta_ms size_delta hyp now_ms = Ok self' /\
    invariant self'.
Proof.
  intros Hinv.
  destruct (innovation_ok self time_delta_ms timestamp_delta_ms size_delta hyp Hinv)
    as (i & Hi & Hfi & Hh0 & Hh1 & HEh0 & HEh1).
  pose proof (denom_lower_bound i size_delta Hfi Hh0 Hh1 HEh0 HEh1) as Hden.
  unfold update. rewrite Hi. cbn [bind]. unfold py_div.
  destruct (Req_dec_T (denom i) 0) as [Hz|_]; [lra|]. cbn [bind].
  eexists. split; [reflexivity|].
  destruct Hfi as (Hsym & H00 & H11 & Hdet & Hvar & Hp0 & Hp1).
  unfold invariant.
  cbn [E m00 m01 m10 m11 var_noise process_noise].
  unfold denom. rewrite Hh0, Hh1, HEh0, HEh1, <- Hsym.
  rewrite <- Hsym in Hdet.
  pose proof (kalman_step_algebra _ _ _ _ size_delta H00 H11 Hdet Hvar)
    as (_ & Ksym & K00 & K11 & Kdet).
  cbv zeta in Ksym, K00, K11, Kdet.
  repeat split; assumption.
Qed.

Lemma run_invariant (calls : list Args) :
  forall self, invariant self ->
  exists self', run self calls = Ok self' /\ invariant self'.
Proof.
  induction calls as [|a rest IH]; intros self Hinv.
  - exists self. now split.
  - destruct (update_invariant self (a_time_delta_ms a) (a_timestamp_delta_ms a)
                (a_size_delta a) (a_hypothesis a) (a_now_ms a) Hinv)
      as (s1 & Hcall & Hinv1).
    destruct (IH s1 Hinv1) as (s2 & Hrun & Hinv2).
    exists s2. split; [|exact Hinv2].
    cbn [run]. unfold call. rewrite Hcall. exact Hrun.
Qed.

(** C4: every sequence of calls of [update] on a new estimator returns, and
    the covariance [E] that it leaves is symmetric and positive
    semi-definite. *)
Theorem covariance_symmetric_psd (calls : list Args) :
  exists self,
    run init calls = Ok self /\
    symmetric (E self) /\ positive_semidefinite (E self).
Proof.
  destruct (run_invariant calls init init_invariant)
    as (self & Hrun & Hsym & H00 & H11 & Hdet & _).
  exists self. split; [exact Hrun|]. split; [exact Hsym|].
  now apply minors_positive_semidefinite.
Qed.

(** C7, amended: in exact real arithmetic, every sequence of calls of
    [update] on a new estimator, with any arguments and under any
    hypotheses, returns and leaves [var_noise >= 1]; the variance starts
    at 50.  With the range of floats the bound is lost for extreme
    timestamp deltas, as the section on the range of floats shows. *)
Theorem var_noise_at_least_one (calls : list Args) :
  var_noise init = 50 /\
  exists self, run init calls = Ok self /\ 1 <= var_noise self.
Proof.
  split; [reflexivity|].
  destruct (run_invariant calls init init_invariant)
    as (self & Hrun & _ & _ & _ & _ & Hvar & _).
  exists self. now split.
Qed.

(** C10: after any sequence of calls on a new estimator, a further call of
    [update], with any arguments, computes a denominator of at least 1, so
    neither division raises and the call returns. *)
Theorem kalman_denominator_at_least_one (calls : list Args)
    (time_delta_ms timestamp_delta_ms size_delta : R)
    (hyp : BandwidthUsage) (now_ms : R) :
  exists self i,
    run init calls = Ok self /\
    innovation self time_delta_ms timestamp_delta_ms size_delta hyp = Ok i /\
    1 <= denom i /\
    py_div (Eh0 i) (denom i) = Ok (Eh0 i / denom i) /\
    py_div (Eh1 i) (denom i) = Ok (Eh1 i / denom i) /\
    exists self',
      update self time_delta_ms timestamp_delta_ms size_delta hyp now_ms = Ok self'.
Proof.
  destruct (run_invariant calls init init_invariant) as (self & Hrun & Hinv).
  destruct (innovation_ok self time_delta_ms timestamp_delta_ms size_delta hyp Hinv)
    as (i & Hi & Hfi & Hh0 & Hh1 & HEh0 & HEh1).
  pose proof (denom_lower_bound i size_delta Hfi Hh0 Hh1 HEh0 HEh1) as Hden.
  destruct (update_invariant self time_delta_ms timestamp_delta_ms size_delta
              hyp now_ms Hinv) as (self' & Hup & _).
  exists self, i. repeat split; try assumption.
  - unfold py_div. destruct (Req_dec_T (denom i) 0); [lra | reflexivity].
  - unfold py_div. destruct (Req_dec_T (denom i) 0); [lra | reflexivity].
  - eauto.
Qed.

End OveruseEstimatorFacts.

(** ** OveruseEstimator and the range of floats *)

Section OveruseEstimatorFloats.

Import OveruseEstimator.
Local Open Scope R_scope.

Lemma frac_pow (a b : Z) (n : nat) :
  (IZR a / IZR b) ^ n = IZR (a ^ Z.of_nat n) / IZR (b ^ Z.of_nat n).
Proof.
  unfold Rdiv. rewrite Rpow_mult_distr, pow_inv, !pow_IZR. reflexivity.
Qed.

Lemma frac_le (a b c d : Z) :
  (0 < b)%Z -> (0 < d)%Z -> (a * d <= c * b)%Z ->
  IZR a / IZR b <= IZR c / IZR d.
Proof.
  intros Hb Hd Hle.
  apply IZR_lt in Hb, Hd. apply IZR_le in Hle. rewrite !mult_IZR in Hle.
  apply (Rmult_le_reg_r (IZR b * IZR d)); [apply Rmult_lt_0_compat; assumption|].
  replace (IZR a / IZR b * (IZR b * IZR d)) with (IZR a * IZR d) by (field; lra).
  replace (IZR c / IZR d * (IZR b * IZR d)) with (IZR c * IZR b) by (field; lra).
  exact Hle.
Qed.

Lemma scaled_le (m k c d : Z) :
  (0 < d)%Z -> (m * d <= k * c)%Z -> IZR m <= IZR k * (IZR c / IZR d).
Proof.
  intros Hd Hle. apply IZR_lt in Hd. apply IZR_le in Hle.
  rewrite !mult_IZR in Hle.
  apply (Rmult_le_reg_r (IZR d)); [exact Hd|].
  replace (IZR k * (IZR c / IZR d) * IZR d) with (IZR k * IZR c) by (field; lra).
  exact Hle.
Qed.

Lemma frac_lt_IZR (m c d : Z) :
  (0 < d)%Z -> (c < m * d)%Z -> IZR c / IZR d < IZR m.
Proof.
  intros Hd Hlt. apply IZR_lt in Hd. apply IZR_lt in Hlt.
  rewrite mult_IZR in Hlt.
  apply (Rmult_lt_reg_r (IZR d)); [exact Hd|].
  replace (IZR c / IZR d * IZR d) with (IZR c) by (field; lra).
  exact Hlt.
Qed.

(** 0.99^100 lies between 1/2.732 and 1/2.7319. *)
Lemma pow_99_100 :
  IZR 1000 / IZR 2732 <= (99 / 100) ^ 100 <= IZR 10000 / IZR 27319.
Proof.
  change (99 / 100) with (IZR 99 / IZR 100).
  rewrite frac_pow. split; apply frac_le; try lia;
    try (apply Z.pow_pos_nonneg; lia); apply Z.leb_le; vm_compute; reflexivity.
Qed.

(** [pow(0.99, -70500.0)] between two rationals. *)
Lemma beta_value :
  Rpower (99 / 100) (- 70500) = / ((99 / 100) ^ 100) ^ 705.
Proof.
  replace (- 70500) with (- (70500)) by lra.
  rewrite Rpower_Ropp. f_equal.
  replace 70500 with (INR 100 * INR 705)
    by (rewrite !INR_IZR_INZ; cbn [Z.of_nat Pos.of_succ_nat Pos.succ];
        rewrite <- mult_IZR; reflexivity).
  assert (Hx : 0 < 99 / 100) by lra.
  assert (Hp : 0 < (99 / 100) ^ 100) by (apply pow_lt; exact Hx).
  rewrite <- Rpower_mult.
  rewrite (Rpower_pow 100 _ Hx). rewrite (Rpower_pow 705 _ Hp). reflexivity.
Qed.

Lemma beta_bounds :
  IZR 27319 ^ 705 / IZR 10000 ^ 705 <= Rpower (99 / 100) (- 70500)
  <= IZR 2732 ^ 705 / IZR 1000 ^ 705.
Proof.
  rewrite beta_value.
  destruct pow_99_100 as [Hlo Hhi].
  set (p := (99 / 100) ^ 100) in *.
  assert (Hp : 0 < p) by (apply pow_lt; lra).
  clearbody p.
  assert (Hlo' : (IZR 1000 / IZR 2732) ^ 705 <= p ^ 705).
  { apply pow_incr. split; [|exact Hlo].
    apply Rlt_le, Rdiv_lt_0_compat; apply IZR_lt; lia. }
  assert (Hhi' : p ^ 705 <= (IZR 10000 / IZR 27319) ^ 705).
  { apply pow_incr. split; [lra | exact Hhi]. }
  assert (Hpp : 0 < p ^ 705) by (apply pow_lt; exact Hp).
  split.
  - replace (IZR 27319 ^ 705 / IZR 10000 ^ 705)
      with (/ (IZR 10000 / IZR 27319) ^ 705).
    + apply Rinv_le_contravar; assumption.
    + unfold Rdiv. rewrite Rpow_mult_distr, pow_inv.
      rewrite Rinv_mult, Rinv_inv. apply Rmult_comm.
  - replace (IZR 2732 ^ 705 / IZR 1000 ^ 705)
      with (/ (IZR 1000 / IZR 2732) ^ 705).
    + apply Rinv_le_contravar; [|exact Hlo'].
      apply pow_lt, Rdiv_lt_0_compat; apply IZR_lt; lia.
    + unfold Rdiv. rewrite Rpow_mult_distr, pow_inv.
      rewrite Rinv_mult, Rinv_inv. apply Rmult_comm.
Qed.

Lemma limit_from_bounds (b m C D U : R) :
  0 < D -> C / D <= b -> b <= U -> U < m ->
  m <= 50 * (C / D) -> m <= 21 * ((C - D) / D) ->
  b < m /\ m <= 50 * b /\ m <= (b - 1) * 21.
Proof.
  intros HD Hlo Hhi H1 H2 H3.
  replace ((C - D) / D) with (C / D - 1) in H3 by (field; lra).
  repeat split; lra.
Qed.

(** [pow(0.99, -70500.0)] is a double, but 21 and 50 times it are not. *)
Lemma beta_against_limit :
  Rpower (99 / 100) (- 70500) < FLOAT_LIMIT /\
  FLOAT_LIMIT <= 50 * Rpower (99 / 100) (- 70500) /\
  FLOAT_LIMIT <= (Rpower (99 / 100) (- 70500) - 1) * 21.
Proof.
  destruct beta_bounds as [Hlo Hhi].
  rewrite !pow_IZR in Hlo, Hhi.
  apply (limit_from_bounds _ FLOAT_LIMIT _ _ _
           (IZR_lt 0 _ (Z.pow_pos_nonneg 10000 (Z.of_nat 705) eq_refl
                          (Nat2Z.is_nonneg 705))) Hlo Hhi).
  - apply frac_lt_IZR; [apply Z.pow_pos_nonneg; lia|].
    apply Z.ltb_lt. vm_compute. reflexivity.
  - apply (scaled_le _ 50); [apply Z.pow_pos_nonneg; lia|].
    apply Z.leb_le. vm_compute. reflexivity.
  - rewrite <- minus_IZR.
    apply (scaled_le _ 21); [apply Z.pow_pos_nonneg; lia|].
    apply Z.leb_le. vm_compute. reflexivity.
Qed.

(** The arguments below are far inside the range. *)
Lemma limit_large : 10 ^ 12 <= FLOAT_LIMIT.
Proof.
  unfold FLOAT_LIMIT. change 10 with (IZR 10). rewrite pow_IZR.
  apply IZR_le. apply Z.leb_le. vm_compute. reflexivity.
Qed.

Lemma in_range_finite (r : R) :
  - FLOAT_LIMIT < r < FLOAT_LIMIT -> in_range r = Finite r.
Proof.
  intros [Hlo Hhi]. unfold in_range.
  destruct (Rle_dec FLOAT_LIMIT r); [lra|].
  destruct (Rle_dec r (- FLOAT_LIMIT)); [lra | reflexivity].
Qed.

Lemma in_range_above (r : R) : FLOAT_LIMIT <= r -> in_range r = PosInf.
Proof.
  intros H. unfold in_range. destruct (Rle_dec FLOAT_LIMIT r); [reflexivity | lra].
Qed.

Lemma in_range_below (r : R) : r <= - FLOAT_LIMIT -> in_range r = NegInf.
Proof.
  intros H. pose proof limit_large. unfold in_range.
  destruct (Rle_dec FLOAT_LIMIT r); [lra|].
  destruct (Rle_dec r (- FLOAT_LIMIT)); [reflexivity | lra].
Qed.

(** [3 * sqrt(50)], the largest residual that a new filter lets through,
    lies between 21 and 24. *)
Lemma sqrt_50_bounds : 7 <= sqrt 50 <= 8.
Proof.
  split.
  - rewrite <- (sqrt_square 7) by lra. apply sqrt_le_1_alt. lra.
  - rewrite <- (sqrt_square 8) by lra. apply sqrt_le_1_alt. lra.
Qed.

Lemma inf_times_negative (x : R) : x < 0 -> inf_times false x = NegInf.
Proof.
  intros Hx. unfold inf_times.
  destruct (Req_dec_T x 0); [lra|]. destruct (Rlt_dec 0 x); [lra | reflexivity].
Qed.

(** The noise update of a new filter for a frame period of -2350000 ms and
    a residual between 21 and 24. *)
Lemma noise_float_nan (self : t) (r : R) :
  num_of_deltas self = 1%Z -> avg_noise self = 0 -> var_noise self = 50 ->
  21 <= r <= 24 ->
  update_noise_estimate_float self r (- 2350000) = Ok (NegInf, NaN).
Proof.
  intros Hn Havg Hvar Hr. unfold update_noise_estimate_float.
  rewrite Hn, Havg, Hvar. cbn [Z.ltb Z.mul Z.compare Pos.mul Pos.compare
    Pos.compare_cont Pos.add Pos.succ].
  destruct beta_against_limit as (Hb1 & Hb50 & Hb21).
  pose proof limit_large as Hbig.
  assert (Hb0 : 0 < Rpower (99 / 100) (- 70500)) by apply exp_pos.
  rewrite (in_range_finite (- 2350000 * 30)) by lra.
  cbn [fdiv_by]. rewrite (in_range_finite (- 2350000 * 30 / 1000)) by lra.
  cbn [float_pow].
  replace (1 - 1 / 100) with (99 / 100) by lra.
  replace (- 2350000 * 30 / 1000) with (- 70500) by lra.
  set (b := Rpower (99 / 100) (- 70500)) in *. clearbody b.
  destruct (Rle_dec FLOAT_LIMIT b); [lra|]. cbn [bind].
  cbn [fmul fsub fneg fadd].
  rewrite (in_range_finite (b * 0)) by lra.
  rewrite (in_range_finite (1 + - b)) by lra.
  cbn [fmul].
  rewrite (in_range_below ((1 + - b) * r)) by nra.
  rewrite (in_range_above (b * 50)) by lra.
  cbn [fadd fsub fneg float_square bind fmul].
  rewrite inf_times_negative by lra.
  reflexivity.
Qed.

(** [pow(0.99, -30000000.0)] is beyond every double. *)
Lemma beta_overflows : FLOAT_LIMIT <= Rpower (99 / 100) (- 30000000).
Proof.
  destruct beta_against_limit as (_ & Hb50 & _).
  pose proof limit_large as Hbig.
  replace (- 30000000) with (- 70500 + (- 70500 + - 29859000)) by lra.
  rewrite !Rpower_plus.
  assert (Hrest : 1 <= Rpower (99 / 100) (- 29859000)).
  { unfold Rpower. rewrite <- exp_0. apply Rlt_le, exp_increasing.
    assert (Hln : ln (99 / 100) < 0).
    { rewrite <- ln_1. apply ln_increasing; lra. }
    nra. }
  set (b := Rpower (99 / 100) (- 70500)) in *.
  set (c := Rpower (99 / 100) (- 29859000)) in *. clearbody b c.
  assert (Hb : 50 <= b) by lra.
  assert (Hbb : b * 50 <= b * (b * c)).
  { apply Rmult_le_compat_l; [lra|]. nra. }
  lra.
Qed.

(** The noise update of a new filter for a frame period of -10^9 ms. *)
Lemma noise_float_overflow (self : t) (r : R) :
  num_of_deltas self = 1%Z ->
  update_noise_estimate_float self r (- 1000000000) = Raise OverflowError.
Proof.
  intros Hn. unfold update_noise_estimate_float. rewrite Hn.
  cbn [Z.ltb Z.mul Z.compare Pos.mul Pos.compare Pos.compare_cont Pos.add Pos.succ].
  pose proof limit_large as Hbig.
  rewrite (in_range_finite (- 1000000000 * 30)) by lra.
  cbn [fdiv_by]. rewrite (in_range_finite (- 1000000000 * 30 / 1000)) by lra.
  cbn [float_pow].
  replace (1 - 1 / 100) with (99 / 100) by lra.
  replace (- 1000000000 * 30 / 1000) with (- 30000000) by lra.
  destruct (Rle_dec FLOAT_LIMIT (Rpower (99 / 100) (- 30000000))) as [_|Hno];
    [reflexivity|].
  exfalso. apply Hno. apply beta_overflows.
Qed.

(** C7 as worded fails with the range of floats.  On a new estimator
    [update(0, -2350000, 0, NORMAL, now_ms)] reaches the noise update with
    residual [3 * sqrt(50)] and timestamp delta -2350000:
    [beta = pow(0.99, -70500.0)] is finite, but [(1 - beta) * residual] and
    [beta * 50] are not, so [avg_noise] is -inf and [var_noise] is
    [inf - inf], a NaN, which the floor [var_noise < 1] does not catch and
    for which [1 <= var_noise] is false.  With timestamp delta -10^9 the
    call does not return: [pow] raises [OverflowError]. *)
Lemma var_noise_nan_counterexample :
  noise_after_update_float init 0 (- 2350000) 0 NORMAL = Ok (NegInf, NaN) /\
  fle (Finite 1) NaN = false /\
  noise_after_update_float init 0 (- 1000000000) 0 NORMAL = Raise OverflowError.
Proof.
  pose proof sqrt_50_bounds as [Hs7 Hs8].
  pose proof limit_large as Hbig.
  split; [|split; [reflexivity|]].
  - unfold noise_after_update_float, update_min_frame_period, clamp_noise_float.
    cbn [init ts_delta_hist length Nat.leb MIN_FRAME_PERIOD_HISTORY_LENGTH
         fold_left inflate var_noise slope offset].
    unfold py_sqrt. destruct (Rlt_dec 50 0); [lra|]. cbn [bind].
    rewrite Rltb_false by (rewrite Rabs_right; lra).
    rewrite Rltb_false by lra.
    apply noise_float_nan; try reflexivity. lra.
  - unfold noise_after_update_float, update_min_frame_period, clamp_noise_float.
    cbn [init ts_delta_hist length Nat.leb MIN_FRAME_PERIOD_HISTORY_LENGTH
         fold_left inflate var_noise slope offset].
    unfold py_sqrt. destruct (Rlt_dec 50 0); [lra|]. cbn [bind].
    rewrite Rltb_false by (rewrite Rabs_right; lra).
    rewrite Rltb_false by lra.
    apply noise_float_overflow. reflexivity.
Qed.

Lemma Rpower_unit (x e : R) : 0 < x < 1 -> 0 <= e -> 0 < Rpower x e <= 1.
Proof.
  intros Hx He. split; [apply exp_pos|].
  unfold Rpower. rewrite <- exp_0.
  assert (Hln : ln x < 0) by (rewrite <- ln_1; apply ln_increasing; lra).
  destruct (Req_dec (e * ln x) 0) as [-> | Hne]; [lra|].
  apply Rlt_le, exp_increasing. nra.
Qed.

Lemma scaled_within (b x M : R) :
  0 <= b <= 1 -> - M <= x <= M -> - M <= b * x <= M.
Proof. intros Hb Hx. nra. Qed.

Lemma square_within (x N : R) : - N <= x <= N -> 0 <= x * x <= N * N.
Proof. intros Hx. split; nra. Qed.

(** Where nothing leaves the range of floats, the float reading and the
    exact reading of [update_noise_estimate] give the same two values: for a
    timestamp delta that is not negative, and a delta, a residual and noise
    fields bounded by [M] with [40 * M * M] in range. *)
Lemma noise_float_agrees (M : R) (self : t) (r ts : R) :
  1 <= M -> 40 * (M * M) <= FLOAT_LIMIT ->
  0 <= ts <= M ->
  - M <= avg_noise self <= M ->
  - M <= var_noise self <= M ->
  - M <= r <= M ->
  update_noise_estimate_float self r ts =
  Ok (Finite (avg_noise (update_noise_estimate self r ts)),
      Finite (var_noise (update_noise_estimate self r ts))).
Proof.
  intros HM HL Hts Ha Hv Hr.
  assert (HMM : M <= M * M) by nra.
  unfold update_noise_estimate_float, update_noise_estimate.
  cbn [set_noise avg_noise var_noise].
  set (alpha := if (10 * 30 <? num_of_deltas self)%Z then 2 / 1000 else 1 / 100).
  assert (Halpha : 0 < 1 - alpha < 1).
  { unfold alpha. destruct (10 * 30 <? num_of_deltas self)%Z; lra. }
  clearbody alpha.
  rewrite (in_range_finite (ts * 30)) by nra.
  cbn [fdiv_by]. rewrite (in_range_finite (ts * 30 / 1000)) by nra.
  cbn [float_pow].
  assert (Hb : 0 < Rpower (1 - alpha) (ts * 30 / 1000) <= 1).
  { apply Rpower_unit; [exact Halpha | lra]. }
  set (b := Rpower (1 - alpha) (ts * 30 / 1000)) in *. clearbody b.
  destruct (Rle_dec FLOAT_LIMIT b); [nra|]. cbn [bind].
  cbn [fmul fsub fneg fadd].
  pose proof (scaled_within b (avg_noise self) M ltac:(lra) Ha) as H1.
  pose proof (scaled_within (1 + - b) r M ltac:(lra) Hr) as H2.
  pose proof (scaled_within b (var_noise self) M ltac:(lra) Hv) as H3.
  rewrite (in_range_finite (b * avg_noise self)) by lra.
  rewrite (in_range_finite (1 + - b)) by lra.
  cbn [fmul]. rewrite (in_range_finite ((1 + - b) * r)) by lra.
  cbn [fadd].
  assert (Havg : - (2 * M) <= b * avg_noise self + (1 + - b) * r <= 2 * M) by lra.
  unfold Rminus.
  set (avg := b * avg_noise self + (1 + - b) * r) in *. clearbody avg.
  rewrite (in_range_finite avg) by lra.
  cbn [fsub fneg fadd].
  rewrite (in_range_finite (avg + - r)) by lra.
  cbn [float_square].
  assert (Hsq : 0 <= (avg + - r) * (avg + - r) <= 9 * (M * M)).
  { replace (9 * (M * M)) with (3 * M * (3 * M)) by ring.
    apply square_within. lra. }
  destruct (Rle_dec FLOAT_LIMIT ((avg + - r) * (avg + - r))); [lra|].
  cbn [bind fmul].
  rewrite (in_range_finite (b * var_noise self)) by lra.
  assert (H4 : 0 <= (1 + - b) * ((avg + - r) * (avg + - r)) <= 9 * (M * M)).
  { set (q := (avg + - r) * (avg + - r)) in *. clearbody q. nra. }
  rewrite (in_range_finite ((1 + - b) * ((avg + - r) * (avg + - r)))) by lra.
  cbn [fadd].
  rewrite (in_range_finite (b * var_noise self + _)) by lra.
  cbn [flt].
  replace ((avg + - r) ^ 2) with ((avg + - r) * (avg + - r)) by ring.
  destruct (Rltb _ 1); reflexivity.
Qed.
End OveruseEstimatorFloats.

(** ** RateCounter *)

Section RateCounterFacts.

Import RateCounter.

Lemma replace_nth_length {A : Type} (l : list A) (n : nat) (a : A) :
  length (replace_nth l n a) = length l.
Proof.
  revert n. induction l as [|x rest IH]; intros [|n]; cbn; auto.
Qed.

Lemma py_replace_length {A : Type} (l : list A) (i : Z) (a : A) :
  length (py_replace l i a) = length l.
Proof. unfold py_replace. apply replace_nth_length. Qed.

Lemma py_index_in_range {A : Type} (l : list A) (i : Z) :
  0 <= i < Z.of_nat (length l) -> exists a, py_index l i = Ok a.
Proof.
  intros Hi. unfold py_index.
  replace (i <? 0) with false by (symmetry; apply Z.ltb_ge; lia).
  replace (0 <=? i) with true by (symmetry; apply Z.leb_le; lia).
  replace (i <? Z.of_nat (length l)) with true by (symmetry; apply Z.ltb_lt; lia).
  cbn [andb].
  destruct (nth_error l (Z.to_nat i)) as [a|] eqn:Hnth; [eauto|].
  apply nth_error_None in Hnth. lia.
Qed.

Lemma init_well_formed (window scale : Z) :
  0 < window -> well_formed (init window scale).
Proof.
  intros Hw. unfold well_formed, init, reset; cbn.
  rewrite repeat_length. lia.
Qed.

(** One turn of the loop keeps the shape and moves the origin by 1 ms. *)
Lemma erase_bucket_ok (self : t) (origin : Z) :
  well_formed self ->
  exists self',
    erase_bucket self origin = Ok self' /\
    well_formed self' /\
    origin_ms self' = Some (origin + 1).
Proof.
  intros (Hw & Hlen & Hidx). unfold erase_bucket.
  destruct (py_index_in_range (buckets self) (origin_index self)) as [b ->];
    [lia|].
  cbn [bind]. unfold py_mod.
  replace (window_size self =? 0) with false by (symmetry; apply Z.eqb_neq; lia).
  cbn [bind]. eexists. split; [reflexivity|]. split; [|reflexivity].
  unfold well_formed; cbn. rewrite py_replace_length.
  pose proof (Z.mod_pos_bound (origin_index self + 1) (window_size self) Hw).
  lia.
Qed.

(** The loop returns within the budget that [_erase_old] gives it. *)
Lemma erase_loop_ok (fuel : nat) :
  forall (self : t) (origin new_origin_ms : Z),
    well_formed self ->
    origin_ms self = Some origin ->
    (Z.to_nat (new_origin_ms - origin) <= fuel)%nat ->
    exists self' origin',
      erase_loop fuel self new_origin_ms = Ok self' /\
      well_formed self' /\
      origin_ms self' = Some origin' /\
      origin' = Z.max origin new_origin_ms.
Proof.
  induction fuel as [|fuel IH]; intros self origin new_origin Hwf Horigin Hfuel.
  - cbn [erase_loop]. rewrite Horigin. cbn [num bind].
    replace (origin <? new_origin) with false by (symmetry; apply Z.ltb_ge; lia).
    exists self, origin. split; [reflexivity|]. split; [assumption|]. split; [assumption|lia].
  - cbn [erase_loop]. rewrite Horigin. cbn [num bind].
    destruct (Z.ltb_spec origin new_origin) as [Hlt|Hge].
    + destruct (erase_bucket_ok self origin Hwf) as (s1 & -> & Hwf1 & Ho1).
      cbn [bind].
      destruct (IH s1 (origin + 1) new_origin Hwf1 Ho1) as (s2 & o2 & -> & Hwf2 & Ho2 & Hmax);
        [lia|].
      exists s2, o2. split; [reflexivity|]. split; [assumption|]. split; [assumption|lia].
    + exists self, origin. split; [reflexivity|]. split; [assumption|]. split; [assumption|lia].
Qed.

(** [_erase_old] on a started counter returns; the origin it leaves is the
    later of the old origin and [now_ms - window_size + 1]. *)
Lemma erase_old_ok (self : t) (origin now_ms : Z) :
  well_formed self ->
  origin_ms self = Some origin ->
  exists self' origin',
    _erase_old self now_ms = Ok self' /\
    well_formed self' /\
    origin_ms self' = Some origin' /\
    origin' = Z.max origin (now_ms - window_size self + 1).
Proof.
  intros Hwf Horigin. unfold _erase_old. rewrite Horigin. cbn [num bind].
  apply erase_loop_ok; [exact Hwf | exact Horigin | lia].
Qed.

(** [add] on a well-formed counter returns a well-formed counter. *)
Lemma add_ok (self : t) (v now_ms : Z) :
  well_formed self ->
  exists self', add self v now_ms = Ok self' /\ well_formed self'.
Proof.
  intros Hwf. unfold add.
  assert (Hstart : exists s1 o1,
             match origin_ms self with
             | None => Ok {| scale := scale self;
                             window_size := window_size self;
                             buckets := buckets self;
                             origin_index := origin_index self;
                             origin_ms := Some now_ms;
                             total := total self |}
             | Some _ => _erase_old self now_ms
             end = Ok s1 /\ well_formed s1 /\ origin_ms s1 = Some o1).
  { destruct (origin_ms self) as [origin|] eqn:Horigin.
    - destruct (erase_old_ok self origin now_ms Hwf Horigin)
        as (s1 & o1 & He & Hwf1 & Ho1 & _). eauto.
    - eexists _, now_ms. split; [reflexivity|]. split; [exact Hwf | reflexivity]. }
  destruct Hstart as (s1 & o1 & -> & (Hw & Hlen & Hidx) & Ho1).
  cbn [bind]. rewrite Ho1. cbn [num bind]. unfold py_mod.
  replace (window_size s1 =? 0) with false by (symmetry; apply Z.eqb_neq; lia).
  cbn [bind].
  pose proof (Z.mod_pos_bound (origin_index s1 + now_ms - o1) (window_size s1) Hw)
    as Hmod.
  destruct (py_index_in_range (buckets s1)
              ((origin_index s1 + now_ms - o1) mod window_size s1)) as [b ->];
    [lia|].
  cbn [bind]. eexists. split; [reflexivity|].
  unfold well_formed; cbn. rewrite py_replace_length. lia.
Qed.

Lemma started_counter_reached :
  (c <- add (init 10 8000) 100 5 ;; add c 50 7) = Ok started_counter.
Proof. vm_compute. reflexivity. Qed.

(** C8: on a counter that is not started [rate] returns [None]; on a
    started one it runs [_erase_old] and then returns
    [round(scale * total.value / active_window_size)], with
    [active_window_size = now_ms - origin_ms + 1], exactly when
    [total.count > 0] and [active_window_size > 1], and [None] otherwise. *)
Theorem rate_result (self : t) (now_ms : Z) :
  well_formed self ->
  match origin_ms self with
  | None => rate self now_ms = Ok (self, None)
  | Some _ =>
      exists self' origin,
        _erase_old self now_ms = Ok self' /\
        origin_ms self' = Some origin /\
        let active_window_size := now_ms - origin + 1 in
        (0 < count (total self') /\ 1 < active_window_size ->
         rate self now_ms =
         Ok (self',
             Some (py_round (inject_Z (scale self' * value (total self'))
                             / inject_Z active_window_size)))) /\
        (~ (0 < count (total self') /\ 1 < active_window_size) ->
         rate self now_ms = Ok (self', None))
  end.
Proof.
  intros Hwf. destruct (origin_ms self) as [origin|] eqn:Horigin.
  - destruct (erase_old_ok self origin now_ms Hwf Horigin)
      as (self' & origin' & Herase & _ & Horigin' & _).
    exists self', origin'. split; [exact Herase|]. split; [exact Horigin'|].
    unfold rate. rewrite Horigin, Herase. cbn [bind].
    rewrite Horigin'. cbn [num bind]. split.
    + intros [Hcount Hwindow].
      replace (0 <? count (total self')) with true
        by (symmetry; now apply Z.ltb_lt).
      replace (1 <? now_ms - origin' + 1) with true
        by (symmetry; now apply Z.ltb_lt).
      reflexivity.
    + intros Hnot.
      destruct (Z.ltb_spec 0 (count (total self'))) as [Hcount|Hcount];
        [|reflexivity].
      destruct (Z.ltb_spec 1 (now_ms - origin' + 1)) as [Hwindow|Hwindow];
        [|reflexivity].
      exfalso. apply Hnot. now split.
  - unfold rate. rewrite Horigin. reflexivity.
Qed.

Lemma rate_result_witness :
  exists self' origin,
    _erase_old started_counter 15 = Ok self' /\
    origin_ms self' = Some origin /\
    (0 < count (total self') /\ 1 < 15 - origin + 1 ->
     rate started_counter 15 =
     Ok (self',
         Some (py_round (inject_Z (scale self' * value (total self'))
                         / inject_Z (15 - origin + 1))))) /\
    (~ (0 < count (total self') /\ 1 < 15 - origin + 1) ->
     rate started_counter 15 = Ok (self', None)).
Proof.
  apply (rate_result started_counter 15).
  unfold well_formed, started_counter; cbn. lia.
Defined.

(** The sample counter at 15 ms: the bucket of 5 ms has left the window of
    10 ms, 50 bytes remain, and the rate is 8000 * 50 / 10. *)
Example rate_started_counter :
  option_rate (rate started_counter 15) = Some (Some 40000).
Proof. vm_compute. reflexivity. Qed.

End RateCounterFacts.

(** ** InterArrival: streams of packets *)

Section InterArrivalStreams.

Import InterArrival.

Lemma feed_app (pre post : list Packet) :
  forall self,
    feed self (pre ++ post) =
    (r1 <- feed self pre ;;
     r2 <- feed (fst r1) post ;;
     Ok (fst r2, snd r1 ++ snd r2)).
Proof.
  induction pre as [|p pre IH]; intros self.
  - cbn [app feed bind fst snd]. destruct (feed self post) as [[s ds]| |]; reflexivity.
  - cbn [app feed].
    destruct (compute_deltas self (p_timestamp p) (p_arrival p) (p_size p))
      as [[s1 d]| |]; cbn [bind fst snd]; try reflexivity.
    rewrite IH.
    destruct (feed s1 pre) as [[s2 ds2]| |]; cbn [bind fst snd]; try reflexivity.
    destruct (feed s2 post) as [[s3 ds3]| |]; cbn [bind fst snd]; try reflexivity.
    destruct d; reflexivity.
Qed.

Lemma compute_deltas_out_of_order (self : t) (timestamp arrival packet_size : Z) :
  packet_out_of_order self timestamp = Ok true ->
  compute_deltas self timestamp arrival packet_size = Ok (self, None).
Proof.
  intros Hooo. unfold compute_deltas.
  destruct (current_group self) as [cur|] eqn:Hcur.
  - rewrite Hooo. reflexivity.
  - unfold packet_out_of_order, current in Hooo. rewrite Hcur in Hooo.
    discriminate Hooo.
Qed.

(** X1: a packet that is out of order for the filter that the packets before
    it have left is invisible in the stream: the filter and the deltas after
    the whole stream are those of the stream without it. *)
Theorem out_of_order_packet_transparent (self s1 : t) (ds1 : list InterArrivalDelta)
    (pre post : list Packet) (p : Packet) :
  feed self pre = Ok (s1, ds1) ->
  packet_out_of_order s1 (p_timestamp p) = Ok true ->
  feed self (pre ++ p :: post) = feed self (pre ++ post).
Proof.
  intros Hpre Hooo. rewrite !feed_app, Hpre. cbn [bind fst snd feed].
  rewrite (compute_deltas_out_of_order s1 _ _ _ Hooo). cbn [bind fst snd].
  destruct (feed s1 post) as [[s2 ds2]| |]; reflexivity.
Qed.

Lemma out_of_order_packet_transparent_witness :
  feed abs_send_time_filter
    ([mkPacket 1000 0 1] ++ mkPacket 900 1 1 :: [mkPacket 1200 2 1]) =
  feed abs_send_time_filter ([mkPacket 1000 0 1] ++ [mkPacket 1200 2 1]).
Proof.
  apply (out_of_order_packet_transparent abs_send_time_filter
           {| group_length := 335544;
              timestamp_to_ms := TIMESTAMP_TO_MS;
              current_group := Some {| arrival_time := Some 0;
                                       first_timestamp := Some 1000;
                                       last_timestamp := Some 1000;
                                       size := 1 |};
              previous_group := None |}
           []
           [mkPacket 1000 0 1] [mkPacket 1200 2 1] (mkPacket 900 1 1));
    vm_compute; reflexivity.
Defined.

(** Differences of timestamps do not see a common shift of the clock. *)
Lemma uint32_add_shift (a b c : Z) :
  uint32_add ((a + c) mod 2 ^ 32) (- ((b + c) mod 2 ^ 32)) = uint32_add a (- b).
Proof.
  rewrite !uint32_add_opp. rewrite <- Zminus_mod. f_equal. lia.
Qed.

Lemma uint32_gt_shift (a b c : Z) :
  uint32_gt ((a + c) mod 2 ^ 32) ((b + c) mod 2 ^ 32) = uint32_gt a b.
Proof.
  unfold uint32_gt. rewrite <- Zminus_mod.
  replace (a + c - (b + c)) with (a - b) by lia. reflexivity.
Qed.

Lemma compute_deltas_shift (c : Z) (self : t) (timestamp arrival packet_size : Z) :
  compute_deltas (shift_filter c self) ((timestamp + c) mod 2 ^ 32)
                 arrival packet_size =
  (r <- compute_deltas self timestamp arrival packet_size ;;
   Ok (shift_filter c (fst r), snd r)).
Proof.
  destruct self as [gl k cur prev].
  unfold compute_deltas, packet_out_of_order, new_timestamp_group,
    belongs_to_burst, current, account, make_delta, shift_filter.
  repeat
    (cbn [current_group previous_group set_groups option_map shift_group
          shift_timestamp first_timestamp last_timestamp arrival_time size
          num bind fst snd group_length timestamp_to_ms TimestampGroup_init];
     rewrite ?uint32_add_shift, ?uint32_gt_shift;
     first
       [ reflexivity
       | match goal with
         | |- context [if ?b then _ else _] => destruct b
         | |- context [match ?o with Some _ => _ | None => _ end] =>
             is_var o; destruct o
         | |- context [num ?o] => is_var o; destruct o
         | |- context [shift_group c ?g] => is_var g; destruct g
         end ]).
Qed.

Lemma feed_shift (c : Z) (packets : list Packet) :
  forall self,
    feed (shift_filter c self) (map (shift_packet c) packets) =
    (r <- feed self packets ;; Ok (shift_filter c (fst r), snd r)).
Proof.
  induction packets as [|p rest IH]; intros self; [reflexivity|].
  cbn [map feed]. cbn [shift_packet p_timestamp p_arrival p_size].
  rewrite compute_deltas_shift.
  destruct (compute_deltas self (p_timestamp p) (p_arrival p) (p_size p))
    as [[s1 d]| |]; cbn [bind fst snd]; try reflexivity.
  rewrite IH. destruct (feed s1 rest) as [[s2 ds]| |]; reflexivity.
Qed.

(** X2: the deltas do not depend on where the 32-bit sender clock stands:
    a new filter fed the same packets with every timestamp advanced by [c]
    and wrapped at 2^32 returns the same deltas, or raises the same way. *)
Theorem deltas_invariant_under_wrap (gl : Z) (k : Q) (c : Z) (packets : list Packet) :
  emitted (init gl k) (map (shift_packet c) packets) = emitted (init gl k) packets.
Proof.
  unfold emitted.
  change (init gl k) with (shift_filter c (init gl k)) at 1.
  rewrite feed_shift.
  destruct (feed (init gl k) packets) as [[s ds]| |]; reflexivity.
Qed.

Lemma burst_step_value (self : t) (cur : TimestampGroup)
    (last timestamp arrival packet_size : Z) :
  current_group self = Some cur ->
  last_timestamp cur = Some last ->
  packet_out_of_order self timestamp = Ok false ->
  belongs_to_burst self timestamp arrival = Ok true ->
  compute_deltas self timestamp arrival packet_size =
  Ok (set_groups self
        (Some {| arrival_time := Some arrival;
                 first_timestamp := first_timestamp cur;
                 last_timestamp :=
                   Some (if uint32_gt timestamp last then timestamp else last);
                 size := size cur + packet_size |})
        (previous_group self),
      None).
Proof.
  intros Hcur Hlast Hooo Hburst.
  unfold compute_deltas, new_timestamp_group. rewrite Hcur, Hooo, Hburst.
  cbn [bind]. rewrite Hlast. cbn [num bind].
  destruct (uint32_gt timestamp last); unfold account, current;
    cbn [current_group set_groups previous_group]; rewrite ?Hcur;
    cbn [bind first_timestamp last_timestamp size]; rewrite ?Hlast; reflexivity.
Qed.

(** X3: a packet that is in order and belongs to the burst of the current
    group joins that group: no delta, the previous group and the first
    timestamp stay, the size grows by the packet, the arrival time is the
    packet's, and the last timestamp moves only forward. *)
Theorem burst_packet_joins_group (self : t) (cur : TimestampGroup)
    (last timestamp arrival packet_size : Z) :
  current_group self = Some cur ->
  last_timestamp cur = Some last ->
  packet_out_of_order self timestamp = Ok false ->
  belongs_to_burst self timestamp arrival = Ok true ->
  compute_deltas self timestamp arrival packet_size =
  Ok (set_groups self
        (Some {| arrival_time := Some arrival;
                 first_timestamp := first_timestamp cur;
                 last_timestamp :=
                   Some (if uint32_gt timestamp last then timestamp else last);
                 size := size cur + packet_size |})
        (previous_group self),
      None).
Proof. apply burst_step_value. Qed.

Lemma burst_packet_joins_group_witness :
  compute_deltas after_first_packet 671089 2 40 =
  Ok (set_groups after_first_packet
        (Some {| arrival_time := Some 2;
                 first_timestamp := Some 0;
                 last_timestamp :=
                   Some (if uint32_gt 671089 0 then 671089 else 0);
                 size := 1 + 40 |})
        None,
      None).
Proof.
  apply (burst_packet_joins_group after_first_packet
           {| arrival_time := Some 0; first_timestamp := Some 0;
              last_timestamp := Some 0; size := 1 |} 0 671089 2 40);
    vm_compute; reflexivity.
Defined.

Lemma py_round_zero (k : Q) : py_round (k * inject_Z 0) = 0.
Proof.
  unfold py_round, Qmult. cbn [Qnum Qden inject_Z].
  rewrite Z.mul_0_r. cbn. reflexivity.
Qed.

(** The group that packets with one timestamp build. *)
Lemma same_timestamp_step (self : t) (cur : TimestampGroup)
    (timestamp cur_arrival arrival packet_size : Z) :
  current_group self = Some cur ->
  first_timestamp cur = Some timestamp ->
  last_timestamp cur = Some timestamp ->
  arrival_time cur = Some cur_arrival ->
  compute_deltas self timestamp arrival packet_size =
  Ok (set_groups self
        (Some {| arrival_time := Some arrival;
                 first_timestamp := Some timestamp;
                 last_timestamp := Some timestamp;
                 size := size cur + packet_size |})
        (previous_group self),
      None).
Proof.
  intros Hcur Hfirst Hlast Harr.
  rewrite (burst_step_value self cur timestamp timestamp arrival packet_size
             Hcur Hlast).
  - rewrite Hfirst. now destruct (uint32_gt timestamp timestamp).
  - unfold packet_out_of_order, current. rewrite Hcur. cbn [bind].
    rewrite Hfirst. cbn [num bind]. rewrite uint32_add_opp, Z.sub_diag.
    reflexivity.
  - rewrite (belongs_to_burst_value self cur timestamp cur_arrival) by assumption.
    cbv zeta. rewrite Z.sub_diag. change (0 mod 2 ^ 32) with 0.
    rewrite py_round_zero. reflexivity.
Qed.

Lemma last_cons_default {A : Type} (l : list A) :
  forall a d, last (a :: l) d = last l a.
Proof.
  induction l as [|x l IH]; intros a d; [reflexivity|].
  change (last (a :: x :: l) d) with (last (x :: l) d).
  now rewrite (IH x d), (IH x a).
Qed.

Lemma same_timestamp_feed (gl : Z) (k : Q) (prev : option TimestampGroup)
    (timestamp : Z) (rest : list (Z * Z)) :
  forall arrival sz,
    feed {| group_length := gl; timestamp_to_ms := k;
            current_group := Some {| arrival_time := Some arrival;
                                     first_timestamp := Some timestamp;
                                     last_timestamp := Some timestamp;
                                     size := sz |};
            previous_group := prev |}
         (map (fun x => mkPacket timestamp (fst x) (snd x)) rest) =
    Ok ({| group_length := gl; timestamp_to_ms := k;
           current_group :=
             Some {| arrival_time := Some (last (map fst rest) arrival);
                     first_timestamp := Some timestamp;
                     last_timestamp := Some timestamp;
                     size := sz + fold_right Z.add 0 (map snd rest) |};
           previous_group := prev |}, []).
Proof.
  induction rest as [|[a s] rest IH]; intros arrival sz.
  - cbn. now rewrite Z.add_0_r.
  - cbn [map feed fst snd p_timestamp p_arrival p_size].
    erewrite same_timestamp_step by reflexivity.
    unfold set_groups.
    cbn [bind fst snd group_length timestamp_to_ms previous_group size].
    rewrite IH. cbn [bind fst snd fold_right map].
    rewrite last_cons_default, Z.add_assoc. reflexivity.
Qed.

(** X4: packets that all carry one send timestamp form a single group on a
    new filter, whenever they arrive: no delta is returned, the group's size
    is the sum of the packet sizes and its arrival time is that of the last
    packet. *)
Theorem same_timestamp_packets_coalesce (gl : Z) (k : Q)
    (timestamp arrival0 size0 : Z) (rest : list (Z * Z)) :
  feed (init gl k)
       (mkPacket timestamp arrival0 size0
        :: map (fun x => mkPacket timestamp (fst x) (snd x)) rest) =
  Ok ({| group_length := gl; timestamp_to_ms := k;
         current_group :=
           Some {| arrival_time := Some (last (map fst rest) arrival0);
                   first_timestamp := Some timestamp;
                   last_timestamp := Some timestamp;
                   size := size0 + fold_right Z.add 0 (map snd rest) |};
         previous_group := None |}, []).
Proof.
  cbn [feed p_timestamp p_arrival p_size].
  rewrite compute_deltas_first by reflexivity.
  unfold set_groups, init.
  cbn [bind fst snd group_length timestamp_to_ms previous_group].
  rewrite same_timestamp_feed. reflexivity.
Qed.

(** X5: a delta is returned only by a call that closes the current group
    while a previous group exists; it is the difference between those two
    groups, its timestamp lies in [0, 2^32), and the call makes the closed
    group the previous one and opens a group that holds just the packet. *)
Theorem returned_delta_inversion (self self' : t) (d : InterArrivalDelta)
    (timestamp arrival packet_size : Z) :
  compute_deltas self timestamp arrival packet_size = Ok (self', Some d) ->
  exists cur prev cur_last prev_last cur_arrival prev_arrival,
    current_group self = Some cur /\
    previous_group self = Some prev /\
    last_timestamp cur = Some cur_last /\
    last_timestamp prev = Some prev_last /\
    arrival_time cur = Some cur_arrival /\
    arrival_time prev = Some prev_arrival /\
    new_timestamp_group self timestamp arrival = Ok true /\
    d = {| delta_timestamp := (cur_last - prev_last) mod 2 ^ 32;
           delta_arrival_time := cur_arrival - prev_arrival;
           delta_size := size cur - size prev |} /\
    0 <= delta_timestamp d < 2 ^ 32 /\
    previous_group self' = Some cur /\
    current_group self' = Some {| arrival_time := Some arrival;
                                  first_timestamp := Some timestamp;
                                  last_timestamp := Some timestamp;
                                  size := 0 + packet_size |}.
Proof.
  unfold compute_deltas.
  destruct (current_group self) as [cur|] eqn:Hcur;
    [|unfold account, current; cbn; congruence].
  destruct (packet_out_of_order self timestamp) as [[]| |];
    cbn [bind]; try congruence.
  destruct (new_timestamp_group self timestamp arrival) as [[]| |];
    cbn [bind]; try congruence.
  - destruct (previous_group self) as [prev|] eqn:Hprev;
      [|unfold account, current; cbn; congruence].
    unfold make_delta.
    destruct (last_timestamp cur) as [cl|] eqn:Hcl; cbn [num bind];
      try congruence.
    destruct (last_timestamp prev) as [pl|] eqn:Hpl; cbn [num bind];
      try congruence.
    destruct (arrival_time cur) as [ca|] eqn:Hca; cbn [num bind];
      try congruence.
    destruct (arrival_time prev) as [pa|] eqn:Hpa; cbn [num bind];
      try congruence.
    unfold account, current. cbn. intros [= <- <-].
    exists cur, prev, cl, pl, ca, pa. rewrite uint32_add_opp.
    pose proof (Z.mod_pos_bound (cl - pl) (2 ^ 32) ltac:(lia)) as Hrange.
    repeat split; try reflexivity; try assumption;
      cbn [delta_timestamp]; lia.
  - destruct (num (last_timestamp cur)) as [last| |]; cbn [bind]; try congruence.
    destruct (uint32_gt timestamp last); unfold account, current;
      cbn [current_group set_groups]; rewrite ?Hcur; cbn [bind]; congruence.
Qed.

Lemma returned_delta_inversion_witness :
  exists cur prev cur_last prev_last cur_arrival prev_arrival,
    current_group two_groups = Some cur /\
    previous_group two_groups = Some prev /\
    last_timestamp cur = Some cur_last /\
    last_timestamp prev = Some prev_last /\
    arrival_time cur = Some cur_arrival /\
    arrival_time prev = Some prev_arrival /\
    new_timestamp_group two_groups 805308 12 = Ok true /\
    {| delta_timestamp := 402654; delta_arrival_time := 6; delta_size := -200 |} =
    {| delta_timestamp := (cur_last - prev_last) mod 2 ^ 32;
       delta_arrival_time := cur_arrival - prev_arrival;
       delta_size := size cur - size prev |} /\
    0 <= 402654 < 2 ^ 32 /\
    previous_group
      (set_groups two_groups
         (Some {| arrival_time := Some 12; first_timestamp := Some 805308;
                  last_timestamp := Some 805308; size := 1100 |})
         (current_group two_groups)) = Some cur /\
    current_group
      (set_groups two_groups
         (Some {| arrival_time := Some 12; first_timestamp := Some 805308;
                  last_timestamp := Some 805308; size := 1100 |})
         (current_group two_groups)) =
    Some {| arrival_time := Some 12; first_timestamp := Some 805308;
            last_timestamp := Some 805308; size := 0 + 1100 |}.
Proof.
  apply (returned_delta_inversion two_groups _
           {| delta_timestamp := 402654; delta_arrival_time := 6;
              delta_size := -200 |} 805308 12 1100).
  vm_compute. reflexivity.
Defined.

Lemma no_previous_no_delta (self self' : t) (d : option InterArrivalDelta)
    (timestamp arrival packet_size : Z) :
  previous_group self = None ->
  compute_deltas self timestamp arrival packet_size = Ok (self', d) ->
  d = None.
Proof.
  intros Hprev Hcall. destruct d as [d|]; [|reflexivity].
  unfold compute_deltas in Hcall. rewrite Hprev in Hcall.
  destruct (current_group self) as [cur|] eqn:Hcur;
    [|unfold account, current in Hcall; cbn in Hcall; congruence].
  destruct (packet_out_of_order self timestamp) as [[]| |];
    cbn [bind] in Hcall; try congruence.
  destruct (new_timestamp_group self timestamp arrival) as [[]| |];
    cbn [bind] in Hcall; try congruence.
  - unfold account, current in Hcall; cbn in Hcall; congruence.
  - destruct (num (last_timestamp cur)) as [last| |]; cbn [bind] in Hcall;
      try congruence.
    destruct (uint32_gt timestamp last); unfold account, current in Hcall;
      cbn [current_group set_groups] in Hcall; rewrite ?Hcur in Hcall;
      cbn [bind] in Hcall; congruence.
Qed.

Lemma feed_length (packets : list Packet) :
  forall self self' ds,
    feed self packets = Ok (self', ds) -> (length ds <= length packets)%nat.
Proof.
  induction packets as [|p rest IH]; intros self self' ds Hfeed.
  - cbn in Hfeed. injection Hfeed as _ <-. cbn. lia.
  - cbn [feed] in Hfeed.
    destruct (compute_deltas self (p_timestamp p) (p_arrival p) (p_size p))
      as [[s1 d]| |]; cbn [bind fst snd] in Hfeed; try discriminate.
    destruct (feed s1 rest) as [[s2 ds2]| |] eqn:Hrest;
      cbn [bind fst snd] in Hfeed; try discriminate.
    injection Hfeed as _ <-. specialize (IH s1 s2 ds2 Hrest).
    destruct d; cbn [length]; lia.
Qed.

(** X6: a new filter returns at most one delta per packet after the first
    two, and never raises: of [n] packets at most [n - 2] produce a delta. *)
Theorem at_most_one_delta_after_two (gl : Z) (k : Q) (packets : list Packet) :
  exists self ds,
    feed (init gl k) packets = Ok (self, ds) /\
    (length ds <= length packets - 2)%nat.
Proof.
  destruct (feed_complete packets (init gl k) (init_complete gl k))
    as (self & ds & Hfeed & _).
  exists self, ds. split; [exact Hfeed|].
  destruct packets as [|p1 [|p2 rest]].
  - cbn in Hfeed. injection Hfeed as _ <-. cbn. lia.
  - cbn in Hfeed. injection Hfeed as _ <-. cbn. lia.
  - cbn [feed] in Hfeed.
    rewrite compute_deltas_first in Hfeed by reflexivity.
    cbn [bind fst snd] in Hfeed.
    match type of Hfeed with
    | context [compute_deltas ?s ?ts ?a ?sz] =>
        destruct (compute_deltas s ts a sz) as [[s2 d]| |] eqn:Hsecond;
          cbn [bind fst snd] in Hfeed; try discriminate
    end.
    apply no_previous_no_delta in Hsecond; [|reflexivity]. subst d.
    destruct (feed s2 rest) as [[s3 ds3]| |] eqn:Hrest;
      cbn [bind fst snd] in Hfeed; try discriminate.
    injection Hfeed as _ <-. apply feed_length in Hrest. cbn [length]. lia.
Qed.

End InterArrivalStreams.

(** ** OveruseDetector: hypotheses and adaptation *)

Section OveruseDetectorDecisions.

Import OveruseDetector.
Local Open Scope R_scope.

Lemma Rltb_spec (x y : R) : reflect (x < y) (Rltb x y).
Proof.
  unfold Rltb. destruct (Rlt_dec x y); constructor; assumption.
Qed.

Lemma Rleb_spec (x y : R) : reflect (x <= y) (Rleb x y).
Proof.
  unfold Rleb. destruct (Rle_dec x y); constructor; assumption.
Qed.

Lemma update_threshold_frame (self : t) (modified_offset now_ms : R) :
  let self' := update_threshold self modified_offset now_ms in
  hypothesis self' = hypothesis self /\
  k_up self' = k_up self /\ k_down self' = k_down self /\
  overuse_counter self' = overuse_counter self /\
  overuse_time self' = overuse_time self /\
  overuse_time_threshold self' = overuse_time_threshold self /\
  previous_offset self' = previous_offset self /\
  last_update_ms self' = Some now_ms.
Proof.
  unfold update_threshold.
  destruct (Rltb _ (Rabs modified_offset)); cbn; repeat split.
Qed.

Lemma update_threshold_steady (self : t) (modified_offset now_ms : R) :
  steady self -> steady (update_threshold self modified_offset now_ms).
Proof.
  intros Hs.
  destruct (update_threshold_frame self modified_offset now_ms)
    as (_ & Hup & Hdown & Hc & Ht & Htt & _).
  unfold steady. rewrite Hup, Hdown, Hc, Ht, Htt. exact Hs.
Qed.

Lemma detect_steady (self : t) (offset timestamp_delta_ms : R)
    (num_of_deltas : Z) (now_ms : R) :
  steady self ->
  steady (fst (detect self offset timestamp_delta_ms num_of_deltas now_ms)).
Proof.
  intros (Hup & Hdown & Htt & Hc & Hnone). unfold detect.
  destruct (num_of_deltas <? 2)%Z; cbn [fst]; [repeat split; assumption|].
  apply update_threshold_steady.
  repeat match goal with
         | |- context [if ?b then _ else _] => destruct b
         end;
    unfold steady; cbn; repeat split; try assumption; try lia;
    intros; congruence.
Qed.

Lemma init_steady : steady init.
Proof. unfold steady, init; cbn. repeat split; lia. Qed.

Lemma run_steady (calls : list Call) :
  forall self, steady self -> steady (run self calls).
Proof.
  induction calls as [|c rest IH]; intros self Hs; [exact Hs|].
  cbn [run fold_left]. apply IH. destruct c; cbn [step].
  - now apply detect_steady.
  - now apply update_threshold_steady.
Qed.

(** X7: whatever calls a new detector has seen, its gains are still 0.0087
    and 0.039 and its overuse time threshold is still 10, its counter of
    overuse samples is not negative, and the counter is 0 whenever no
    overuse time is recorded. *)
Theorem detector_constants_and_counter (calls : list Call) :
  let self := run init calls in
  k_up self = 87 / 10000 /\
  k_down self = 39 / 1000 /\
  overuse_time_threshold self = 10 /\
  (0 <= overuse_counter self)%Z /\
  (overuse_time self = None -> overuse_counter self = 0%Z).
Proof. exact (run_steady calls init init_steady). Qed.

Lemma detector_constants_and_counter_witness :
  let self := run init [Detect 1 20 5 100; Detect (-1) 20 6 120] in
  k_up self = 87 / 10000 /\
  k_down self = 39 / 1000 /\
  overuse_time_threshold self = 10 /\
  (0 <= overuse_counter self)%Z /\
  (overuse_time self = None -> overuse_counter self = 0%Z).
Proof.
  exact (detector_constants_and_counter [Detect 1 20 5 100; Detect (-1) 20 6 120]).
Defined.

(** X8: with at least two deltas, [detect] on a detector with a threshold in
    [6, 600] decides by [T = min(num_of_deltas, 60) * offset] against the
    threshold it had before the call: below [-threshold] the hypothesis
    becomes UNDERUSING, within [-threshold, threshold] it becomes NORMAL, in
    both cases with the counter and the overuse time cleared, and above
    [threshold] it becomes OVERUSING or stays as it was.  The value
    returned is the new hypothesis, and the call records the offset and the
    time. *)
Theorem detect_classifies (self : t) (offset timestamp_delta_ms : R)
    (num_of_deltas : Z) (now_ms : R) :
  threshold_bounded self ->
  (2 <= num_of_deltas)%Z ->
  let T := IZR (Z.min num_of_deltas MIN_NUM_DELTAS) * offset in
  let r := detect self offset timestamp_delta_ms num_of_deltas now_ms in
  snd r = hypothesis (fst r) /\
  previous_offset (fst r) = offset /\
  last_update_ms (fst r) = Some now_ms /\
  (T < - threshold self ->
   snd r = UNDERUSING /\ overuse_counter (fst r) = 0%Z /\
   overuse_time (fst r) = None) /\
  (- threshold self <= T <= threshold self ->
   snd r = NORMAL /\ overuse_counter (fst r) = 0%Z /\
   overuse_time (fst r) = None) /\
  (threshold self < T -> snd r = OVERUSING \/ snd r = hypothesis self).
Proof.
  intros [Hlo Hhi] Hn T r. subst r. unfold detect.
  replace (num_of_deltas <? 2)%Z with false by (symmetry; apply Z.ltb_ge; lia).
  fold T. cbn [fst snd].
  set (self1 := if Rltb (threshold self) T then _ else _).
  destruct (update_threshold_frame (set_previous_offset self1 offset) T now_ms)
    as (Hh & _ & _ & Hc & Ht & _ & Hp & Hl).
  rewrite Hh, Hc, Ht, Hp, Hl.
  cbn [hypothesis overuse_counter overuse_time previous_offset set_previous_offset].
  split; [reflexivity|]. split; [reflexivity|]. split; [reflexivity|].
  subst self1.
  destruct (Rltb_spec (threshold self) T) as [Hover|Hnot].
  - split; [intros; lra|]. split; [intros; lra|]. intros _.
    match goal with
    | |- context [if ?b then _ else _] => destruct b
    end; cbn; auto.
  - destruct (Rltb_spec T (- threshold self)) as [Hunder|Hmid]; cbn.
    + split; [auto|]. split; [intros; lra|]. intros; lra.
    + split; [intros; lra|]. split; [auto|]. intros; lra.
Qed.

Lemma detect_classifies_witness :
  let T := IZR (Z.min 5 MIN_NUM_DELTAS) * (-4) in
  let r := detect init (-4) 20 5 100 in
  snd r = hypothesis (fst r) /\
  previous_offset (fst r) = -4 /\
  last_update_ms (fst r) = Some 100 /\
  (T < - threshold init ->
   snd r = UNDERUSING /\ overuse_counter (fst r) = 0%Z /\
   overuse_time (fst r) = None) /\
  (- threshold init <= T <= threshold init ->
   snd r = NORMAL /\ overuse_counter (fst r) = 0%Z /\
   overuse_time (fst r) = None) /\
  (threshold init < T -> snd r = OVERUSING \/ snd r = hypothesis init).
Proof.
  apply (detect_classifies init (-4) 20 5 100).
  - apply init_bounded.
  - lia.
Defined.

(** X9: [detect] turns a hypothesis that was not OVERUSING into OVERUSING
    only on a sample above the threshold that is not the first of its run:
    there are at least two deltas, [T] exceeds the threshold, the counter
    already held an earlier overuse sample, the overuse time accumulated
    with this sample exceeds the time threshold, and the offset has not
    decreased.  The call then restarts the counter and the overuse time. *)
Theorem overusing_needs_repeated_overuse (self : t)
    (offset timestamp_delta_ms : R) (num_of_deltas : Z) (now_ms : R) :
  hypothesis self <> OVERUSING ->
  hypothesis (fst (detect self offset timestamp_delta_ms num_of_deltas now_ms))
  = OVERUSING ->
  (2 <= num_of_deltas)%Z /\
  threshold self < IZR (Z.min num_of_deltas MIN_NUM_DELTAS) * offset /\
  (1 <= overuse_counter self)%Z /\
  overuse_time_threshold self <
  match overuse_time self with
  | None => timestamp_delta_ms / 2
  | Some ot => ot + timestamp_delta_ms
  end /\
  previous_offset self <= offset /\
  overuse_counter
    (fst (detect self offset timestamp_delta_ms num_of_deltas now_ms)) = 0%Z /\
  overuse_time
    (fst (detect self offset timestamp_delta_ms num_of_deltas now_ms)) = Some 0.
Proof.
  intros Hnot. unfold detect.
  destruct (Z.ltb_spec num_of_deltas 2) as [Hn|Hn]; cbn [fst]; [congruence|].
  set (T := IZR (Z.min num_of_deltas MIN_NUM_DELTAS) * offset).
  set (self1 := if Rltb (threshold self) T then _ else _).
  destruct (update_threshold_frame (set_previous_offset self1 offset) T now_ms)
    as (Hh & _ & _ & Hc & Ht & _).
  rewrite Hh, Hc, Ht.
  cbn [hypothesis overuse_counter overuse_time set_previous_offset].
  subst self1.
  destruct (Rltb_spec (threshold self) T) as [Hover|_].
  - destruct (Rltb_spec (overuse_time_threshold self)
                match overuse_time self with
                | None => timestamp_delta_ms / 2
                | Some ot => ot + timestamp_delta_ms
                end) as [Htime|_]; cbn [andb]; [|cbn; congruence].
    destruct (Z.ltb_spec 1 (overuse_counter self + 1)) as [Hcount|_];
      cbn [andb]; [|cbn; congruence].
    destruct (Rleb_spec (previous_offset self) offset) as [Hoff|_];
      [|cbn; congruence].
    cbn. intros _. repeat split; try assumption; lia.
  - destruct (Rltb T (- threshold self)); cbn; congruence.
Qed.

Lemma overusing_needs_repeated_overuse_witness :
  (2 <= 60)%Z /\
  threshold one_overuse < IZR (Z.min 60 MIN_NUM_DELTAS) * 1 /\
  (1 <= overuse_counter one_overuse)%Z /\
  overuse_time_threshold one_overuse <
  match overuse_time one_overuse with
  | None => 20 / 2
  | Some ot => ot + 20
  end /\
  previous_offset one_overuse <= 1 /\
  overuse_counter (fst (detect one_overuse 1 20 60 120)) = 0%Z /\
  overuse_time (fst (detect one_overuse 1 20 60 120)) = Some 0.
Proof.
  apply (overusing_needs_repeated_overuse one_overuse 1 20 60 120).
  - cbn. discriminate.
  - unfold detect, one_overuse.
    cbn [Z.ltb Z.compare Pos.compare Pos.compare_cont Z.min MIN_NUM_DELTAS
         threshold overuse_time overuse_counter overuse_time_threshold
         previous_offset Z.add Pos.add Pos.succ andb].
    rewrite (Rltb_true (125 / 10) (60 * 1)) by lra.
    rewrite (Rltb_true 10 (10 + 20)) by lra.
    replace (Rleb 1 1) with true
      by (symmetry; destruct (Rleb_spec 1 1); [reflexivity | lra]).
    cbn [andb fst].
    destruct (update_threshold_frame
                (set_previous_offset
                   (set_overuse
                      {| hypothesis := NORMAL; last_update_ms := Some 100;
                         k_up := 87 / 10000; k_down := 39 / 1000;
                         overuse_counter := 1; overuse_time := Some 10;
                         overuse_time_threshold := 10; previous_offset := 1;
                         threshold := 125 / 10 |} 0 (Some 0) OVERUSING) 1)
                (60 * 1) 120) as (-> & _).
    reflexivity.
Defined.

(** X10: [update_threshold] moves the threshold towards [|modified_offset|]
    and never away from it.  On a detector that calls from [__init__] have
    produced, with [last_update_ms] set and not after [now_ms], and
    [|modified_offset| <= threshold + 15]: when [|modified_offset|] is below
    the threshold the new threshold is not above the old one, and otherwise
    it is not below the old one. *)
Theorem threshold_adapts_towards_offset (calls : list Call)
    (last modified_offset now_ms : R) :
  let self := run init calls in
  last_update_ms self = Some last ->
  last <= now_ms ->
  Rabs modified_offset <= threshold self + 15 ->
  let self' := update_threshold self modified_offset now_ms in
  (Rabs modified_offset < threshold self -> threshold self' <= threshold self) /\
  (threshold self <= Rabs modified_offset -> threshold self <= threshold self').
Proof.
  intros self Hlast Htime Hnear self'.
  pose proof (run_bounded calls init init_bounded) as [Hlo Hhi].
  pose proof (run_steady calls init init_steady) as (Hup & Hdown & _).
  fold self in Hlo, Hhi, Hup, Hdown.
  subst self'. unfold update_threshold. rewrite Hlast.
  rewrite Rltb_false by (unfold MAX_ADAPT_OFFSET_MS; lra).
  cbn [threshold set_threshold]. rewrite Hup, Hdown.
  set (dt := Rmin (now_ms - last) 100).
  assert (Hdt : 0 <= dt) by (unfold dt; apply Rmin_glb; lra).
  split; intros Hcmp.
  - rewrite Rltb_true by exact Hcmp.
    apply Rmax_lub; [exact Hlo|].
    eapply Rle_trans; [apply Rmin_l|].
    assert (0 <= 39 / 1000 * (threshold self - Rabs modified_offset) * dt).
    { apply Rmult_le_pos; [|exact Hdt]. apply Rmult_le_pos; lra. }
    lra.
  - rewrite Rltb_false by exact Hcmp.
    eapply Rle_trans; [|apply Rmax_r].
    apply Rmin_glb; [|exact Hhi].
    assert (0 <= 87 / 10000 * (Rabs modified_offset - threshold self) * dt).
    { apply Rmult_le_pos; [|exact Hdt]. apply Rmult_le_pos; lra. }
    lra.
Qed.

Lemma threshold_adapts_towards_offset_witness :
  let self := run init [UpdateThreshold 0 100] in
  let self' := update_threshold self 20 150 in
  (Rabs 20 < threshold self -> threshold self' <= threshold self) /\
  (threshold self <= Rabs 20 -> threshold self <= threshold self').
Proof.
  apply (threshold_adapts_towards_offset [UpdateThreshold 0 100] 100 20 150).
  - unfold run, fold_left, step.
    exact (proj2 (proj2 (proj2 (proj2 (proj2 (proj2 (proj2
             (update_threshold_frame init 0 100)))))))).
  - lra.
  - pose proof (run_bounded [UpdateThreshold 0 100] init init_bounded) as [Hlo _].
    rewrite Rabs_right by lra. lra.
Defined.

(** X26: the adaptation does not catch up after a stall: once 100 ms or
    more have passed since [last_update_ms], the threshold that
    [update_threshold] computes no longer depends on how long the stall
    was. *)
Theorem adaptation_time_is_capped (self : t) (last modified_offset now1 now2 : R) :
  last_update_ms self = Some last ->
  last + 100 <= now1 ->
  last + 100 <= now2 ->
  threshold (update_threshold self modified_offset now1) =
  threshold (update_threshold self modified_offset now2) /\
  threshold (update_threshold self modified_offset now1) =
  threshold (update_threshold self modified_offset (last + 100)).
Proof.
  intros Hlast H1 H2.
  assert (Hcap : forall now, last + 100 <= now ->
            threshold (update_threshold self modified_offset now) =
            threshold (update_threshold self modified_offset (last + 100))).
  { intros now Hnow. unfold update_threshold. rewrite Hlast.
    destruct (Rltb _ (Rabs modified_offset)); [reflexivity|].
    cbn [threshold set_threshold].
    rewrite (Rmin_right (now - last) 100) by lra.
    rewrite (Rmin_right (last + 100 - last) 100) by lra.
    reflexivity. }
  split; [|now apply Hcap].
  rewrite (Hcap now1 H1), (Hcap now2 H2). reflexivity.
Qed.

Lemma adaptation_time_is_capped_witness :
  threshold (update_threshold one_overuse 5 250) =
  threshold (update_threshold one_overuse 5 9000) /\
  threshold (update_threshold one_overuse 5 250) =
  threshold (update_threshold one_overuse 5 (100 + 100)).
Proof.
  apply (adaptation_time_is_capped one_overuse 100 5 250 9000).
  - reflexivity.
  - lra.
  - lra.
Defined.

End OveruseDetectorDecisions.

(** ** OveruseEstimator: counters, history and estimate *)

Section OveruseEstimatorState.

Import OveruseEstimator.
Local Open Scope R_scope.

Lemma update_noise_estimate_frame (self : t) (res ts_delta : R) :
  let self' := update_noise_estimate self res ts_delta in
  E self' = E self /\ num_of_deltas self' = num_of_deltas self /\
  offset self' = offset self /\ previous_offset self' = previous_offset self /\
  slope self' = slope self /\ ts_delta_hist self' = ts_delta_hist self /\
  process_noise self' = process_noise self.
Proof. cbn. repeat split. Qed.

Lemma clamp_noise_frame (self self' : t) (hyp : BandwidthUsage) (res mfp : R) :
  clamp_noise self hyp res mfp = Ok self' ->
  E self' = E self /\ num_of_deltas self' = num_of_deltas self /\
  offset self' = offset self /\ previous_offset self' = previous_offset self /\
  slope self' = slope self /\ ts_delta_hist self' = ts_delta_hist self /\
  process_noise self' = process_noise self /\
  (hyp <> NORMAL -> avg_noise self' = avg_noise self /\
                    var_noise self' = var_noise self).
Proof.
  unfold clamp_noise. destruct hyp.
  - destruct (py_sqrt (var_noise self)) as [root| |]; cbn [bind]; try discriminate.
    destruct (Rltb (Rabs res) (3 * root)); intros [= <-];
      (split; [|split; [|split; [|split; [|split; [|split; [|split]]]]]]);
      try reflexivity; congruence.
  - intros [= <-]. repeat split.
  - intros [= <-]. repeat split.
Qed.

(** The fields of the filter when [update] reaches the Kalman gain. *)
Lemma innovation_frame (self : t) (time_delta_ms timestamp_delta_ms size_delta : R)
    (hyp : BandwidthUsage) (i : Innovation) :
  innovation self time_delta_ms timestamp_delta_ms size_delta hyp = Ok i ->
  num_of_deltas (filter i) = Z.min (num_of_deltas self + 1) DELTA_COUNTER_MAX /\
  ts_delta_hist (filter i) =
  ts_delta_hist (fst (update_min_frame_period self timestamp_delta_ms)) /\
  offset (filter i) = offset self /\
  slope (filter i) = slope self /\
  process_noise (filter i) = process_noise self /\
  residual i =
  time_delta_ms - timestamp_delta_ms - slope self * size_delta - offset self /\
  (hyp <> NORMAL -> avg_noise (filter i) = avg_noise self /\
                    var_noise (filter i) = var_noise self).
Proof.
  unfold innovation.
  destruct (update_min_frame_period self timestamp_delta_ms) as [s1 mfp] eqn:Hmfp.
  assert (Hs1 : s1 = fst (update_min_frame_period self timestamp_delta_ms))
    by now rewrite Hmfp.
  destruct (clamp_noise (inflate s1 hyp) hyp _ mfp) as [s3| |] eqn:Hclamp;
    cbn [bind]; try discriminate.
  intros [= <-]. cbn [filter residual fst].
  destruct (clamp_noise_frame _ _ _ _ _ Hclamp)
    as (_ & Hn & Ho & _ & Hs & Hh & Hp & Hnoise).
  rewrite Hn, Ho, Hs, Hh, Hp.
  assert (Hfields : num_of_deltas s1 = num_of_deltas self /\
                    offset s1 = offset self /\ slope s1 = slope self /\
                    process_noise s1 = process_noise self /\
                    avg_noise s1 = avg_noise self /\
                    var_noise s1 = var_noise self).
  { rewrite Hs1. cbn. repeat split. }
  destruct Hfields as (Hn1 & Ho1 & Hs1' & Hp1 & Ha1 & Hv1).
  cbn [inflate num_of_deltas offset slope ts_delta_hist process_noise
       avg_noise var_noise].
  rewrite Hn1, Ho1, Hs1', Hp1.
  do 6 (split; [reflexivity|]).
  intros Hhyp. destruct (Hnoise Hhyp) as [Ha Hv].
  rewrite Ha, Hv. cbn [inflate avg_noise var_noise]. now rewrite Ha1, Hv1.
Qed.

(** The fields that a call of [update] leaves, the covariance apart. *)
Lemma update_frame (self self' : t) (time_delta_ms timestamp_delta_ms size_delta : R)
    (hyp : BandwidthUsage) (now_ms : R) :
  update self time_delta_ms timestamp_delta_ms size_delta hyp now_ms = Ok self' ->
  num_of_deltas self' = Z.min (num_of_deltas self + 1) DELTA_COUNTER_MAX /\
  ts_delta_hist self' =
  ts_delta_hist (fst (update_min_frame_period self timestamp_delta_ms)) /\
  previous_offset self' = offset self /\
  process_noise self' = process_noise self /\
  (exists K0 K1,
     slope self' = slope self + K0 * (time_delta_ms - timestamp_delta_ms
                                      - slope self * size_delta - offset self) /\
     offset self' = offset self + K1 * (time_delta_ms - timestamp_delta_ms
                                        - slope self * size_delta - offset self)) /\
  (hyp <> NORMAL -> avg_noise self' = avg_noise self /\
                    var_noise self' = var_noise self).
Proof.
  unfold update.
  destruct (innovation self time_delta_ms timestamp_delta_ms size_delta hyp)
    as [i| |] eqn:Hi; cbn [bind]; try discriminate.
  destruct (innovation_frame _ _ _ _ _ _ Hi) as (Hn & Hh & Ho & Hs & Hp & Hr & Hnoise).
  destruct (py_div (Eh0 i) (denom i)) as [K0| |]; cbn [bind]; try discriminate.
  destruct (py_div (Eh1 i) (denom i)) as [K1| |]; cbn [bind]; try discriminate.
  intros [= <-].
  cbn [num_of_deltas ts_delta_hist previous_offset process_noise slope offset
       avg_noise var_noise].
  rewrite Hn, Hh, Ho, Hs, Hp, Hr.
  split; [reflexivity|]. split; [reflexivity|]. split; [reflexivity|].
  split; [reflexivity|]. split; [|exact Hnoise].
  exists K0, K1. split; reflexivity.
Qed.

Lemma tl_skipn {A : Type} (n : nat) :
  forall l : list A, tl (skipn n l) = skipn (S n) l.
Proof.
  induction n as [|n IH]; intros [|x l]; try reflexivity.
  cbn [skipn]. rewrite IH. reflexivity.
Qed.

(** Appending to a bounded history: drop the oldest entry when it is full. *)
Lemma last_entries_snoc {A : Type} (n : nat) (l : list A) (x : A) :
  (1 <= n)%nat ->
  last_entries n (l ++ [x]) =
  (if (n <=? length (last_entries n l))%nat
   then tl (last_entries n l) else last_entries n l) ++ [x].
Proof.
  intros Hn. unfold last_entries.
  rewrite length_skipn, length_app. cbn [length].
  destruct (Nat.leb_spec n (length l - (length l - n))) as [Hfull|Hroom].
  - rewrite tl_skipn, skipn_app.
    replace (length l + 1 - n)%nat with (S (length l - n)) by lia.
    replace (S (length l - n) - length l)%nat with 0%nat by lia.
    reflexivity.
  - replace (length l + 1 - n)%nat with 0%nat by lia.
    replace (length l - n)%nat with 0%nat by lia.
    reflexivity.
Qed.

(** The counter and the history after a run, from a filter whose history is
    the tail of some sequence. *)
Lemma run_counts (calls : list Args) :
  forall (self : t) (earlier : list R),
    invariant self ->
    (0 <= num_of_deltas self <= DELTA_COUNTER_MAX)%Z ->
    ts_delta_hist self = last_entries MIN_FRAME_PERIOD_HISTORY_LENGTH earlier ->
    exists self',
      run self calls = Ok self' /\
      num_of_deltas self' =
      Z.min (num_of_deltas self + Z.of_nat (length calls)) DELTA_COUNTER_MAX /\
      ts_delta_hist self' =
      last_entries MIN_FRAME_PERIOD_HISTORY_LENGTH
        (earlier ++ map a_timestamp_delta_ms calls).
Proof.
  induction calls as [|a rest IH]; intros self earlier Hinv Hn Hhist.
  - exists self. split; [reflexivity|]. cbn [length map]. rewrite app_nil_r.
    split; [|exact Hhist]. unfold DELTA_COUNTER_MAX in *. lia.
  - destruct (update_invariant self (a_time_delta_ms a) (a_timestamp_delta_ms a)
                (a_size_delta a) (a_hypothesis a) (a_now_ms a) Hinv)
      as (s1 & Hcall & Hinv1).
    destruct (update_frame _ _ _ _ _ _ _ Hcall) as (Hn1 & Hh1 & _).
    destruct (IH s1 (earlier ++ [a_timestamp_delta_ms a]) Hinv1)
      as (s2 & Hrun & Hn2 & Hh2).
    + rewrite Hn1. unfold DELTA_COUNTER_MAX in *. lia.
    + rewrite Hh1. cbn [update_min_frame_period fst ts_delta_hist].
      rewrite Hhist. symmetry. apply last_entries_snoc.
      unfold MIN_FRAME_PERIOD_HISTORY_LENGTH. lia.
    + exists s2. split; [cbn [run]; unfold call; rewrite Hcall; exact Hrun|].
      split.
      * rewrite Hn2, Hn1. cbn [length]. unfold DELTA_COUNTER_MAX in *. lia.
      * rewrite Hh2, <- app_assoc. reflexivity.
Qed.

(** X11: in exact real arithmetic (where no call raises), after [n] calls
    of [update] a new estimator reports [num_of_deltas() = min(n, 1000)]:
    the counter counts every call and saturates at 1000. *)
Theorem num_of_deltas_counts_calls (calls : list Args) :
  exists self,
    run init calls = Ok self /\
    num_of_deltas self = Z.min (Z.of_nat (length calls)) DELTA_COUNTER_MAX.
Proof.
  destruct (run_counts calls init [] init_invariant) as (self & Hrun & Hn & _).
  - cbn. unfold DELTA_COUNTER_MAX. lia.
  - reflexivity.
  - exists self. split; [exact Hrun|]. rewrite Hn. reflexivity.
Qed.

(** X12: the history of timestamp deltas of an estimator is a queue of at
    most 60 entries: in exact real arithmetic (where no call raises), after
    any calls of [update] on a new estimator it holds the timestamp deltas
    of the last 60 calls, oldest first. *)
Theorem history_keeps_last_60 (calls : list Args) :
  exists self,
    run init calls = Ok self /\
    ts_delta_hist self =
    last_entries 60 (map a_timestamp_delta_ms calls) /\
    (length (ts_delta_hist self) <= 60)%nat.
Proof.
  destruct (run_counts calls init [] init_invariant) as (self & Hrun & _ & Hh).
  - cbn. unfold DELTA_COUNTER_MAX. lia.
  - reflexivity.
  - exists self. split; [exact Hrun|].
    change MIN_FRAME_PERIOD_HISTORY_LENGTH with 60%nat in Hh.
    cbn [app] in Hh. split; [exact Hh|].
    rewrite Hh. unfold last_entries. rewrite length_skipn. lia.
Qed.

Lemma fold_min_spec (hist : list R) :
  forall x,
    let m := fold_left (fun m old_ts_delta => Rmin old_ts_delta m) hist x in
    (m = x \/ In m hist) /\ m <= x /\ (forall y, In y hist -> m <= y).
Proof.
  induction hist as [|h hist IH]; intros x; cbn [fold_left].
  - split; [now left|]. split; [lra|]. intros y [].
  - destruct (IH (Rmin h x)) as (Hin & Hle & Hall).
    split; [|split].
    + destruct Hin as [Heq|Hin]; [|right; now right].
      rewrite Heq. unfold Rmin. destruct (Rle_dec h x); [right; now left | now left].
    + eapply Rle_trans; [exact Hle | apply Rmin_r].
    + intros y [<-|Hy]; [|now apply Hall].
      eapply Rle_trans; [exact Hle | apply Rmin_l].
Qed.

(** X13: [update_min_frame_period] returns the least entry of the history
    that it leaves, which ends with the new delta and is the old history
    without its oldest entry when that one held 60 entries or more. *)
Theorem min_frame_period_is_minimum (self : t) (ts_delta : R) :
  let r := update_min_frame_period self ts_delta in
  In (snd r) (ts_delta_hist (fst r)) /\
  (forall y, In y (ts_delta_hist (fst r)) -> snd r <= y) /\
  ts_delta_hist (fst r) =
  (if (60 <=? length (ts_delta_hist self))%nat
   then tl (ts_delta_hist self) else ts_delta_hist self) ++ [ts_delta].
Proof.
  unfold update_min_frame_period. cbn [fst snd ts_delta_hist].
  change MIN_FRAME_PERIOD_HISTORY_LENGTH with 60%nat.
  set (hist := if (60 <=? _)%nat then _ else _).
  destruct (fold_min_spec hist ts_delta) as (Hin & Hle & Hall).
  split; [|split; [|reflexivity]].
  - apply in_or_app. destruct Hin as [->|Hin]; [right; now left | now left].
  - intros y Hy. apply in_app_or in Hy. destruct Hy as [Hy|[<-|[]]].
    + now apply Hall.
    + exact Hle.
Qed.







(** X16: only a NORMAL hypothesis lets [update] touch the noise estimate:
    under UNDERUSING or OVERUSING a call that returns leaves [avg_noise] and
    [var_noise] as they were. *)
Theorem noise_estimate_frozen_unless_normal (self self' : t)
    (time_delta_ms timestamp_delta_ms size_delta : R)
    (hyp : BandwidthUsage) (now_ms : R) :
  hyp <> NORMAL ->
  update self time_delta_ms timestamp_delta_ms size_delta hyp now_ms = Ok self' ->
  avg_noise self' = avg_noise self /\ var_noise self' = var_noise self.
Proof.
  intros Hhyp Hup.
  destruct (update_frame _ _ _ _ _ _ _ Hup) as (_ & _ & _ & _ & _ & Hnoise).
  exact (Hnoise Hhyp).
Qed.

Lemma noise_estimate_frozen_unless_normal_witness :
  exists self',
    update init 40 33 120 OVERUSING 1000 = Ok self' /\
    avg_noise self' = avg_noise init /\ var_noise self' = var_noise init.
Proof.
  destruct (update_invariant init 40 33 120 OVERUSING 1000 init_invariant)
    as (self' & Hup & _).
  exists self'. split; [exact Hup|].
  apply (noise_estimate_frozen_unless_normal init self' 40 33 120 OVERUSING 1000).
  - discriminate.
  - exact Hup.
Defined.

End OveruseEstimatorState.

(** ** RateCounter: totals and repeated calls *)

Section RateCounterTotals.

Import RateCounter.

Lemma py_index_nth {A : Type} (l : list A) (i : Z) (a : A) :
  0 <= i -> py_index l i = Ok a -> nth_error l (Z.to_nat i) = Some a.
Proof.
  intros Hi. unfold py_index.
  replace (i <? 0) with false by (symmetry; apply Z.ltb_ge; lia).
  destruct ((0 <=? i) && (i <? Z.of_nat (length l))); [|discriminate].
  destruct (nth_error l (Z.to_nat i)); [congruence | discriminate].
Qed.

Lemma py_replace_nonneg {A : Type} (l : list A) (i : Z) (a : A) :
  0 <= i -> py_replace l i a = replace_nth l (Z.to_nat i) a.
Proof.
  intros Hi. unfold py_replace.
  replace (i <? 0) with false by (symmetry; apply Z.ltb_ge; lia).
  reflexivity.
Qed.

Lemma sum_replace_nth (l : list RateBucket) :
  forall n b b',
    nth_error l n = Some b ->
    sum_count (replace_nth l n b') = sum_count l - count b + count b' /\
    sum_value (replace_nth l n b') = sum_value l - value b + value b'.
Proof.
  induction l as [|x l IH]; intros [|n] b b' Hnth; try discriminate.
  - injection Hnth as ->. cbn. lia.
  - cbn [nth_error] in Hnth. destruct (IH n b b' Hnth) as [Hc Hv].
    cbn [replace_nth sum_count sum_value fold_right] in *.
    fold (sum_count (replace_nth l n b')). fold (sum_value (replace_nth l n b')).
    fold (sum_count l). fold (sum_value l). lia.
Qed.

Lemma sum_repeat_empty (n : nat) :
  sum_count (repeat {| count := 0; value := 0 |} n) = 0 /\
  sum_value (repeat {| count := 0; value := 0 |} n) = 0.
Proof.
  induction n as [|n [Hc Hv]]; [now split|].
  cbn [repeat sum_count sum_value fold_right count value] in *.
  fold (sum_count (repeat {| count := 0; value := 0 |} n)).
  fold (sum_value (repeat {| count := 0; value := 0 |} n)). lia.
Qed.

Lemma erase_bucket_totals (self self' : t) (origin : Z) :
  well_formed self -> totals_match self ->
  erase_bucket self origin = Ok self' ->
  totals_match self' /\ same_config self self'.
Proof.
  intros (Hw & Hlen & Hidx) [Hc Hv]. unfold erase_bucket.
  destruct (py_index (buckets self) (origin_index self)) as [b| |] eqn:Hb;
    cbn [bind]; try discriminate.
  destruct (py_mod (origin_index self + 1) (window_size self)) as [i'| |];
    cbn [bind]; try discriminate.
  intros [= <-]. apply py_index_nth in Hb; [|lia].
  split; [|now split].
  unfold totals_match. cbn [total buckets count value].
  rewrite py_replace_nonneg by lia.
  destruct (sum_replace_nth _ _ _ {| count := 0; value := 0 |} Hb) as [-> ->].
  cbn [count value]. lia.
Qed.

Lemma erase_loop_totals (fuel : nat) :
  forall (self self' : t) (new_origin_ms : Z),
    well_formed self -> totals_match self ->
    erase_loop fuel self new_origin_ms = Ok self' ->
    totals_match self' /\ same_config self self'.
Proof.
  induction fuel as [|fuel IH]; intros self self' new_origin Hwf Hm;
    cbn [erase_loop];
    destruct (num (origin_ms self)) as [origin| |]; cbn [bind]; try discriminate;
    destruct (origin <? new_origin); try discriminate;
    try (intros [= <-]; split; [exact Hm | now split]).
  destruct (erase_bucket self origin) as [s1| |] eqn:Hstep; cbn [bind];
    try discriminate.
  intros Hloop.
  destruct (erase_bucket_totals self s1 origin Hwf Hm Hstep) as [Hm1 [Hs1 Hw1]].
  destruct (erase_bucket_ok self origin Hwf) as (s1' & Hstep' & Hwf1 & _).
  rewrite Hstep in Hstep'. injection Hstep' as <-.
  destruct (IH s1 self' new_origin Hwf1 Hm1 Hloop) as [Hm2 [Hs2 Hw2]].
  split; [exact Hm2|]. split; congruence.
Qed.

Lemma erase_old_totals (self self' : t) (now_ms : Z) :
  well_formed self -> totals_match self ->
  _erase_old self now_ms = Ok self' ->
  totals_match self' /\ same_config self self'.
Proof.
  intros Hwf Hm. unfold _erase_old.
  destruct (num (origin_ms self)) as [origin| |]; cbn [bind]; try discriminate.
  now apply erase_loop_totals.
Qed.

Lemma reset_sound (self : t) :
  0 < window_size self ->
  well_formed (reset self) /\ totals_match (reset self) /\
  same_config self (reset self).
Proof.
  intros Hw. split; [|split; [|now split]].
  - unfold well_formed, reset; cbn. rewrite repeat_length. lia.
  - unfold totals_match, reset; cbn [total buckets count value].
    destruct (sum_repeat_empty (Z.to_nat (window_size self))) as [-> ->].
    now split.
Qed.

Lemma add_sound (self : t) (v now_ms : Z) :
  well_formed self -> totals_match self ->
  exists self',
    add self v now_ms = Ok self' /\
    well_formed self' /\ totals_match self' /\ same_config self self'.
Proof.
  intros Hwf Hm.
  destruct (add_ok self v now_ms Hwf) as (self' & Hadd & Hwf').
  exists self'. split; [exact Hadd|]. split; [exact Hwf'|].
  revert Hadd. unfold add.
  assert (Hstart : forall s1,
             match origin_ms self with
             | None => Ok {| scale := scale self;
                             window_size := window_size self;
                             buckets := buckets self;
                             origin_index := origin_index self;
                             origin_ms := Some now_ms;
                             total := total self |}
             | Some _ => _erase_old self now_ms
             end = Ok s1 ->
             well_formed s1 /\ totals_match s1 /\ same_config self s1).
  { intros s1. destruct (origin_ms self) as [origin|] eqn:Horigin.
    - intros He. destruct (erase_old_ok self origin now_ms Hwf Horigin)
        as (s1' & o1 & He' & Hwf1 & _).
      rewrite He in He'. injection He' as <-.
      destruct (erase_old_totals self s1 now_ms Hwf Hm He) as [Hm1 Hcfg].
      split; [exact Hwf1|]. split; [exact Hm1 | exact Hcfg].
    - intros [= <-]. split; [exact Hwf|]. split; [exact Hm | now split]. }
  destruct (match origin_ms self with None => _ | Some _ => _ end) as [s1| |];
    cbn [bind]; try discriminate.
  destruct (Hstart s1 eq_refl) as ((Hw & Hlen & Hidx) & [Hc Hv] & [Hs1 Hw1]).
  destruct (num (origin_ms s1)) as [o1| |]; cbn [bind]; try discriminate.
  unfold py_mod. destruct (window_size s1 =? 0); cbn [bind]; try discriminate.
  pose proof (Z.mod_pos_bound (origin_index s1 + now_ms - o1) (window_size s1) Hw)
    as Hmod.
  destruct (py_index (buckets s1) _) as [b| |] eqn:Hb; cbn [bind]; try discriminate.
  intros [= <-]. apply py_index_nth in Hb; [|lia].
  split; [|now split].
  unfold totals_match. cbn [total buckets count value].
  rewrite py_replace_nonneg by lia.
  destruct (sum_replace_nth _ _ _
              {| count := count b + 1; value := value b + v |} Hb) as [-> ->].
  cbn [count value]. lia.
Qed.

Lemma rate_sound (self : t) (now_ms : Z) :
  well_formed self -> totals_match self ->
  exists self' r,
    rate self now_ms = Ok (self', r) /\
    well_formed self' /\ totals_match self' /\ same_config self self'.
Proof.
  intros Hwf Hm. unfold rate.
  destruct (origin_ms self) as [origin|] eqn:Horigin.
  - destruct (erase_old_ok self origin now_ms Hwf Horigin)
      as (s1 & o1 & He & Hwf1 & Ho1 & _).
    destruct (erase_old_totals self s1 now_ms Hwf Hm He) as [Hm1 Hcfg].
    rewrite He. cbn [bind]. rewrite Ho1. cbn [num bind].
    destruct ((0 <? count (total s1)) && (1 <? now_ms - o1 + 1));
      eexists _, _; (split; [reflexivity|]);
      (split; [exact Hwf1|]); (split; [exact Hm1 | exact Hcfg]).
  - exists self, None. split; [reflexivity|].
    split; [exact Hwf|]. split; [exact Hm | now split].
Qed.

Lemma run_sound (calls : list Call) :
  forall self,
    well_formed self -> totals_match self ->
    exists self',
      run self calls = Ok self' /\
      well_formed self' /\ totals_match self' /\ same_config self self'.
Proof.
  induction calls as [|c rest IH]; intros self Hwf Hm.
  - exists self. split; [reflexivity|].
    split; [exact Hwf|]. split; [exact Hm | now split].
  - assert (Hstep : exists s1, step self c = Ok s1 /\ well_formed s1 /\
                               totals_match s1 /\ same_config self s1).
    { destruct c as [v now|now|]; cbn [step].
      - now apply add_sound.
      - destruct (rate_sound self now Hwf Hm) as (s1 & r & -> & H).
        exists s1. split; [reflexivity | exact H].
      - exists (reset self). split; [reflexivity|].
        apply reset_sound. apply Hwf. }
    destruct Hstep as (s1 & Hs & Hwf1 & Hm1 & [Hsc1 Hw1]).
    destruct (IH s1 Hwf1 Hm1) as (s2 & Hrun & Hwf2 & Hm2 & [Hsc2 Hw2]).
    exists s2. cbn [run]. rewrite Hs. cbn [bind].
    split; [exact Hrun|]. split; [exact Hwf2|]. split; [exact Hm2|].
    split; congruence.
Qed.

(** X17: on a counter built with a positive window no sequence of [add],
    [rate] and [reset] raises, and after it the rolling total equals the
    sum of the buckets of the ring, in count and in value; the ring keeps
    its [window_size] buckets and the configuration is unchanged. *)
Theorem total_is_sum_of_buckets (window scale : Z) (calls : list Call) :
  0 < window ->
  exists self,
    run (init window scale) calls = Ok self /\
    count (total self) = sum_count (buckets self) /\
    value (total self) = sum_value (buckets self) /\
    Z.of_nat (length (buckets self)) = window /\
    window_size self = window /\ RateCounter.scale self = scale.
Proof.
  intros Hw.
  destruct (run_sound calls (init window scale)) as (self & Hrun & Hwf & Hm & Hcfg).
  - now apply init_well_formed.
  - apply (reset_sound {| scale := scale; window_size := window; buckets := [];
                          origin_index := 0; origin_ms := None;
                          total := {| count := 0; value := 0 |} |}). exact Hw.
  - exists self. split; [exact Hrun|].
    destruct Hm as [Hc Hv]. destruct Hcfg as [Hs Hws].
    destruct Hwf as (_ & Hlen & _). cbn in Hs, Hws.
    repeat split; try assumption; congruence.
Qed.

Lemma total_is_sum_of_buckets_witness :
  exists self,
    run (init 10 8000) [Add 100 5; Add 50 7; Rate 15; Reset; Add 7 30] = Ok self /\
    count (total self) = sum_count (buckets self) /\
    value (total self) = sum_value (buckets self) /\
    Z.of_nat (length (buckets self)) = 10 /\
    window_size self = 10 /\ RateCounter.scale self = 8000.
Proof.
  apply (total_is_sum_of_buckets 10 8000
           [Add 100 5; Add 50 7; Rate 15; Reset; Add 7 30]).
  lia.
Defined.

Lemma erase_loop_config (fuel : nat) :
  forall (self self' : t) (new_origin_ms : Z),
    erase_loop fuel self new_origin_ms = Ok self' -> same_config self self'.
Proof.
  induction fuel as [|fuel IH]; intros self self' new_origin;
    cbn [erase_loop];
    destruct (num (origin_ms self)) as [origin| |]; cbn [bind]; try discriminate;
    destruct (origin <? new_origin); try discriminate;
    try (intros [= <-]; now split).
  unfold erase_bucket.
  destruct (py_index (buckets self) (origin_index self)) as [b| |];
    cbn [bind]; try discriminate.
  destruct (py_mod (origin_index self + 1) (window_size self)) as [i'| |];
    cbn [bind]; try discriminate.
  intros Hloop. apply IH in Hloop. destruct Hloop as [Hs Hw]. cbn in Hs, Hw.
  now split.
Qed.

(** A counter whose origin is inside the window is left alone. *)
Lemma erase_old_nothing (self : t) (origin now_ms : Z) :
  origin_ms self = Some origin ->
  now_ms - window_size self + 1 <= origin ->
  _erase_old self now_ms = Ok self.
Proof.
  intros Horigin Hin. unfold _erase_old. rewrite Horigin. cbn [num bind].
  replace (Z.to_nat (now_ms - window_size self + 1 - origin)) with 0%nat by lia.
  cbn [erase_loop]. rewrite Horigin. cbn [num bind].
  replace (origin <? now_ms - window_size self + 1) with false
    by (symmetry; apply Z.ltb_ge; lia).
  reflexivity.
Qed.

(** X18: asking for the rate twice at one time is asking once: on a
    well-formed counter the second [rate(now_ms)] returns the value of the
    first and leaves the counter that the first call left. *)
Theorem rate_is_idempotent (self self' : t) (now_ms : Z) (r : option Z) :
  well_formed self ->
  rate self now_ms = Ok (self', r) ->
  rate self' now_ms = Ok (self', r).
Proof.
  intros Hwf Hrate. pose proof Hrate as Hfirst. revert Hrate. unfold rate.
  destruct (origin_ms self) as [origin|] eqn:Horigin.
  - destruct (erase_old_ok self origin now_ms Hwf Horigin)
      as (s1 & o1 & He & Hwf1 & Ho1 & Hmax).
    rewrite He. cbn [bind]. rewrite Ho1. cbn [num bind].
    assert (Hcfg : window_size s1 = window_size self).
    { unfold _erase_old in He. rewrite Horigin in He. cbn [num bind] in He.
      apply erase_loop_config in He. symmetry. apply He. }
    assert (Hagain : _erase_old s1 now_ms = Ok s1).
    { apply (erase_old_nothing s1 o1); [exact Ho1|]. rewrite Hcfg. lia. }
    intros Hres.
    assert (Hs : self' = s1).
    { destruct ((0 <? count (total s1)) && (1 <? now_ms - o1 + 1));
        now injection Hres. }
    subst self'. rewrite Ho1, Hagain. cbn [bind]. rewrite Ho1. cbn [num bind].
    exact Hres.
  - intros [= <- <-]. rewrite Horigin. reflexivity.
Qed.

Lemma rate_is_idempotent_witness :
  rate
    {| scale := 8000; window_size := 10;
       buckets := [ {| count := 0; value := 0 |}; {| count := 0; value := 0 |};
                    {| count := 1; value := 50 |}; {| count := 0; value := 0 |};
                    {| count := 0; value := 0 |}; {| count := 0; value := 0 |};
                    {| count := 0; value := 0 |}; {| count := 0; value := 0 |};
                    {| count := 0; value := 0 |}; {| count := 0; value := 0 |} ];
       origin_index := 1; origin_ms := Some 6;
       total := {| count := 1; value := 50 |} |} 15
  = Ok ({| scale := 8000; window_size := 10;
           buckets := [ {| count := 0; value := 0 |}; {| count := 0; value := 0 |};
                        {| count := 1; value := 50 |}; {| count := 0; value := 0 |};
                        {| count := 0; value := 0 |}; {| count := 0; value := 0 |};
                        {| count := 0; value := 0 |}; {| count := 0; value := 0 |};
                        {| count := 0; value := 0 |}; {| count := 0; value := 0 |} ];
           origin_index := 1; origin_ms := Some 6;
           total := {| count := 1; value := 50 |} |}, Some 40000).
Proof.
  apply (rate_is_idempotent started_counter _ 15 (Some 40000)).
  - unfold well_formed, started_counter; cbn. lia.
  - vm_compute. reflexivity.
Defined.

(** X19: a counter with a window of at least 2 ms that holds one sample,
    added at [t], has no rate at [t] itself, where the active window is 1
    ms, and at [t + 1] its rate is the sample scaled and divided by the 2 ms
    that have passed, not by the window. *)
Theorem rate_after_first_sample (window factor v t : Z) :
  2 <= window ->
  exists self,
    add (init window factor) v t = Ok self /\
    rate self t = Ok (self, None) /\
    rate self (t + 1) =
    Ok (self, Some (py_round (inject_Z (factor * v) / inject_Z 2))).
Proof.
  intros Hw.
  assert (Hwf : well_formed (init window factor)) by (apply init_well_formed; lia).
  destruct (add_ok (init window factor) v t Hwf) as (self & Hadd & Hwf1).
  exists self. split; [exact Hadd|].
  assert (Hfields : origin_ms self = Some t /\ window_size self = window /\
                    scale self = factor /\
                    total self = {| count := 1; value := v |}).
  { revert Hadd. unfold add, init, reset.
    cbn [origin_ms bind num origin_index window_size buckets total scale
         count value].
    unfold py_mod. destruct (window =? 0); cbn [bind]; try discriminate.
    destruct (py_index _ _) as [b| |]; cbn [bind]; try discriminate.
    intros [= <-]. cbn. repeat split. }
  destruct Hfields as (Ho & Hws & Hsc & Htot).
  split; unfold rate; rewrite Ho.
  - rewrite (erase_old_nothing self t t Ho) by lia.
    cbn [bind]. rewrite Ho. cbn [num bind].
    replace (1 <? t - t + 1) with false by (symmetry; apply Z.ltb_ge; lia).
    now rewrite andb_false_r.
  - rewrite (erase_old_nothing self t (t + 1) Ho) by lia.
    cbn [bind]. rewrite Ho. cbn [num bind].
    rewrite Htot, Hsc. cbn [count value].
    replace (t + 1 - t + 1) with 2 by lia. reflexivity.
Qed.

Lemma rate_after_first_sample_witness :
  exists self,
    add (init 1000 8000) 1200 5 = Ok self /\
    rate self 5 = Ok (self, None) /\
    rate self (5 + 1) =
    Ok (self, Some (py_round (inject_Z (8000 * 1200) / inject_Z 2))).
Proof.
  apply (rate_after_first_sample 1000 8000 1200 5). lia.
Defined.

Lemma Forall_replace_nth {A : Type} (P : A -> Prop) (l : list A) :
  forall n a, Forall P l -> P a -> Forall P (replace_nth l n a).
Proof.
  induction l as [|x l IH]; intros [|n] a Hl Ha; cbn [replace_nth];
    try constructor; inversion Hl; subst; auto.
Qed.

Lemma sum_nonneg (l : list RateBucket) :
  Forall nonneg_bucket l -> 0 <= sum_count l /\ 0 <= sum_value l.
Proof.
  induction 1 as [|b l [Hc Hv] _ [IHc IHv]]; [cbn; lia|].
  cbn [sum_count sum_value fold_right].
  fold (sum_count l). fold (sum_value l). lia.
Qed.

Lemma erase_loop_nonneg (fuel : nat) :
  forall (self self' : t) (new_origin_ms : Z),
    Forall nonneg_bucket (buckets self) ->
    erase_loop fuel self new_origin_ms = Ok self' ->
    Forall nonneg_bucket (buckets self').
Proof.
  induction fuel as [|fuel IH]; intros self self' new_origin Hnn;
    cbn [erase_loop];
    destruct (num (origin_ms self)) as [origin| |]; cbn [bind]; try discriminate;
    destruct (origin <? new_origin); try discriminate;
    try (intros [= <-]; exact Hnn).
  unfold erase_bucket.
  destruct (py_index (buckets self) (origin_index self)) as [b| |];
    cbn [bind]; try discriminate.
  destruct (py_mod (origin_index self + 1) (window_size self)) as [i'| |];
    cbn [bind]; try discriminate.
  apply IH. cbn [buckets]. unfold py_replace.
  apply Forall_replace_nth; [exact Hnn|]. split; cbn; lia.
Qed.

Lemma erase_old_nonneg (self self' : t) (now_ms : Z) :
  Forall nonneg_bucket (buckets self) ->
  _erase_old self now_ms = Ok self' ->
  Forall nonneg_bucket (buckets self').
Proof.
  intros Hnn. unfold _erase_old.
  destruct (num (origin_ms self)) as [origin| |]; cbn [bind]; try discriminate.
  now apply erase_loop_nonneg.
Qed.

Lemma step_nonneg (self self' : t) (c : Call) :
  nonneg_call c ->
  Forall nonneg_bucket (buckets self) ->
  step self c = Ok self' ->
  Forall nonneg_bucket (buckets self').
Proof.
  intros Hc Hnn. destruct c as [v now|now|]; cbn [step nonneg_call] in *.
  - unfold add.
    assert (Hstart : forall s1,
               match origin_ms self with
               | None => Ok {| scale := scale self;
                               window_size := window_size self;
                               buckets := buckets self;
                               origin_index := origin_index self;
                               origin_ms := Some now;
                               total := total self |}
               | Some _ => _erase_old self now
               end = Ok s1 -> Forall nonneg_bucket (buckets s1)).
    { intros s1. destruct (origin_ms self).
      - now apply erase_old_nonneg.
      - intros [= <-]. exact Hnn. }
    destruct (match origin_ms self with None => _ | Some _ => _ end) as [s1| |];
      cbn [bind]; try discriminate.
    specialize (Hstart s1 eq_refl).
    destruct (num (origin_ms s1)) as [o1| |]; cbn [bind]; try discriminate.
    destruct (py_mod _ (window_size s1)) as [idx| |]; cbn [bind]; try discriminate.
    destruct (py_index (buckets s1) idx) as [b| |] eqn:Hb; cbn [bind];
      try discriminate.
    intros [= <-]. cbn [buckets]. unfold py_replace.
    apply Forall_replace_nth; [exact Hstart|].
    assert (Hbn : nonneg_bucket b).
    { unfold py_index in Hb.
      destruct (_ && _); [|discriminate].
      destruct (nth_error (buckets s1) _) as [b'|] eqn:Hnth; [|discriminate].
      injection Hb as <-. apply nth_error_In in Hnth.
      rewrite Forall_forall in Hstart. now apply Hstart. }
    destruct Hbn. split; cbn; lia.
  - unfold rate. destruct (origin_ms self).
    + destruct (_erase_old self now) as [s1| |] eqn:He; cbn [bind];
        try discriminate.
      apply erase_old_nonneg in He; [|exact Hnn].
      destruct (num (origin_ms s1)) as [o1| |]; cbn [bind]; try discriminate.
      destruct (_ && _); cbn [bind fst]; intros [= <-]; exact He.
    + cbn [bind fst]. intros [= <-]. exact Hnn.
  - intros [= <-]. cbn [reset buckets].
    apply Forall_forall. intros b Hb. apply repeat_spec in Hb. subst b.
    split; cbn; lia.
Qed.

Lemma run_nonneg (calls : list Call) :
  forall self self',
    Forall nonneg_call calls ->
    Forall nonneg_bucket (buckets self) ->
    run self calls = Ok self' ->
    Forall nonneg_bucket (buckets self').
Proof.
  induction calls as [|c rest IH]; intros self self' Hcalls Hnn; cbn [run].
  - intros [= <-]. exact Hnn.
  - inversion Hcalls as [|? ? Hc Hrest]; subst.
    destruct (step self c) as [s1| |] eqn:Hstep; cbn [bind]; try discriminate.
    apply (IH s1 self' Hrest). exact (step_nonneg self s1 c Hc Hnn Hstep).
Qed.

Lemma py_round_quotient_nonneg (n d : Z) :
  0 <= n -> 0 < d -> 0 <= py_round (inject_Z n / inject_Z d).
Proof.
  intros Hn Hd. destruct d as [|p|p]; try lia.
  unfold py_round, Qdiv, Qinv, Qmult, inject_Z. cbn [Qnum Qden].
  set (num := n * 1). set (den := Z.pos (1 * p)).
  assert (Hfl : 0 <= num / den) by (apply Z.div_pos; unfold num, den; lia).
  repeat match goal with
         | |- context [if ?b then _ else _] => destruct b
         end; lia.
Qed.

(** X25: a counter with a positive window and a scale that is not negative,
    given only values that are not negative, never holds a negative total
    and never reports a negative rate. *)
Theorem rate_is_never_negative (window factor : Z) (calls : list Call) :
  0 < window -> 0 <= factor ->
  Forall nonneg_call calls ->
  exists self,
    run (init window factor) calls = Ok self /\
    0 <= count (total self) /\ 0 <= value (total self) /\
    (forall now_ms self' r,
       rate self now_ms = Ok (self', Some r) -> 0 <= r).
Proof.
  intros Hw Hf Hcalls.
  assert (Hwf0 : well_formed (init window factor)) by now apply init_well_formed.
  assert (Hm0 : totals_match (init window factor)).
  { apply (reset_sound {| scale := factor; window_size := window; buckets := [];
                          origin_index := 0; origin_ms := None;
                          total := {| count := 0; value := 0 |} |}). exact Hw. }
  assert (Hnn0 : Forall nonneg_bucket (buckets (init window factor))).
  { cbn. apply Forall_forall. intros b Hb. apply repeat_spec in Hb. subst b.
    split; cbn; lia. }
  destruct (run_sound calls (init window factor) Hwf0 Hm0)
    as (self & Hrun & Hwf & [Hc Hv] & [Hs _]).
  pose proof (run_nonneg calls _ _ Hcalls Hnn0 Hrun) as Hnn.
  exists self. split; [exact Hrun|].
  destruct (sum_nonneg _ Hnn) as [Hsc Hsv].
  split; [lia|]. split; [lia|].
  intros now self' r Hrate.
  destruct (rate_sound self now Hwf (conj Hc Hv))
    as (s1 & r1 & Hrate1 & _ & [Hc1 Hv1] & [Hs1 _]).
  rewrite Hrate in Hrate1. injection Hrate1 as <- <-.
  assert (Hnn1 : Forall nonneg_bucket (buckets self')).
  { apply (step_nonneg self self' (Rate now) I Hnn).
    cbn [step]. rewrite Hrate. reflexivity. }
  destruct (sum_nonneg _ Hnn1) as [_ Hsv1].
  revert Hrate. unfold rate.
  destruct (origin_ms self); [|discriminate].
  destruct (_erase_old self now) as [s2| |]; cbn [bind]; try discriminate.
  destruct (num (origin_ms s2)) as [o2| |]; cbn [bind]; try discriminate.
  destruct (0 <? count (total s2)); cbn [andb]; [|discriminate].
  destruct (Z.ltb_spec 1 (now - o2 + 1)); [|discriminate].
  intros [= <- <-].
  apply py_round_quotient_nonneg; [|lia].
  cbn in Hs, Hs1. apply Z.mul_nonneg_nonneg; [|lia].
  rewrite <- Hs1, <- Hs. exact Hf.
Qed.

Lemma rate_is_never_negative_witness :
  exists self,
    run (init 10 8000) [Add 100 5; Add 50 7; Rate 15] = Ok self /\
    0 <= count (total self) /\ 0 <= value (total self) /\
    (forall now_ms self' r,
       rate self now_ms = Ok (self', Some r) -> 0 <= r).
Proof.
  apply (rate_is_never_negative 10 8000 [Add 100 5; Add 50 7; Rate 15]).
  - lia.
  - lia.
  - repeat constructor; cbn; lia.
Defined.

End RateCounterTotals.

(** ** RemoteBitrateEstimator *)

Section RemoteBitrateEstimatorFacts.

Import RemoteBitrateEstimator.

Lemma rate_well_formed (c : RateCounter.t) (now_ms : Z) :
  RateCounter.well_formed c ->
  exists c' r, RateCounter.rate c now_ms = Ok (c', r) /\ RateCounter.well_formed c'.
Proof.
  intros Hwf. unfold RateCounter.rate.
  destruct (RateCounter.origin_ms c) as [origin|] eqn:Horigin.
  - destruct (erase_old_ok c origin now_ms Hwf Horigin)
      as (c1 & o1 & -> & Hwf1 & Ho1 & _).
    cbn [bind]. rewrite Ho1. cbn [num bind].
    match goal with |- context [if ?b then _ else _] => destruct b end; eauto.
  - eauto.
Qed.

Lemma update_incoming_bitrate_ok (c : RateCounter.t) (initialized : bool)
    (arrival_time_ms payload_size : Z) :
  RateCounter.well_formed c ->
  exists rc,
    update_incoming_bitrate c initialized arrival_time_ms payload_size = Ok rc /\
    RateCounter.well_formed (fst rc).
Proof.
  intros Hwf. unfold update_incoming_bitrate.
  destruct (rate_well_formed c arrival_time_ms Hwf) as (c1 & r & -> & Hwf1).
  cbn [bind fst snd].
  assert (Hreset : RateCounter.well_formed (RateCounter.reset c1)).
  { apply reset_sound. apply Hwf1. }
  destruct r as [v|]; [|destruct initialized].
  - destruct (add_ok c1 payload_size arrival_time_ms Hwf1) as (c2 & -> & Hwf2).
    cbn [bind]. eauto.
  - destruct (add_ok (RateCounter.reset c1) payload_size arrival_time_ms Hreset)
      as (c2 & -> & Hwf2).
    cbn [bind]. eauto.
  - destruct (add_ok c1 payload_size arrival_time_ms Hwf1) as (c2 & -> & Hwf2).
    cbn [bind]. eauto.
Qed.

Lemma filter_delta_ok (est : OveruseEstimator.t) (det : OveruseDetector.t)
    (d : InterArrival.InterArrivalDelta) (arrival_time_ms : Z) :
  OveruseEstimator.invariant est ->
  OveruseDetector.threshold_bounded det ->
  exists est' det',
    filter_delta est det d arrival_time_ms = Ok (est', det') /\
    OveruseEstimator.invariant est' /\
    OveruseDetector.threshold_bounded det' /\
    OveruseEstimator.num_of_deltas est' =
    Z.min (OveruseEstimator.num_of_deltas est + 1) DELTA_COUNTER_MAX.
Proof.
  intros Hest Hdet. unfold filter_delta.
  set (ms := py_int _).
  destruct (update_invariant est (IZR (InterArrival.delta_arrival_time d))
              (IZR ms) (IZR (InterArrival.delta_size d))
              (OveruseDetector.state det) (IZR arrival_time_ms) Hest)
    as (est' & Hup & Hest').
  rewrite Hup. cbn [bind].
  eexists _, _. split; [reflexivity|]. split; [exact Hest'|].
  split; [now apply detect_bounded|].
  now destruct (update_frame _ _ _ _ _ _ _ Hup) as (Hn & _).
Qed.

(** One call of [add] on sound components, step by step. *)
Lemma add_step (self : t) (arrival_time_ms abs_send_time payload_size ssrc : Z) :
  sound self ->
  exists self' ia,
    InterArrival.compute_deltas (inter_arrival self) (Z.shiftl abs_send_time 8)
      arrival_time_ms payload_size = Ok ia /\
    add self arrival_time_ms abs_send_time payload_size ssrc = Ok self' /\
    sound self' /\
    inter_arrival self' = fst ia /\
    ssrcs self' = note_ssrc (ssrcs self) ssrc arrival_time_ms /\
    match snd ia with
    | None => estimator self' = estimator self /\ detector self' = detector self
    | Some d =>
        filter_delta (estimator self) (detector self) d arrival_time_ms =
        Ok (estimator self', detector self') /\
        OveruseEstimator.num_of_deltas (estimator self') =
        Z.min (OveruseEstimator.num_of_deltas (estimator self) + 1)
              DELTA_COUNTER_MAX
    end.
Proof.
  intros (Hrc & Hia & Hest & Hdet). unfold add.
  destruct (update_incoming_bitrate_ok (incoming_bitrate self)
              (incoming_bitrate_initialized self) arrival_time_ms payload_size Hrc)
    as (rc & -> & Hrc').
  destruct (compute_deltas_complete (inter_arrival self) (Z.shiftl abs_send_time 8)
              arrival_time_ms payload_size Hia) as (ia' & d & Hcd & Hia').
  rewrite Hcd. cbn [bind fst snd].
  destruct d as [d|].
  - destruct (filter_delta_ok (estimator self) (detector self) d arrival_time_ms
                Hest Hdet) as (est' & det' & Hfd & Hest' & Hdet' & Hn).
    rewrite Hfd. cbn [bind fst snd].
    eexists _, _. split; [reflexivity|]. split; [reflexivity|].
    split; [exact (conj Hrc' (conj Hia' (conj Hest' Hdet')))|].
    cbn [inter_arrival ssrcs estimator detector fst snd].
    split; [reflexivity|]. split; [reflexivity|]. split; [exact Hfd | exact Hn].
  - cbn [bind fst snd].
    eexists _, _. split; [reflexivity|]. split; [reflexivity|].
    split; [exact (conj Hrc' (conj Hia' (conj Hest Hdet)))|].
    cbn [inter_arrival ssrcs estimator detector fst snd].
    split; [reflexivity|]. split; reflexivity || (split; reflexivity).
Qed.

Lemma init_sound : sound init.
Proof.
  split; [|split; [|split]].
  - apply init_well_formed. lia.
  - apply init_complete.
  - apply init_invariant.
  - apply init_bounded.
Qed.

Lemma run_sound_facade (arrivals : list Arrival) :
  forall self,
    sound self ->
    exists self' ds,
      run self arrivals = Ok self' /\
      sound self' /\
      InterArrival.feed (inter_arrival self) (map packet_of arrivals) =
      Ok (inter_arrival self', ds) /\
      (ds = [] -> estimator self' = estimator self /\
                  detector self' = detector self) /\
      ((0 <= OveruseEstimator.num_of_deltas (estimator self) <= DELTA_COUNTER_MAX)%Z ->
       OveruseEstimator.num_of_deltas (estimator self') =
       Z.min (OveruseEstimator.num_of_deltas (estimator self)
              + Z.of_nat (length ds)) DELTA_COUNTER_MAX).
Proof.
  induction arrivals as [|a rest IH]; intros self Hsound.
  - exists self, []. split; [reflexivity|]. split; [exact Hsound|].
    split; [reflexivity|]. split; [now split|].
    cbn [length]. unfold DELTA_COUNTER_MAX. lia.
  - destruct (add_step self (r_arrival_time_ms a) (r_abs_send_time a)
                (r_payload_size a) (r_ssrc a) Hsound)
      as (s1 & ia & Hcd & Hadd & Hsound1 & Hia1 & _ & Hed).
    destruct (IH s1 Hsound1) as (s2 & ds & Hrun & Hsound2 & Hfeed & Hnone & Hcount).
    exists s2, (match snd ia with Some d => d :: ds | None => ds end).
    split; [cbn [run]; rewrite Hadd; exact Hrun|].
    split; [exact Hsound2|].
    split.
    { cbn [map InterArrival.feed packet_of InterArrival.p_timestamp
           InterArrival.p_arrival InterArrival.p_size].
      rewrite Hcd. cbn [bind]. rewrite <- Hia1, Hfeed. reflexivity. }
    destruct (snd ia) as [d|].
    + destruct Hed as [_ Hn]. split; [discriminate|].
      intros Hrange. rewrite Hcount, Hn; cbn [length];
        unfold DELTA_COUNTER_MAX in *; lia.
    + destruct Hed as [He Hd]. split.
      * intros Hds. destruct (Hnone Hds) as [He2 Hd2]. split; congruence.
      * intros Hrange. rewrite Hcount; rewrite He; [reflexivity | exact Hrange].
Qed.

(** X20: [add] never raises: whatever packets a new estimator is given, in
    any order of arrival times, every call returns, the threshold of the
    detector stays in [6, 600], the noise variance of the filter stays at
    least 1 and its covariance stays symmetric and positive semi-definite. *)
Theorem add_never_raises (arrivals : list Arrival) :
  exists self,
    run init arrivals = Ok self /\
    (6 <= OveruseDetector.threshold (detector self) <= 600)%R /\
    (1 <= OveruseEstimator.var_noise (estimator self))%R /\
    OveruseEstimator.symmetric (OveruseEstimator.E (estimator self)) /\
    OveruseEstimator.positive_semidefinite (OveruseEstimator.E (estimator self)).
Proof.
  destruct (run_sound_facade arrivals init init_sound)
    as (self & ds & Hrun & (_ & _ & Hest & Hdet) & _).
  exists self. split; [exact Hrun|]. split; [exact Hdet|].
  destruct Hest as (Hsym & H00 & H11 & Hdet' & Hvar & _).
  split; [exact Hvar|]. split; [exact Hsym|].
  now apply minors_positive_semidefinite.
Qed.

(** X21: the estimator and the detector see the deltas of the inter-arrival
    filter and nothing else: after any packets, the filter of the facade is
    the stand-alone filter fed the same packets with timestamps
    [abs_send_time << 8], [num_of_deltas()] is the number of deltas that
    filter returned, capped at 1000, and as long as it returned none the
    estimator and the detector are as [__init__] built them. *)
Theorem estimator_sees_returned_deltas (arrivals : list Arrival) :
  exists self ds,
    run init arrivals = Ok self /\
    InterArrival.feed InterArrival.abs_send_time_filter (map packet_of arrivals) =
    Ok (inter_arrival self, ds) /\
    OveruseEstimator.num_of_deltas (estimator self) =
    Z.min (Z.of_nat (length ds)) DELTA_COUNTER_MAX /\
    (ds = [] -> estimator self = OveruseEstimator.init /\
                detector self = OveruseDetector.init).
Proof.
  destruct (run_sound_facade arrivals init init_sound)
    as (self & ds & Hrun & _ & Hfeed & Hnone & Hcount).
  exists self, ds. split; [exact Hrun|]. split; [exact Hfeed|].
  split; [|exact Hnone].
  rewrite Hcount; [reflexivity|]. cbn. unfold DELTA_COUNTER_MAX. lia.
Qed.

Lemma estimator_sees_returned_deltas_witness :
  exists self ds,
    run init [mkArrival 0 0 1200 7; mkArrival 6 1573 1000 7] = Ok self /\
    InterArrival.feed InterArrival.abs_send_time_filter
      (map packet_of [mkArrival 0 0 1200 7; mkArrival 6 1573 1000 7]) =
    Ok (inter_arrival self, ds) /\
    OveruseEstimator.num_of_deltas (estimator self) =
    Z.min (Z.of_nat (length ds)) DELTA_COUNTER_MAX /\
    (ds = [] -> estimator self = OveruseEstimator.init /\
                detector self = OveruseDetector.init).
Proof.
  exact (estimator_sees_returned_deltas
           [mkArrival 0 0 1200 7; mkArrival 6 1573 1000 7]).
Defined.

(** X22: [add] notes the arrival time under the SSRC of the packet and
    leaves the entries of all other SSRCs alone. *)
Theorem add_records_ssrc (self self' : t)
    (arrival_time_ms abs_send_time payload_size ssrc : Z) :
  add self arrival_time_ms abs_send_time payload_size ssrc = Ok self' ->
  ssrcs self' ssrc = Some arrival_time_ms /\
  (forall other, other <> ssrc -> ssrcs self' other = ssrcs self other).
Proof.
  unfold add.
  destruct (update_incoming_bitrate _ _ _ _) as [rc| |]; cbn [bind];
    try discriminate.
  destruct (InterArrival.compute_deltas _ _ _ _) as [ia| |]; cbn [bind];
    try discriminate.
  destruct (match snd ia with Some _ => _ | None => _ end) as [ed| |];
    cbn [bind]; try discriminate.
  intros [= <-]. cbn [ssrcs]. unfold note_ssrc. split.
  - now rewrite Z.eqb_refl.
  - intros other Hother. now apply Z.eqb_neq in Hother as ->.
Qed.

Lemma add_records_ssrc_witness :
  exists self',
    add init 10 20 1200 7 = Ok self' /\
    ssrcs self' 7 = Some 10 /\
    (forall other, other <> 7 -> ssrcs self' other = ssrcs init other).
Proof.
  destruct (add_step init 10 20 1200 7 init_sound) as (self' & _ & _ & Hadd & _).
  exists self'. split; [exact Hadd|].
  exact (add_records_ssrc init self' 10 20 1200 7 Hadd).
Defined.

(** X23: a packet whose send time is out of order for the inter-arrival
    filter is still counted for the bitrate and noted under its SSRC, but
    the filter, the estimator and the detector are left as they were. *)
Theorem out_of_order_arrival_keeps_estimate (self : t)
    (arrival_time_ms abs_send_time payload_size ssrc : Z) :
  sound self ->
  InterArrival.packet_out_of_order (inter_arrival self) (Z.shiftl abs_send_time 8)
  = Ok true ->
  exists self',
    add self arrival_time_ms abs_send_time payload_size ssrc = Ok self' /\
    inter_arrival self' = inter_arrival self /\
    estimator self' = estimator self /\
    detector self' = detector self /\
    ssrcs self' ssrc = Some arrival_time_ms /\
    exists rc,
      update_incoming_bitrate (incoming_bitrate self)
        (incoming_bitrate_initialized self) arrival_time_ms payload_size = Ok rc /\
      incoming_bitrate self' = fst rc.
Proof.
  intros Hsound Hooo.
  destruct (add_step self arrival_time_ms abs_send_time payload_size ssrc Hsound)
    as (self' & ia & Hcd & Hadd & _ & Hia & Hss & Hed).
  rewrite (compute_deltas_out_of_order _ _ arrival_time_ms payload_size Hooo) in Hcd.
  injection Hcd as <-. cbn [fst snd] in Hia, Hed. destruct Hed as [He Hd].
  exists self'. split; [exact Hadd|]. split; [exact Hia|].
  split; [exact He|]. split; [exact Hd|].
  split; [rewrite Hss; unfold note_ssrc; now rewrite Z.eqb_refl|].
  revert Hadd. unfold add.
  destruct (update_incoming_bitrate _ _ _ _) as [rc| |]; cbn [bind];
    try discriminate.
  destruct (InterArrival.compute_deltas _ _ _ _) as [ia| |]; cbn [bind];
    try discriminate.
  destruct (match snd ia with Some _ => _ | None => _ end) as [ed| |];
    cbn [bind]; try discriminate.
  intros [= <-]. exists rc. split; reflexivity.
Qed.

Lemma after_first_arrival_sound : sound after_first_arrival.
Proof.
  split; [|split; [|split]].
  - apply init_well_formed. lia.
  - split; cbn; intros g [= <-]. repeat split; discriminate.
  - apply init_invariant.
  - apply init_bounded.
Qed.

Lemma out_of_order_arrival_keeps_estimate_witness :
  exists self',
    add after_first_arrival 10 8388608 100 7 = Ok self' /\
    inter_arrival self' = inter_arrival after_first_arrival /\
    estimator self' = estimator after_first_arrival /\
    detector self' = detector after_first_arrival /\
    ssrcs self' 7 = Some 10 /\
    exists rc,
      update_incoming_bitrate (incoming_bitrate after_first_arrival)
        (incoming_bitrate_initialized after_first_arrival) 10 100 = Ok rc /\
      incoming_bitrate self' = fst rc.
Proof.
  apply (out_of_order_arrival_keeps_estimate after_first_arrival 10 8388608 100 7).
  - exact after_first_arrival_sound.
  - vm_compute. reflexivity.
Defined.

(** X24: after [add] the flag [incoming_bitrate_initialized] tells whether
    the counter had a rate at the arrival time before the packet was
    counted; the counter is reset exactly when it had none while the flag
    was set, and the packet is then added to the counter. *)
Theorem initialized_flag_follows_rate (self : t)
    (arrival_time_ms abs_send_time payload_size ssrc : Z) :
  sound self ->
  exists self' c r c',
    add self arrival_time_ms abs_send_time payload_size ssrc = Ok self' /\
    RateCounter.rate (incoming_bitrate self) arrival_time_ms = Ok (c, r) /\
    incoming_bitrate_initialized self' =
    match r with Some _ => true | None => false end /\
    RateCounter.add
      (match r with
       | Some _ => c
       | None => if incoming_bitrate_initialized self
                 then RateCounter.reset c else c
       end) payload_size arrival_time_ms = Ok c' /\
    incoming_bitrate self' = c'.
Proof.
  intros Hsound.
  destruct (add_step self arrival_time_ms abs_send_time payload_size ssrc Hsound)
    as (self' & _ & _ & Hadd & _).
  destruct Hsound as (Hrc & _).
  destruct (rate_well_formed (incoming_bitrate self) arrival_time_ms Hrc)
    as (c & r & Hrate & _).
  exists self', c, r. revert Hadd. unfold add, update_incoming_bitrate.
  rewrite Hrate. cbn [bind fst snd].
  destruct r as [v|]; [|destruct (incoming_bitrate_initialized self)];
    (destruct (RateCounter.add _ payload_size arrival_time_ms) as [c'| |];
       cbn [bind]; try discriminate;
     destruct (InterArrival.compute_deltas _ _ _ _) as [ia| |]; cbn [bind];
       try discriminate;
     destruct (match snd ia with Some _ => _ | None => _ end) as [ed| |];
       cbn [bind]; try discriminate;
     intros [= <-]; exists c'; repeat split).
Qed.

Lemma filter_delta_detector (est est' : OveruseEstimator.t)
    (det det' : OveruseDetector.t) (d : InterArrival.InterArrivalDelta)
    (arrival_time_ms : Z) :
  filter_delta est det d arrival_time_ms = Ok (est', det') ->
  OveruseEstimator.num_of_deltas est' < 2 ->
  det' = det.
Proof.
  unfold filter_delta.
  destruct (OveruseEstimator.update _ _ _ _ _ _) as [e| |]; cbn [bind];
    try discriminate.
  intros [= <- <-] Hn. unfold OveruseDetector.detect.
  replace (OveruseEstimator.num_of_deltas e <? 2) with true
    by (symmetry; now apply Z.ltb_lt).
  reflexivity.
Qed.

Lemma run_detector_waits (arrivals : list Arrival) :
  forall self,
    sound self ->
    0 <= OveruseEstimator.num_of_deltas (estimator self) ->
    exists self' ds,
      run self arrivals = Ok self' /\
      InterArrival.feed (inter_arrival self) (map packet_of arrivals) =
      Ok (inter_arrival self', ds) /\
      (OveruseEstimator.num_of_deltas (estimator self) + Z.of_nat (length ds) < 2 ->
       detector self' = detector self).
Proof.
  induction arrivals as [|a rest IH]; intros self Hsound Hn.
  - exists self, []. repeat split.
  - destruct (add_step self (r_arrival_time_ms a) (r_abs_send_time a)
                (r_payload_size a) (r_ssrc a) Hsound)
      as (s1 & ia & Hcd & Hadd & Hsound1 & Hia1 & _ & Hed).
    assert (Hn1 : 0 <= OveruseEstimator.num_of_deltas (estimator s1)).
    { destruct (snd ia); destruct Hed as [He Hd].
      - rewrite Hd. unfold DELTA_COUNTER_MAX. lia.
      - now rewrite He. }
    destruct (IH s1 Hsound1 Hn1) as (s2 & ds & Hrun & Hfeed & Hwait).
    exists s2, (match snd ia with Some d => d :: ds | None => ds end).
    split; [cbn [run]; rewrite Hadd; exact Hrun|].
    split.
    { cbn [map InterArrival.feed packet_of InterArrival.p_timestamp
           InterArrival.p_arrival InterArrival.p_size].
      rewrite Hcd. cbn [bind]. rewrite <- Hia1, Hfeed. reflexivity. }
    destruct (snd ia) as [d|]; destruct Hed as [He Hd].
    + cbn [length]. intros Hfew.
      assert (Hone : OveruseEstimator.num_of_deltas (estimator s1) = 1)
        by (rewrite Hd; unfold DELTA_COUNTER_MAX; lia).
      rewrite Hwait by lia.
      apply (filter_delta_detector _ _ _ _ _ _ He). lia.
    + intros Hfew. rewrite Hwait by (rewrite He; exact Hfew). exact Hd.
Qed.

(** X27: the detector waits for the second delta: as long as the
    inter-arrival filter of a new estimator has returned at most one delta,
    the detector is as [__init__] built it and the hypothesis is NORMAL,
    because the first call of [detect] comes with [num_of_deltas = 1]. *)
Theorem detector_waits_for_second_delta (arrivals : list Arrival) :
  exists self ds,
    run init arrivals = Ok self /\
    InterArrival.feed InterArrival.abs_send_time_filter (map packet_of arrivals) =
    Ok (inter_arrival self, ds) /\
    ((length ds <= 1)%nat ->
     detector self = OveruseDetector.init /\
     OveruseDetector.state (detector self) = NORMAL).
Proof.
  destruct (run_detector_waits arrivals init init_sound)
    as (self & ds & Hrun & Hfeed & Hwait); [cbn; lia|].
  exists self, ds. split; [exact Hrun|]. split; [exact Hfeed|].
  intros Hfew. rewrite Hwait by (cbn; lia). now split.
Qed.

Lemma detector_waits_for_second_delta_witness :
  exists self ds,
    run init [mkArrival 0 0 1200 7; mkArrival 6 1573 1000 7;
              mkArrival 12 3146 1100 7] = Ok self /\
    InterArrival.feed InterArrival.abs_send_time_filter
      (map packet_of [mkArrival 0 0 1200 7; mkArrival 6 1573 1000 7;
                      mkArrival 12 3146 1100 7]) =
    Ok (inter_arrival self, ds) /\
    ((length ds <= 1)%nat ->
     detector self = OveruseDetector.init /\
     OveruseDetector.state (detector self) = NORMAL).
Proof.
  exact (detector_waits_for_second_delta
           [mkArrival 0 0 1200 7; mkArrival 6 1573 1000 7;
            mkArrival 12 3146 1100 7]).
Defined.

Lemma initialized_flag_follows_rate_witness :
  exists self' c r c',
    add init 10 20 1200 7 = Ok self' /\
    RateCounter.rate (incoming_bitrate init) 10 = Ok (c, r) /\
    incoming_bitrate_initialized self' =
    match r with Some _ => true | None => false end /\
    RateCounter.add
      (match r with
       | Some _ => c
       | None => if incoming_bitrate_initialized init
                 then RateCounter.reset c else c
       end) 1200 10 = Ok c' /\
    incoming_bitrate self' = c'.
Proof.
  exact (initialized_flag_follows_rate init 10 20 1200 7 init_sound).
Defined.

End RemoteBitrateEstimatorFacts.
